(** * Unity Ads humanized bot: rate limiting, candidate matching, worker cycle

    A shallow embedding of [unity_ads_humanized_bot_Version3.py].

    - Python [int] is [Z]; the two [defaultdict(int)] counters are
      [gmap string Z] with the insert-on-read behaviour of [defaultdict]
      written out.
    - Wall-clock time is discretised to whole milliseconds ([Z]); random
      draws come from an oracle stream, so a property proved for every
      oracle holds for all random choices.
    - The Appium driver is an oracle indexed by the number of driver calls
      made so far; a call either returns or raises.
    - Each [with proxy_lock:] block is one atomic transition. *)

From stdpp Require Import gmap strings list fin_maps pretty.
From Stdlib Require Import ZArith Lia.

Open Scope Z_scope.

(** ** Global configuration (lines 51-56) *)

Definition PROXIES : list string :=
  ["proxy_1"; "proxy_2"; "proxy_3"; "proxy_4"; "proxy_5"]%string.
Definition MAX_VIEWS_PER_HOUR : Z := 100.
Definition MAX_TOTAL_VIEWS_PER_PROXY : Z := 5000.

(** ** [defaultdict(int)] *)

Module DefaultDict.

(** [d[k]] on a [defaultdict(int)]: a missing key is inserted with the
    default [0] and that default is returned. *)
Definition getitem (k : string) (d : gmap string Z) : Z * gmap string Z :=
  match d !! k with
  | Some v => (v, d)
  | None => (0, <[k:=0]> d)
  end.

(** The value a read of [k] observes. *)
Definition peek (d : gmap string Z) (k : string) : Z := default 0 (d !! k).

(** [d[k] = v]. *)
Definition setitem (k : string) (v : Z) (d : gmap string Z) : gmap string Z :=
  <[k:=v]> d.

(** [d[k] += n]: read (inserting the default), then store. *)
Definition iadd (k : string) (n : Z) (d : gmap string Z) : gmap string Z :=
  let '(v, d1) := getitem k d in setitem k (v + n) d1.

End DefaultDict.

Import DefaultDict.

(** ** The shared counters (lines 55-56) *)

Record Counters := mkCounters {
  proxy_view_count : gmap string Z;
  proxy_total_count : gmap string Z;
}.

Definition window_count (c : Counters) (k : string) : Z := peek (proxy_view_count c) k.
Definition lifetime_count (c : Counters) (k : string) : Z := peek (proxy_total_count c) k.

Definition fresh_counters : Counters := mkCounters ∅ ∅.

(** ** The cap check at the top of the worker loop (lines 271-279) *)

Inductive Verdict := Allowed | WindowExhausted | LifetimeExhausted.

Global Instance Verdict_eq_dec : EqDecision Verdict.
Proof. solve_decision. Defined.

(** Returns the verdict, the ordinal [count] computed on line 272 and the
    counters after the reads.  The window test (line 273) is evaluated
    first; the lifetime counter is only read when the window test passes. *)
Definition check_caps (proxy_id : string) (c : Counters) : Verdict * Z * Counters :=
  let '(v0, view1) := getitem proxy_id (proxy_view_count c) in
  let count := v0 + 1 in
  let '(v1, view2) := getitem proxy_id view1 in
  if decide (MAX_VIEWS_PER_HOUR ≤ v1) then
    (WindowExhausted, count, mkCounters view2 (proxy_total_count c))
  else
    let '(t, total1) := getitem proxy_id (proxy_total_count c) in
    if decide (MAX_TOTAL_VIEWS_PER_PROXY ≤ t) then
      (LifetimeExhausted, count, mkCounters view2 total1)
    else
      (Allowed, count, mkCounters view2 total1).

Definition verdict_of (proxy_id : string) (c : Counters) : Verdict :=
  (check_caps proxy_id c).1.1.

(** The verdict as a function of the two counts read. *)
Definition verdict_for (window lifetime : Z) : Verdict :=
  if decide (MAX_VIEWS_PER_HOUR ≤ window) then WindowExhausted
  else if decide (MAX_TOTAL_VIEWS_PER_PROXY ≤ lifetime) then LifetimeExhausted
  else Allowed.

(** ** Recording a completed view (lines 332-334) *)

Definition record_view (proxy_id : string) (c : Counters) : Counters :=
  mkCounters (iadd proxy_id 1 (proxy_view_count c))
             (iadd proxy_id 1 (proxy_total_count c)).

(** ** The hourly reset (lines 202-204)

    [for k in proxy_view_count: proxy_view_count[k] = 0] walks the keys
    present in the mapping and stores [0] under each of them. *)

Definition reset_keys (ks : list string) (d : gmap string Z) : gmap string Z :=
  foldl (λ acc k, setitem k 0 acc) d ks.

Definition reset_views (c : Counters) : Counters :=
  mkCounters
    (reset_keys (map_to_list (proxy_view_count c)).*1 (proxy_view_count c))
    (proxy_total_count c).

(** ** Rendering the status (lines 207-213) *)

Definition stat_line (k : string) (v t : Z) : string :=
  (k +:+ ": " +:+ pretty v +:+ " this hour, " +:+ pretty t +:+ " total")%string.

(** One pass of the list comprehension: both counters are read with
    [d[k]], so an absent key is inserted on the way. *)
Fixpoint stat_lines (ks : list string) (c : Counters) : list string * Counters :=
  match ks with
  | [] => ([], c)
  | k :: ks' =>
      let '(v, view1) := getitem k (proxy_view_count c) in
      let '(t, total1) := getitem k (proxy_total_count c) in
      let '(ls, c') := stat_lines ks' (mkCounters view1 total1) in
      (stat_line k v t :: ls, c')
  end.

Definition join_lines (ls : list string) : string :=
  String.concat (String (Ascii.ascii_of_nat 10) EmptyString) ls.

Definition get_proxy_stats (c : Counters) : string * Counters :=
  let '(ls, c') := stat_lines PROXIES c in (join_lines ls, c').

(** The entries a [defaultdict(int)] gains when each of [ks] is read. *)
Definition defaults (ks : list string) : gmap string Z :=
  gset_to_gmap 0 (list_to_set ks).

(** ** Transport model: elements, exceptions, the driver oracle *)

(** Python exceptions derived from [Exception] that the modelled code can
    meet: a transport error, and [random.randint] on an empty range. *)
Inductive exn :=
  | WebDriverException (msg : string)
  | ValueError (msg : string).

(** What a call into the transport (a driver query, a property read of
    an element) answers. *)
Inductive Reply (A : Type) :=
  | Returns (a : A)
  | Throws (e : exn).
Arguments Returns {A} a.
Arguments Throws {A} e.

(** The outcome of a computation: a value, a raised exception, or
    [OutOfFuel] when a loop of the model used up its iteration budget
    (never an outcome of the Python code itself). *)
Inductive Res (A : Type) :=
  | Ok (a : A)
  | Raise (e : exn)
  | OutOfFuel.
Arguments Ok {A} a.
Arguments Raise {A} e.
Arguments OutOfFuel {A}.

Definition res_of_reply {A} (r : Reply A) : Res A :=
  match r with Returns a => Ok a | Throws e => Raise e end.

(** A [WebElement] as the code reads it: the [id] attribute (absent or
    empty makes line 236 fall back on [id(el)], the object address), and
    the [location] and [size] properties, whose read may raise. *)
Record Element := mkElement {
  el_id : option string;
  el_addr : Z;
  el_location : Reply (Z * Z);
  el_size : Reply (Z * Z);
}.

(** The deduplication key of lines 236 and 249:
    [getattr(el, 'id', None) or id(el)]. *)
Definition ElId : Type := string + Z.

Definition elid (el : Element) : ElId :=
  match el_id el with
  | Some s => if decide (s = EmptyString) then inr (el_addr el) else inl s
  | None => inr (el_addr el)
  end.

Inductive Event :=
  | EvFind (selector : string)
  | EvTap (x y : Z) (duration_ms : Z)
  | EvTouchTap (x y : Z)
  | EvSwipe (path : list (Z * Z)) (duration_ms : Z)
  | EvKeycode (code : Z)
  | EvLaunchApp
  | EvRotate (orientation : string)
  | EvSleep (ms : Z)
  | EvQuit.

(** What the outside world answers: the element query and the other
    driver calls are indexed by the number of driver calls made before
    them, random draws by the number of draws made before them. *)
Record Env := mkEnv {
  ui : nat → string → Reply (list Element);
  drv_raises : nat → option exn;
  latency : nat → Z;
  rnd : nat → Z;
}.

Record World := mkWorld {
  counters : Counters;
  clock : Z;
  calls : nat;
  draws : nat;
  trace : list Event;
}.

Definition set_counters (c : Counters) (w : World) : World :=
  mkWorld c (clock w) (calls w) (draws w) (trace w).

(** ** The state-and-exception monad of the worker code *)

Definition M (A : Type) : Type := World → Res A * World.

Global Instance M_ret : MRet M := λ A a w, (Ok a, w).
Global Instance M_bind : MBind M := λ A B f m w,
  match m w with
  | (Ok a, w') => f a w'
  | (Raise e, w') => (Raise e, w')
  | (OutOfFuel, w') => (OutOfFuel, w')
  end.

(** [try: body except Exception as e: handler e]; the state reached when
    the exception was raised is the one the handler starts from. *)
Definition try_except {A} (body : M A) (handler : exn → M A) : M A := λ w,
  match body w with
  | (Ok a, w') => (Ok a, w')
  | (Raise e, w') => handler e w'
  | (OutOfFuel, w') => (OutOfFuel, w')
  end.

Definition raise {A} (e : exn) : M A := λ w, (Raise e, w).

Ltac unfold_M := unfold mbind, mret, M_bind, M_ret, try_except, raise in *.

Section Transport.
Variable env : Env.

Definition elapse (ms : Z) (w : World) : World :=
  mkWorld (counters w) (clock w + Z.max 0 ms) (calls w) (draws w) (trace w).

Definition emit (ev : Event) (w : World) : World :=
  mkWorld (counters w) (clock w) (calls w) (draws w) (ev :: trace w).

Definition next_call (w : World) : World :=
  mkWorld (counters w) (clock w + Z.max 0 (latency env (calls w)))
          (S (calls w)) (draws w) (trace w).

(** [driver.find_elements_by_android_uiautomator(sel)] *)
Definition find_elements (sel : string) : M (list Element) := λ w,
  (res_of_reply (ui env (calls w) sel), next_call (emit (EvFind sel) w)).

(** Any other driver call; the event is what the call would do. *)
Definition driver_call (ev : Event) : M unit := λ w,
  match drv_raises env (calls w) with
  | Some e => (Raise e, next_call w)
  | None => (Ok (), next_call (emit ev w))
  end.

(** [time.time()] and [time.sleep(ms)] *)
Definition time_time : M Z := λ w, (Ok (clock w), w).
Definition time_sleep (ms : Z) : M unit := λ w,
  (Ok (), elapse ms (emit (EvSleep ms) w)).

Definition draw : M Z := λ w,
  (Ok (rnd env (draws w)),
   mkWorld (counters w) (clock w) (calls w) (S (draws w)) (trace w)).

(** [random.randint(a, b)]: both ends included, [ValueError] when the
    range is empty. *)
Definition randint (a b : Z) : M Z :=
  if decide (b < a) then raise (ValueError "empty range for randrange()")
  else r ← draw; mret (a + r `mod` (b - a + 1)).

(** [random.uniform(lo, hi)] for a duration, in whole milliseconds. *)
Definition uniform_ms (lo hi : Z) : M Z :=
  r ← draw; mret (lo + r `mod` (hi - lo + 1)).

(** [random.random()], in hundredths. *)
Definition random_pct : M Z := r ← draw; mret (r `mod` 100).

(** [random.choice(l)] on a non-empty list. *)
Definition choice {A} (dflt : A) (l : list A) : M A :=
  r ← draw; mret (nth (Z.to_nat (r `mod` Z.of_nat (length l))) l dflt).

End Transport.

(** ** Cross button detection (lines 217-256) *)

Definition dq : string := String (Ascii.ascii_of_nat 34) EmptyString.

Definition close_words : string := "(?i)(close|cross|skip|dismiss|exit|x)".

(** (strategy name, UiAutomator selector), in priority order. *)
Definition CROSS_BUTTON_HEURISTICS : list (string * string) :=
  [ ("desc_contains",
     "new UiSelector().descriptionMatches(" +:+ dq +:+ close_words +:+ dq +:+ ")");
    ("text_contains",
     "new UiSelector().textMatches(" +:+ dq +:+ close_words +:+ dq +:+ ")");
    ("id_contains",
     "new UiSelector().resourceIdMatches(" +:+ dq +:+ close_words +:+ dq +:+ ")");
    ("class_imagebutton",
     "new UiSelector().className(" +:+ dq +:+ "android.widget.ImageButton" +:+ dq +:+ ")");
    ("class_imageview",
     "new UiSelector().className(" +:+ dq +:+ "android.widget.ImageView" +:+ dq +:+ ")");
    ("clickable_x",
     "new UiSelector().text(" +:+ dq +:+ "X" +:+ dq +:+ ").clickable(true)");
    ("desc_exact_x",
     "new UiSelector().description(" +:+ dq +:+ "X" +:+ dq +:+ ")") ]%string.

Definition CLICKABLE_SELECTOR : string := "new UiSelector().clickable(true)".

(** The two locals of the function: the list [found] and the set [tried]. *)
Definition Cands : Type := list Element * gset ElId.

Definition no_cands : Cands := ([], ∅).

(** Lines 236-239 (and 249-252): append unless the key was seen. *)
Definition add_candidate (st : Cands) (el : Element) : Cands :=
  if decide (elid el ∈ st.2) then st
  else (st.1 ++ [el], {[elid el]} ∪ st.2).

(** The loop of lines 235-239. *)
Definition scan (elements : list Element) (st : Cands) : Cands :=
  foldl add_candidate st elements.

(** The loop of lines 246-252.  Reading [el.size] may raise; the locals
    keep what was appended before. *)
Fixpoint scan_small (clickable : list Element) (st : Cands) : Reply unit * Cands :=
  match clickable with
  | [] => (Returns (), st)
  | el :: rest =>
      match el_size el with
      | Throws e => (Throws e, st)
      | Returns (width, height) =>
          scan_small rest
            (if decide (width ≤ 120 ∧ height ≤ 120) then add_candidate st el else st)
      end
  end.

Section Matcher.
Variable env : Env.

(** One turn of the loop of line 231: the query is the only statement of
    the [try] body that can raise, and it comes before any update of the
    locals, so the handler of line 242 resumes with them unchanged. *)
Definition run_heuristic (h : string * string) (st : Cands) : M Cands :=
  try_except
    (elements ← find_elements env h.2; mret (scan elements st))
    (λ _, mret st).

Fixpoint run_heuristics (hs : list (string * string)) (st : Cands) : M Cands :=
  match hs with
  | [] => mret st
  | h :: hs' => st' ← run_heuristic h st; run_heuristics hs' st'
  end.

(** Lines 244-254: the handler of line 253 swallows an exception of the
    query or of a size read; [found] is a local outside the [try], so
    it keeps the elements appended before the exception. *)
Definition small_clickable_fallback (st : Cands) : M Cands :=
  try_except
    (clickable ← find_elements env CLICKABLE_SELECTOR;
     mret (scan_small clickable st).2)
    (λ _, mret st).

Definition find_candidates (hs : list (string * string)) : M (list Element) :=
  st ← run_heuristics hs no_cands;
  st' ← small_clickable_fallback st;
  mret st'.1.

Definition find_all_possible_cross_buttons : M (list Element) :=
  find_candidates CROSS_BUTTON_HEURISTICS.

End Matcher.

(** The environment in which every failing element query answers with the
    empty list instead. *)
Definition quiet (env : Env) : Env :=
  mkEnv (λ n sel, match ui env n sel with Returns l => Returns l | Throws _ => Returns [] end)
        (drv_raises env) (latency env) (rnd env).

(** ** Humanization parameters (lines 61-69), durations in milliseconds,
    the idle chance in hundredths *)

Module HUMAN_SLEEP_VARIANCE.
Definition tap : Z * Z := (350, 1500).
Definition ad_wait : Z * Z := (12000, 17000).
Definition between_ads : Z * Z := (5000, 15000).
Definition start_delay : Z * Z := (2000, 7000).
Definition fail_retry : Z * Z := (6000, 18000).
Definition idle_chance : Z := 10.
Definition idle_time : Z * Z := (30000, 80000).
End HUMAN_SLEEP_VARIANCE.

Definition INTERSTITIAL_SELECTOR : string :=
  "new UiSelector().textContains(" +:+ dq +:+ "Interstitial" +:+ dq +:+ ")".
Definition REWARDED_SELECTOR : string :=
  "new UiSelector().textContains(" +:+ dq +:+ "Rewarded" +:+ dq +:+ ")".

(** Seconds of the dismissal search (line 317), in milliseconds. *)
Definition DISMISS_TIMEOUT : Z := 50000.

(** How one turn of [while True] (line 269) ends, and on which path. *)
Inductive Outcome :=
  | WindowPause            (* line 276: continue *)
  | SessionHalt            (* line 279: break *)
  | NoAdButton             (* line 307: continue *)
  | Viewed (close_found : bool)   (* fell through line 338 *)
  | Failed (e : exn).      (* line 344: continue *)

Section Worker.
Variable env : Env.

(** Lines 86-89. *)
Definition random_sleep (range : Z * Z) : M unit :=
  sleep_time ← uniform_ms env range.1 range.2;
  time_sleep sleep_time.

(** Lines 91-95. *)
Definition maybe_idle : M unit :=
  p ← random_pct env;
  if decide (p < HUMAN_SLEEP_VARIANCE.idle_chance) then
    t ← uniform_ms env HUMAN_SLEEP_VARIANCE.idle_time.1 HUMAN_SLEEP_VARIANCE.idle_time.2;
    time_sleep t
  else mret ().

Definition read {A} (r : Reply A) : M A := λ w, (res_of_reply r, w).

(** The offset of lines 100-101 along one axis. *)
Definition jitter (extent : Z) : M Z := randint env 5 (Z.max 6 (extent - 10)).

(** Lines 97-112. *)
Definition human_tap (element : Element) : M unit :=
  loc ← read (el_location element);
  size ← read (el_size element);
  dx ← jitter size.1;
  dy ← jitter size.2;
  let x := loc.1 + dx in
  let y := loc.2 + dy in
  try_except
    (duration ← uniform_ms env HUMAN_SLEEP_VARIANCE.tap.1 HUMAN_SLEEP_VARIANCE.tap.2;
     driver_call env (EvTap x y duration))
    (λ _, try_except (driver_call env (EvTouchTap x y)) (λ _, mret ()));;
  random_sleep HUMAN_SLEEP_VARIANCE.tap.

(** The point of line 127-128 for step [i]:
    [int(a + i * (b - a) / 6 + j)], truncated towards zero. *)
Definition curve_point (a b i j : Z) : Z := Z.quot (6 * (a + j) + i * (b - a)) 6.

Fixpoint curve (x1 y1 x2 y2 : Z) (steps : list Z) : M (list (Z * Z)) :=
  match steps with
  | [] => mret []
  | i :: rest =>
      jx ← randint env (-10) 10;
      jy ← randint env (-10) 10;
      pts ← curve x1 y1 x2 y2 rest;
      mret ((curve_point x1 x2 i jx, curve_point y1 y2 i jy) :: pts)
  end.

(** Lines 116-133. *)
Definition advanced_human_swipe : M unit :=
  x1 ← randint env 100 300;
  y1 ← randint env 300 800;
  dx ← randint env (-50) 150;
  dy ← randint env (-100) 250;
  let x2 := x1 + dx in
  let y2 := y1 + dy in
  duration ← randint env 800 1800;
  try_except
    (pts ← curve x1 y1 x2 y2 [1; 2; 3; 4; 5];
     driver_call env (EvSwipe ((x1, y1) :: pts) duration))
    (λ _, mret ()).

(** Lines 135-150. *)
Definition simulate_device_event : M unit :=
  r ← random_pct env;
  try_except
    (if decide (r < 15) then
       driver_call env (EvKeycode 3);;
       d ← uniform_ms env 1000 4000;
       time_sleep d;;
       driver_call env EvLaunchApp
     else if decide (r < 25) then
       driver_call env (EvRotate "landscape");;
       d ← uniform_ms env 500 2000;
       time_sleep d;;
       driver_call env (EvRotate "portrait")
     else mret ())
    (λ _, mret ()).

(** Lines 152-155: a debug log line only. *)
Definition simulate_sensor_events : M unit := mret ().

(** Lines 271-279, the first [with proxy_lock:] block. *)
Definition locked_check (proxy_id : string) : M (Verdict * Z) := λ w,
  let '(v, count, c) := check_caps proxy_id (counters w) in
  (Ok (v, count), set_counters c w).

(** Lines 332-335, the second [with proxy_lock:] block. *)
Definition locked_record (proxy_id : string) : M unit := λ w,
  (Ok (), set_counters (record_view proxy_id (counters w)) w).

(** Lines 284-290. *)
Definition session_diversity : M unit :=
  p1 ← random_pct env;
  (if decide (p1 < 20) then advanced_human_swipe else mret ());;
  p2 ← random_pct env;
  (if decide (p2 < 10) then simulate_device_event else mret ());;
  p3 ← random_pct env;
  (if decide (p3 < 5) then simulate_sensor_events else mret ()).

(** Lines 292-302. *)
Definition category_selector (count : Z) : string :=
  if decide (count `mod` 2 = 1) then INTERSTITIAL_SELECTOR else REWARDED_SELECTOR.

(** The loop of lines 319-327; [true] when a candidate was tapped. *)
Fixpoint poll_dismissal (fuel : nat) (timeout : Z) : M bool :=
  match fuel with
  | O => λ w, (OutOfFuel, w)
  | S fuel' =>
      now ← time_time;
      if decide (now < timeout) then
        cross_candidates ← find_all_possible_cross_buttons env;
        match cross_candidates with
        | c0 :: _ => human_tap c0;; mret true
        | [] =>
            d ← uniform_ms env 1000 2000;
            time_sleep d;;
            poll_dismissal fuel' timeout
        end
      else mret false
  end.

(** Lines 316-330. *)
Definition await_dismissal (fuel : nat) : M bool :=
  now ← time_time;
  poll_dismissal fuel (now + DISMISS_TIMEOUT).

(** Lines 332-338. *)
Definition cooldown (proxy_id : string) : M unit :=
  locked_record proxy_id;;
  random_sleep HUMAN_SLEEP_VARIANCE.between_ads;;
  maybe_idle.

(** Lines 316-338: from the dismissal search to the end of the turn. *)
Definition dismiss_and_cooldown (fuel : nat) (proxy_id : string) : M Outcome :=
  close_found ← await_dismissal fuel;
  cooldown proxy_id;;
  mret (Viewed close_found).

(** One turn of the loop of line 269, lines 270-344. *)
Definition cycle (fuel : nat) (proxy_id : string) : M Outcome :=
  try_except
    ('(verdict, count) ← locked_check proxy_id;
     match verdict with
     | WindowExhausted => time_sleep 60000;; mret WindowPause
     | LifetimeExhausted => mret SessionHalt
     | Allowed =>
         random_sleep HUMAN_SLEEP_VARIANCE.start_delay;;
         maybe_idle;;
         session_diversity;;
         ad_btns ← find_elements env (category_selector count);
         match ad_btns with
         | [] => random_sleep (2000, 4000);; mret NoAdButton
         | b0 :: _ =>
             btn ← choice env b0 ad_btns;
             human_tap btn;;
             random_sleep HUMAN_SLEEP_VARIANCE.ad_wait;;
             maybe_idle;;
             dismiss_and_cooldown fuel proxy_id
         end
     end)
    (λ e, random_sleep HUMAN_SLEEP_VARIANCE.fail_retry;; mret (Failed e)).

End Worker.

(** ** The threads around the shared counters (lines 353-379)

    One worker thread per identity, one reset ticker, the status handler.
    Between two [with proxy_lock:] blocks a worker stands at one of the
    program points below; a schedule lists which thread runs its next
    locked block. *)

Inductive PC :=
  | Starting     (* before create_driver, line 262 *)
  | AtCheck      (* about to run lines 271-279 *)
  | InCycle      (* past the check, before lines 332-335 *)
  | Halted.      (* returned (line 265) or left the loop (line 279) *)

Record Sys := mkSys {
  shared : Counters;
  active_threads : gmap string PC;
  reset_thread : bool;
}.

Definition init_sys : Sys := mkSys fresh_counters ∅ false.

Inductive Action :=
  | ActStart                            (* the start handler, lines 369-379 *)
  | ActDriver (proxy_id : string) (ok : bool)   (* lines 261-265 *)
  | ActCheck (proxy_id : string)        (* lines 271-279 *)
  | ActRecord (proxy_id : string)       (* lines 332-335 *)
  | ActAbandon (proxy_id : string)      (* a turn ended on line 307 or 344 *)
  | ActReset                            (* lines 202-204 *)
  | ActStatus.                          (* lines 208-212 *)

(** Lines 369-373: workers are spawned only when none is registered. *)
Definition spawn_all (threads : gmap string PC) : gmap string PC :=
  if decide (threads = ∅) then
    foldl (λ acc proxy_id, <[proxy_id:=Starting]> acc) threads PROXIES
  else threads.

Definition set_pc (proxy_id : string) (pc : PC) (s : Sys) : Sys :=
  mkSys (shared s) (<[proxy_id:=pc]> (active_threads s)) (reset_thread s).

Definition set_shared (c : Counters) (s : Sys) : Sys :=
  mkSys c (active_threads s) (reset_thread s).

(** [None] when the action is not enabled in [s]. *)
Definition step (a : Action) (s : Sys) : option Sys :=
  match a with
  | ActStart =>
      Some (mkSys (shared s) (spawn_all (active_threads s)) true)
  | ActDriver p ok =>
      match active_threads s !! p with
      | Some Starting => Some (set_pc p (if ok then AtCheck else Halted) s)
      | _ => None
      end
  | ActCheck p =>
      match active_threads s !! p with
      | Some AtCheck =>
          let '(v, _, c) := check_caps p (shared s) in
          Some (set_pc p (match v with
                          | Allowed => InCycle
                          | WindowExhausted => AtCheck
                          | LifetimeExhausted => Halted
                          end) (set_shared c s))
      | _ => None
      end
  | ActRecord p =>
      match active_threads s !! p with
      | Some InCycle => Some (set_pc p AtCheck (set_shared (record_view p (shared s)) s))
      | _ => None
      end
  | ActAbandon p =>
      match active_threads s !! p with
      | Some InCycle => Some (set_pc p AtCheck s)
      | _ => None
      end
  | ActReset =>
      if reset_thread s then Some (set_shared (reset_views (shared s)) s) else None
  | ActStatus =>
      Some (set_shared (get_proxy_stats (shared s)).2 s)
  end.

Fixpoint run (schedule : list Action) (s : Sys) : option Sys :=
  match schedule with
  | [] => Some s
  | a :: rest => match step a s with Some s' => run rest s' | None => None end
  end.

(** A schedule fragment: [n] complete turns of one worker. *)
Fixpoint turns (n : nat) (proxy_id : string) : list Action :=
  match n with
  | O => []
  | S n' => ActCheck proxy_id :: ActRecord proxy_id :: turns n' proxy_id
  end.

(** The invariant that keeps the window count under the cap. *)
Definition window_ok (s : Sys) : Prop :=
  ∀ k, window_count (shared s) k ≤ MAX_VIEWS_PER_HOUR ∧
       (active_threads s !! k = Some InCycle →
        window_count (shared s) k < MAX_VIEWS_PER_HOUR).

(** ** Derived views of the matcher, used to state its properties *)

(** The elements query number [n] contributes for selector [sel]: none
    when the query raises. *)
Definition answer (env : Env) (n : nat) (sel : string) : list Element :=
  match ui env n sel with Returns l => l | Throws _ => [] end.

(** The locals after the heuristics [hs], the first of them being query
    number [n]. *)
Fixpoint heuristics_result (env : Env) (n : nat) (hs : list (string * string))
    (st : Cands) : Cands :=
  match hs with
  | [] => st
  | h :: hs' => heuristics_result env (S n) hs' (scan (answer env n h.2) st)
  end.

(** The locals after the fallback, as query number [n]. *)
Definition fallback_result (env : Env) (n : nat) (st : Cands) : Cands :=
  match ui env n CLICKABLE_SELECTOR with
  | Returns clickable => (scan_small clickable st).2
  | Throws _ => st
  end.

(** The world after the element queries [sels], one driver call each. *)
Definition after_queries (env : Env) (sels : list string) (w : World) : World :=
  foldl (λ w sel, next_call env (emit (EvFind sel) w)) w sels.

(** The keys of the candidates found so far. *)
Definition keys (st : Cands) : list ElId := elid <$> st.1.

(** [tried] holds exactly the keys of [found], each once. *)
Definition cands_ok (st : Cands) : Prop :=
  NoDup (keys st) ∧ ∀ k, k ∈ st.2 ↔ k ∈ keys st.

(** ** Concrete screens used in examples *)

Definition close_btn : Element :=
  mkElement (Some "el-1"%string) 140001 (Returns (900, 40)) (Returns (40, 40)).
Definition skip_btn : Element :=
  mkElement (Some "el-2"%string) 140002 (Returns (20, 40)) (Returns (96, 48)).
Definition banner : Element :=
  mkElement (Some "el-3"%string) 140003 (Returns (0, 600)) (Returns (200, 200)).
Definition dot : Element :=
  mkElement None 140004 (Returns (500, 500)) (Returns (3, 3)).

Definition world0 : World := mkWorld fresh_counters 0 0 0 [].

(** Nothing on screen: every query answers with the empty list. *)
Definition empty_env : Env :=
  mkEnv (λ _ _, Returns []) (λ _, None) (λ _, 0) (λ _, 0).

(** A screen on which the description heuristic (query 0) matches the
    close button, the text heuristic (query 1) raises, the image-view
    heuristic (query 4) matches the skip and the close button, and the
    clickable query (query 7) answers with all four elements. *)
Definition demo_env : Env :=
  mkEnv (λ n _, match n with
                | 0%nat => Returns [close_btn]
                | 1%nat => Throws (WebDriverException "stale tree")
                | 4%nat => Returns [skip_btn; close_btn]
                | 7%nat => Returns [close_btn; banner; skip_btn; dot]
                | _ => Returns []
                end)
        (λ _, None) (λ _, 25) (λ n, Z.of_nat n).

(** The heuristic at position [i] of the configured list. *)
Definition heuristic (i : nat) : string * string :=
  nth i CROSS_BUTTON_HEURISTICS (EmptyString, EmptyString).

(** ** Specifications of monadic code *)

(** [post P Q m]: whatever [m] does, it leaves the counters alone, does
    not turn the clock or the call count back, emits only events that
    satisfy [P], and a value it returns satisfies [Q]. *)
Definition post {A} (P : Event → Prop) (Q : A → Prop) (m : M A) : Prop :=
  ∀ w r w', m w = (r, w') →
    counters w' = counters w ∧
    clock w ≤ clock w' ∧
    (calls w ≤ calls w')%nat ∧
    (∃ new, trace w' = new ++ trace w ∧ Forall P new) ∧
    (∀ a, r = Ok a → Q a).

(** [halts m]: [m] never runs out of fuel; [returns m]: it moreover
    raises nothing. *)
Definition halts {A} (m : M A) : Prop := ∀ w, (m w).1 ≠ OutOfFuel.
Definition returns {A} (m : M A) : Prop := ∀ w, ∃ a w', m w = (Ok a, w').

Definition any_value {A} : A → Prop := λ _, True.

(** Events that press the screen at a point. *)
Definition is_press (ev : Event) : Prop :=
  match ev with EvTap _ _ _ | EvTouchTap _ _ => True | _ => False end.
Definition no_press (ev : Event) : Prop := ¬ is_press ev.

(** Neither of the two primary-control queries. *)
Definition not_primary (ev : Event) : Prop :=
  ev ≠ EvFind INTERSTITIAL_SELECTOR ∧ ev ≠ EvFind REWARDED_SELECTOR.

(** The range lines 100-101 draw the offset from, along one axis. *)
Definition jitter_range (extent offset : Z) : Prop :=
  5 ≤ offset ≤ Z.max 6 (extent - 10).

(** What [human_tap] may emit for an element at [loc] of size [size]:
    presses at a jittered point, and sleeps. *)
Definition tap_event (loc size : Z * Z) (ev : Event) : Prop :=
  match ev with
  | EvTap x y _ | EvTouchTap x y =>
      jitter_range size.1 (x - loc.1) ∧ jitter_range size.2 (y - loc.2)
  | EvSleep _ => True
  | _ => False
  end.

(** The point lies within the bounding rectangle. *)
Definition in_bounds (loc size : Z * Z) (x y : Z) : Prop :=
  loc.1 ≤ x ≤ loc.1 + size.1 ∧ loc.2 ≤ y ≤ loc.2 + size.2.

(** [emits P m]: the events [m] adds to the trace all satisfy [P]. *)
Definition emits {A} (P : Event → Prop) (m : M A) : Prop :=
  ∀ w r w', m w = (r, w') → ∃ new, trace w' = new ++ trace w ∧ Forall P new.

(** Events other than element queries: presses, swipes, keys, sleeps. *)
Definition no_find (ev : Event) : Prop :=
  match ev with EvFind _ => False | _ => True end.

(** The events of a turn of the worker, oldest last: exactly one primary
    query, for selector [sel]. *)
Definition primary_once (sel : string) (new : list Event) : Prop :=
  ∃ rest pre, new = rest ++ EvFind sel :: pre ∧
              Forall not_primary rest ∧ Forall not_primary pre.

(** The candidates a call of the matcher returns when its first query
    is query number [n]. *)
Definition found_at (env : Env) (n : nat) : list Element :=
  (fallback_result env (n + length CROSS_BUTTON_HEURISTICS)
     (heuristics_result env n CROSS_BUTTON_HEURISTICS no_cands)).1.

(** The sleep lengths of the pacing after a view (line 337). *)
Definition is_between_ads_sleep (ev : Event) : Prop :=
  ∃ d, ev = EvSleep d ∧
       HUMAN_SLEEP_VARIANCE.between_ads.1 ≤ d ≤ HUMAN_SLEEP_VARIANCE.between_ads.2.

(** The length of the sleep drawn from the range [lo, hi] in world [w],
    and the world after it. *)
Definition sleep_length (env : Env) (lo hi : Z) (w : World) : Z :=
  lo + rnd env (draws w) `mod` (hi - lo + 1).
Definition slept (env : Env) (lo hi : Z) (w : World) : World :=
  let d := sleep_length env lo hi w in
  elapse d (emit (EvSleep d)
    (mkWorld (counters w) (clock w) (calls w) (S (draws w)) (trace w))).

(** The demo screen after one call of the matcher: eight queries made,
    and from then on nothing is on screen. *)
Definition after_first_look : World :=
  after_queries demo_env (CROSS_BUTTON_HEURISTICS.*2 ++ [CLICKABLE_SELECTOR]) world0.

(** ** Concrete schedules used in examples *)

(** A schedule on which the first worker records 99 views. *)
Definition ninety_nine_views : list Action :=
  ActStart :: ActDriver "proxy_1" true :: turns 99 "proxy_1".

(** Full hours of one worker: 100 views, then the reset tick. *)
Fixpoint full_hours (n : nat) (proxy_id : string) : list Action :=
  match n with
  | O => []
  | S n' => turns 100 proxy_id ++ ActReset :: full_hours n' proxy_id
  end.

(** The first worker views 100 ads in each of 50 hours. *)
Definition fifty_hours : list Action :=
  ActStart :: ActDriver "proxy_1" true ::
  full_hours 49 "proxy_1" ++ turns 100 "proxy_1".

Definition exhausted_both : Counters :=
  mkCounters {["proxy_1"%string := 100]} {["proxy_1"%string := 5000]}.

(** From the state after 50 full hours: the worker checks (window
    exhausted), the ticker resets, the worker checks again and halts. *)
Definition after_fifty_hours : Sys :=
  mkSys exhausted_both (<["proxy_1"%string := AtCheck]> (spawn_all ∅)) true.

Ltac list_eq :=
  repeat (rewrite <- app_assoc || rewrite <- app_comm_cons); reflexivity.

(** ** The rest of the worker thread (lines 171-191, 260-267, 346-349) *)

Definition DEVICE_NAME_PREFIX : string := "emulator-5554".
Definition APP_PACKAGE : string := "com.example.base".
Definition APP_ACTIVITY : string := "com.example.MainActivity".

Inductive CapValue :=
  | CapStr (s : string)
  | CapBool (b : bool).

(** Lines 171-180: the capabilities, in the order the dict literal lists
    them. *)
Definition get_desired_caps (proxy_id : string) : list (string * CapValue) :=
  [ ("platformName", CapStr "Android");
    ("deviceName", CapStr (DEVICE_NAME_PREFIX +:+ "_" +:+ proxy_id));
    ("appPackage", CapStr APP_PACKAGE);
    ("appActivity", CapStr APP_ACTIVITY);
    ("noReset", CapBool true);
    ("automationName", CapStr "UiAutomator2") ]%string.

(** The value stored under [key], as [caps[key]] reads it. *)
Fixpoint cap_lookup (key : string) (caps : list (string * CapValue)) : option CapValue :=
  match caps with
  | [] => None
  | (k, v) :: rest => if decide (k = key) then Some v else cap_lookup key rest
  end.

Section WorkerThread.
Variable env : Env.

(** Lines 182-191: [webdriver.Remote(...)] is one driver call; its
    exception is logged and raised again. *)
Definition create_driver (proxy_id : string) : M unit := λ w,
  match drv_raises env (calls w) with
  | Some e => (Raise e, next_call env w)
  | None => (Ok (), next_call env w)
  end.

(** The loop of line 269, for at most [turns] turns: it is left on
    [break] (line 279) only. *)
Fixpoint watch_loop (turns fuel : nat) (proxy_id : string) : M unit :=
  match turns with
  | O => λ w, (OutOfFuel, w)
  | S turns' =>
      out ← cycle env fuel proxy_id;
      match out with
      | SessionHalt => mret ()
      | _ => watch_loop turns' fuel proxy_id
      end
  end.

(** Lines 260-349. *)
Definition watch_ads (turns fuel : nat) (proxy_id : string) : M unit :=
  connected ← try_except (create_driver proxy_id;; mret true) (λ _, mret false);
  if connected : bool then
    watch_loop turns fuel proxy_id;;
    try_except (driver_call env EvQuit) (λ _, mret ())
  else mret ().

End WorkerThread.

(** ** The reset ticker (lines 195-205)

    [datetime.now()] is the local wall clock: the clock of the model
    shifted by the offset of the local time zone, in milliseconds. *)

Definition HOUR_MS : Z := 3600000.

(** Line 198: one hour later, with minute, second and microsecond set
    to zero. *)
Definition next_hour (now : Z) : Z :=
  (now + HOUR_MS) - (now + HOUR_MS) `mod` HOUR_MS.

(** Line 199. *)
Definition wait_time (now : Z) : Z := next_hour now - now.

(** Lines 202-204, the locked block of the ticker. *)
Definition locked_reset : M unit := λ w,
  (Ok (), set_counters (reset_views (counters w)) w).

(** One turn of the loop of line 196. *)
Definition reset_tick (utc_offset : Z) : M unit :=
  now ← (λ w, (Ok (clock w + utc_offset), w));
  time_sleep (wait_time now);;
  locked_reset.

(** ** Further derived views *)

(** How a turn for [proxy_id] may change counters [c] into [c']: a view
    is recorded exactly when the turn ends as [Viewed]. *)
Definition view_effect (proxy_id : string) (c : Counters) (r : Res Outcome)
    (c' : Counters) : Prop :=
  match r with
  | Ok (Viewed _) => c' = record_view proxy_id c
  | Ok _ => False
  | _ => c' = c
  end.

(** Both counts of every identity are within their caps. *)
Definition within_caps (c : Counters) : Prop :=
  ∀ k, window_count c k ≤ MAX_VIEWS_PER_HOUR ∧
       lifetime_count c k ≤ MAX_TOTAL_VIEWS_PER_PROXY.

(** The invariant of the threads: counts are within their caps and
    ordered, a worker between check and record is strictly below both
    caps, and only configured identities have entries or threads. *)
Definition sys_ok (s : Sys) : Prop :=
  (∀ k, 0 ≤ window_count (shared s) k ≤ lifetime_count (shared s) k ∧
        lifetime_count (shared s) k ≤ MAX_TOTAL_VIEWS_PER_PROXY ∧
        (active_threads s !! k = Some InCycle →
         lifetime_count (shared s) k < MAX_TOTAL_VIEWS_PER_PROXY)) ∧
  (∀ k, is_Some (proxy_view_count (shared s) !! k) ∨
        is_Some (proxy_total_count (shared s) !! k) ∨
        is_Some (active_threads s !! k) → k ∈ PROXIES).

(** Whether the size of an element reads as at most 120 by 120. *)
Definition small (el : Element) : Prop :=
  ∃ width height, el_size el = Returns (width, height) ∧ width ≤ 120 ∧ height ≤ 120.

(** Whether the size of an element can be read. *)
Definition size_readable (el : Element) : Prop :=
  ∃ size, el_size el = Returns size.

(** Whether a turn ran to its end (fell through line 338). *)
Definition is_viewed (r : Res Outcome) : bool :=
  match r with Ok (Viewed _) => true | _ => false end.

(** The increment a turn of [proxy_id] with result [r] adds to the counts
    of identity [k]. *)
Definition counted (proxy_id : string) (r : Res Outcome) (k : string) : Z :=
  if is_viewed r && bool_decide (proxy_id = k) then 1 else 0.

(** A clickable element whose size can no longer be read, and a screen
    on which the clickable query answers with it between two buttons. *)
Definition stale : Element :=
  mkElement (Some "el-9"%string) 140009 (Returns (0, 0))
            (Throws (WebDriverException "stale element")).
Definition stale_env : Env :=
  mkEnv (λ _ _, Returns [close_btn; stale; skip_btn])
        (λ n, match n with
              | 0%nat => Some (WebDriverException "tap failed")
              | _ => None
              end)
        (λ _, 0) (λ _, 0).

(** The presses of [human_tap] at point [(x, y)] for a press time [d]:
    [driver.tap] when driver call [n] works, else the [TouchAction]
    fallback when driver call [n + 1] works, else none. *)
Definition presses (env : Env) (n : nat) (x y d : Z) : list Event :=
  match drv_raises env n with
  | None => [EvTap x y d]
  | Some _ =>
      match drv_raises env (S n) with
      | None => [EvTouchTap x y]
      | Some _ => []
      end
  end.

(** What [advanced_human_swipe] may emit: one swipe of six points that
    starts in the rectangle of line 118 and lasts 800 to 1800 ms. *)
Definition swipe_event (ev : Event) : Prop :=
  match ev with
  | EvSwipe ((x1, y1) :: path) duration =>
      100 ≤ x1 ≤ 300 ∧ 300 ≤ y1 ≤ 800 ∧ length path = 5%nat ∧ 800 ≤ duration ≤ 1800
  | _ => False
  end.

(** What [simulate_device_event] may emit. *)
Definition device_event (ev : Event) : Prop :=
  match ev with
  | EvKeycode code => code = 3
  | EvLaunchApp => True
  | EvRotate o => o = "landscape"%string ∨ o = "portrait"%string
  | EvSleep ms => 500 ≤ ms ≤ 4000
  | _ => False
  end.

(** A screen on which every query answers with the close button, and a
    driver that never fails. *)
Definition view_env : Env :=
  mkEnv (λ _ _, Returns [close_btn]) (λ _, None) (λ _, 40) (λ n, 50 + Z.of_nat n).

(** ** The turns of the dismissal search *)

(** The queries one call of the matcher makes, in order. *)
Definition MATCHER_QUERIES : list string :=
  CROSS_BUTTON_HEURISTICS.*2 ++ [CLICKABLE_SELECTOR].

(** The world after a turn of the search that found nothing: the
    queries of the matcher, then the sleep of line 327. *)
Definition after_empty_poll (env : Env) (w : World) : World :=
  slept env 1000 2000 (after_queries env MATCHER_QUERIES w).

Fixpoint after_empty_polls (env : Env) (k : nat) (w : World) : World :=
  match k with
  | O => w
  | S k' => after_empty_polls env k' (after_empty_poll env w)
  end.

(** In the search started in [w], the matcher finds nothing in turns
    [0 .. k-1] and returns [c0 :: rest] in turn [k], which starts before
    the deadline. *)
Definition first_candidate_at (env : Env) (w : World) (k : nat)
    (c0 : Element) (rest : list Element) : Prop :=
  (∀ i, (i < k)%nat → found_at env (calls (after_empty_polls env i w)) = []) ∧
  found_at env (calls (after_empty_polls env k w)) = c0 :: rest ∧
  clock (after_empty_polls env k w) < clock w + DISMISS_TIMEOUT.

(** A screen that shows nothing during the first two looks of the
    matcher (queries 0 to 15) and the close button from then on. *)
Definition late_env : Env :=
  mkEnv (λ n _, if decide (n < 16)%nat then Returns [] else Returns [close_btn])
        (λ _, None) (λ _, 25) (λ _, 0).

(** A screen on which every query answers with an element whose size
    can no longer be read. *)
Definition stale_only_env : Env :=
  mkEnv (λ _ _, Returns [stale]) (λ _, None) (λ _, 0) (λ _, 0).

(** * Facts *)

(** ** [defaultdict] reads and updates *)

Lemma getitem_fst k d : (getitem k d).1 = peek d k.
Proof. unfold getitem, peek. by destruct (d !! k). Qed.

Lemma peek_getitem k d j : peek (getitem k d).2 j = peek d j.
Proof.
  unfold getitem, peek. destruct (d !! k) eqn:E; simpl; [done|].
  destruct (decide (k = j)) as [->|Hne].
  - by rewrite lookup_insert_eq, E.
  - by rewrite lookup_insert_ne.
Qed.

Lemma getitem_present k d : is_Some (d !! k) → (getitem k d).2 = d.
Proof. intros [v Hv]. unfold getitem. by rewrite Hv. Qed.

Lemma getitem_absent k d : d !! k = None → (getitem k d).2 = <[k:=0]> d.
Proof. intros Hv. unfold getitem. by rewrite Hv. Qed.

Lemma getitem_pair k d : getitem k d = (peek d k, (getitem k d).2).
Proof. rewrite <- getitem_fst. by destruct (getitem k d). Qed.

Lemma peek_iadd_eq k n d : peek (iadd k n d) k = peek d k + n.
Proof.
  unfold iadd, getitem, setitem, peek.
  destruct (d !! k) eqn:E; simpl; by rewrite lookup_insert_eq.
Qed.

Lemma peek_iadd_ne k j n d : k ≠ j → peek (iadd k n d) j = peek d j.
Proof.
  intros Hne. unfold iadd, getitem, setitem, peek.
  destruct (d !! k) eqn:E; simpl; by rewrite !lookup_insert_ne.
Qed.

(** ** The cap check *)

Lemma check_caps_verdict p c :
  verdict_of p c = verdict_for (window_count c p) (lifetime_count c p).
Proof.
  unfold verdict_of, check_caps, verdict_for, window_count, lifetime_count.
  rewrite (getitem_pair p (proxy_view_count c)).
  rewrite (getitem_pair p (getitem p (proxy_view_count c)).2).
  rewrite peek_getitem.
  rewrite (getitem_pair p (proxy_total_count c)).
  repeat case_decide; done.
Qed.

Lemma check_caps_count p c : (check_caps p c).1.2 = window_count c p + 1.
Proof.
  unfold check_caps, window_count.
  rewrite (getitem_pair p (proxy_view_count c)).
  rewrite (getitem_pair p (getitem p (proxy_view_count c)).2).
  rewrite (getitem_pair p (proxy_total_count c)).
  repeat case_decide; done.
Qed.

Lemma check_caps_window p c k :
  window_count (check_caps p c).2 k = window_count c k.
Proof.
  unfold check_caps, window_count.
  rewrite (getitem_pair p (proxy_view_count c)).
  rewrite (getitem_pair p (getitem p (proxy_view_count c)).2).
  rewrite (getitem_pair p (proxy_total_count c)).
  repeat case_decide; simpl; by rewrite !peek_getitem.
Qed.

Lemma check_caps_lifetime p c k :
  lifetime_count (check_caps p c).2 k = lifetime_count c k.
Proof.
  unfold check_caps, lifetime_count.
  rewrite (getitem_pair p (proxy_view_count c)).
  rewrite (getitem_pair p (getitem p (proxy_view_count c)).2).
  rewrite (getitem_pair p (proxy_total_count c)).
  repeat case_decide; simpl; by rewrite ?peek_getitem.
Qed.

Lemma record_view_window p c k :
  window_count (record_view p c) k =
  window_count c k + (if decide (p = k) then 1 else 0).
Proof.
  unfold record_view, window_count; simpl. case_decide as Hk.
  - subst. apply peek_iadd_eq.
  - rewrite peek_iadd_ne by done. lia.
Qed.

Lemma record_view_lifetime p c k :
  lifetime_count (record_view p c) k =
  lifetime_count c k + (if decide (p = k) then 1 else 0).
Proof.
  unfold record_view, lifetime_count; simpl. case_decide as Hk.
  - subst. apply peek_iadd_eq.
  - rewrite peek_iadd_ne by done. lia.
Qed.

(** ** The hourly reset *)

Lemma reset_keys_lookup ks d k :
  reset_keys ks d !! k = if decide (k ∈ ks) then Some 0 else d !! k.
Proof.
  revert d. induction ks as [|a ks IH]; intros d.
  - done.
  - change (reset_keys (a :: ks) d) with (reset_keys ks (setitem a 0 d)).
    rewrite IH. unfold setitem.
    destruct (decide (k ∈ ks)) as [Hin|Hnin].
    + rewrite decide_True; [done | by right].
    + destruct (decide (a = k)) as [->|Hne].
      * rewrite lookup_insert_eq, decide_True; [done | by left].
      * rewrite lookup_insert_ne by done.
        rewrite decide_False; [done|].
        intros [?|?]%elem_of_cons; congruence.
Qed.

Lemma reset_keys_own (d : gmap string Z) :
  reset_keys (map_to_list d).*1 d = (λ _, 0) <$> d.
Proof.
  apply map_eq; intros k. rewrite reset_keys_lookup, lookup_fmap.
  destruct (d !! k) as [v|] eqn:E; simpl.
  - rewrite decide_True; [done|].
    apply list_elem_of_fmap. exists (k, v). split; [done|].
    by apply elem_of_map_to_list.
  - rewrite decide_False; [done|].
    intros ([k' v] & -> & Hin)%list_elem_of_fmap.
    apply elem_of_map_to_list in Hin. simpl in E. congruence.
Qed.

(** ** The status read *)

Lemma defaults_lookup ks k :
  defaults ks !! k = if decide (k ∈ ks) then Some 0 else None.
Proof.
  unfold defaults. rewrite lookup_gset_to_gmap.
  case_decide as H.
  - rewrite option_guard_True; [done | by apply elem_of_list_to_set].
  - rewrite option_guard_False; [done | by rewrite elem_of_list_to_set].
Qed.

Lemma lookup_union_defaults (d : gmap string Z) ks k :
  (d ∪ defaults ks) !! k =
  match d !! k with
  | Some v => Some v
  | None => if decide (k ∈ ks) then Some 0 else None
  end.
Proof.
  rewrite lookup_union, defaults_lookup.
  destruct (d !! k); destruct (decide (k ∈ ks)); reflexivity.
Qed.

Lemma getitem_union k (d : gmap string Z) : (getitem k d).2 = d ∪ defaults [k].
Proof.
  apply map_eq; intros j. rewrite lookup_union_defaults.
  unfold getitem. destruct (d !! k) eqn:E; simpl.
  - destruct (d !! j) eqn:Ej; [done|].
    rewrite decide_False; [done|]. intros ->%list_elem_of_singleton. congruence.
  - destruct (decide (k = j)) as [->|Hne].
    + rewrite lookup_insert_eq, E, decide_True; [done | by left].
    + rewrite lookup_insert_ne by done.
      rewrite decide_False by (intros ?%list_elem_of_singleton; congruence).
      by destruct (d !! j).
Qed.

Lemma union_defaults_cons (d : gmap string Z) k ks :
  (d ∪ defaults [k]) ∪ defaults ks = d ∪ defaults (k :: ks).
Proof.
  apply map_eq; intros j. rewrite !lookup_union_defaults.
  destruct (d !! j); [done|].
  destruct (decide (j ∈ [k])) as [->%list_elem_of_singleton|H1].
  - rewrite decide_True; [done | by left].
  - destruct (decide (j ∈ ks)) as [H2|H2].
    + rewrite decide_True; [done | by right].
    + rewrite decide_False; [done|].
      intros [->|?]%elem_of_cons; [apply H1; by left | done].
Qed.

Lemma union_defaults_nil (d : gmap string Z) : d ∪ defaults [] = d.
Proof.
  apply map_eq; intros j. rewrite lookup_union_defaults.
  destruct (d !! j); [done|]. by rewrite decide_False by apply not_elem_of_nil.
Qed.

Lemma peek_union_defaults (d : gmap string Z) ks k :
  peek (d ∪ defaults ks) k = peek d k.
Proof.
  unfold peek. rewrite lookup_union_defaults.
  destruct (d !! k); [done|]. by case_decide.
Qed.

Lemma stat_lines_spec ks c :
  stat_lines ks c =
  ((λ k, stat_line k (window_count c k) (lifetime_count c k)) <$> ks,
   mkCounters (proxy_view_count c ∪ defaults ks) (proxy_total_count c ∪ defaults ks)).
Proof.
  revert c. induction ks as [|k ks IH]; intros [view total].
  - cbn [stat_lines proxy_view_count proxy_total_count]. by rewrite !union_defaults_nil.
  - cbn [stat_lines proxy_view_count proxy_total_count].
    rewrite (getitem_pair k view), (getitem_pair k total), IH.
    cbn [proxy_view_count proxy_total_count].
    rewrite !getitem_union, !union_defaults_cons.
    unfold window_count, lifetime_count. cbn [proxy_view_count proxy_total_count].
    f_equal. rewrite fmap_cons. f_equal. apply list_fmap_ext. intros i j Hj.
    by rewrite !peek_union_defaults.
Qed.

Lemma union_defaults_id (d : gmap string Z) ks :
  d ∪ defaults ks = d ↔ ∀ k, k ∈ ks → is_Some (d !! k).
Proof.
  split.
  - intros Heq k Hk. rewrite <- Heq, lookup_union_defaults, decide_True by done.
    destruct (d !! k); eauto.
  - intros Hall. apply map_eq; intros k.
    rewrite lookup_union_defaults.
    destruct (d !! k) eqn:E; [done|].
    case_decide as Hk; [|done]. apply Hall in Hk. rewrite E in Hk. by destruct Hk.
Qed.

(** ** Claims on the counters *)

(** C3: the hourly reset stores 0 under every key of the window mapping,
    so every identity's window count reads 0 afterwards and the set of
    known identities is the same; the lifetime mapping is the very same
    mapping as before. *)
Theorem C3_reset_window_only (c : Counters) :
  proxy_view_count (reset_views c) = (λ _, 0) <$> proxy_view_count c ∧
  dom (proxy_view_count (reset_views c)) = dom (proxy_view_count c) ∧
  (∀ k, window_count (reset_views c) k = 0) ∧
  proxy_total_count (reset_views c) = proxy_total_count c ∧
  (∀ k, lifetime_count (reset_views c) k = lifetime_count c k).
Proof.
  assert (Hv : proxy_view_count (reset_views c) = (λ _, 0) <$> proxy_view_count c)
    by apply reset_keys_own.
  repeat split; try done.
  - rewrite Hv. apply dom_fmap_L.
  - intros k. unfold window_count, peek. rewrite Hv, lookup_fmap.
    by destruct (proxy_view_count c !! k).
Qed.

(** C10, counterexample: on the counters of a fresh process the status
    read leaves a mapping that differs from the one before it: the key
    of the first identity is absent before and present after. *)
Lemma C10_status_inserts_keys :
  proxy_view_count fresh_counters !! "proxy_1"%string = None ∧
  proxy_view_count (get_proxy_stats fresh_counters).2 !! "proxy_1"%string = Some 0 ∧
  proxy_total_count (get_proxy_stats fresh_counters).2 !! "proxy_5"%string = Some 0.
Proof. vm_compute. done. Qed.

(** C10, amended: the status read renders, for each configured identity,
    the two counts that a read observes; afterwards every identity's
    counts read as before, each mapping is the former mapping extended
    with an entry 0 for the configured identities it lacked, and the
    counters are the very same as before exactly when every configured
    identity had an entry in both mappings. *)
Theorem C10_status_read_keeps_counts (c : Counters) :
  (get_proxy_stats c).1 =
    join_lines ((λ k, stat_line k (window_count c k) (lifetime_count c k)) <$> PROXIES) ∧
  (∀ k, window_count (get_proxy_stats c).2 k = window_count c k ∧
        lifetime_count (get_proxy_stats c).2 k = lifetime_count c k) ∧
  proxy_view_count (get_proxy_stats c).2 = proxy_view_count c ∪ defaults PROXIES ∧
  proxy_total_count (get_proxy_stats c).2 = proxy_total_count c ∪ defaults PROXIES ∧
  ((get_proxy_stats c).2 = c ↔
   ∀ k, k ∈ PROXIES →
        is_Some (proxy_view_count c !! k) ∧ is_Some (proxy_total_count c !! k)).
Proof.
  unfold get_proxy_stats. rewrite stat_lines_spec. cbn [fst snd].
  split; [done|]. split.
  { intros k. unfold window_count, lifetime_count. cbn [proxy_view_count proxy_total_count].
    by rewrite !peek_union_defaults. }
  split; [done|]. split; [done|].
  destruct c as [view total]. cbn [proxy_view_count proxy_total_count]. split.
  - intros Heq. injection Heq as Hv Ht.
    intros k Hk. split; by eapply union_defaults_id.
  - intros Hall. f_equal; apply union_defaults_id; intros k Hk; by apply Hall.
Qed.

(** ** The threads and the shared counters *)

Lemma check_caps_triple p c :
  check_caps p c = (verdict_of p c, window_count c p + 1, (check_caps p c).2).
Proof.
  rewrite <- check_caps_count. unfold verdict_of.
  by destruct (check_caps p c) as [[v n] c'].
Qed.

Lemma set_pc_lookup p pc s k :
  active_threads (set_pc p pc s) !! k =
  if decide (p = k) then Some pc else active_threads s !! k.
Proof. unfold set_pc; simpl. apply lookup_insert. Qed.

Lemma spawn_all_lookup (threads : gmap string PC) k pc :
  spawn_all threads !! k = Some pc → pc ≠ Starting → threads !! k = Some pc.
Proof.
  unfold spawn_all. case_decide as Hem; [|done]. subst threads.
  unfold PROXIES; cbn [foldl].
  repeat (rewrite lookup_insert; case_decide; [congruence|]).
  by rewrite lookup_empty.
Qed.

Lemma reset_views_window c k : window_count (reset_views c) k = 0.
Proof.
  unfold window_count, peek, reset_views; simpl.
  rewrite reset_keys_own, lookup_fmap. by destruct (proxy_view_count c !! k).
Qed.

Lemma reset_views_lifetime c k : lifetime_count (reset_views c) k = lifetime_count c k.
Proof. done. Qed.

Lemma stats_window c k : window_count (get_proxy_stats c).2 k = window_count c k.
Proof.
  unfold get_proxy_stats. rewrite stat_lines_spec. unfold window_count; simpl.
  apply peek_union_defaults.
Qed.

Lemma stats_lifetime c k : lifetime_count (get_proxy_stats c).2 k = lifetime_count c k.
Proof.
  unfold get_proxy_stats. rewrite stat_lines_spec. unfold lifetime_count; simpl.
  apply peek_union_defaults.
Qed.

Lemma verdict_for_allowed w t :
  verdict_for w t = Allowed ↔ w < MAX_VIEWS_PER_HOUR ∧ t < MAX_TOTAL_VIEWS_PER_PROXY.
Proof. unfold verdict_for. repeat case_decide; split; (done || lia). Qed.

(** Every locked block leaves the lifetime counts where they were or
    higher. *)
Lemma step_lifetime_mono a s s' k :
  step a s = Some s' →
  lifetime_count (shared s) k ≤ lifetime_count (shared s') k.
Proof.
  destruct a as [|p ok|p|p|p| |]; cbn [step]; intros Hs.
  - injection Hs as <-. done.
  - destruct (active_threads s !! p) as [[]|]; try done. injection Hs as <-. done.
  - destruct (active_threads s !! p) as [[]|]; try done.
    rewrite check_caps_triple in Hs. injection Hs as <-. cbn [shared set_pc set_shared].
    by rewrite check_caps_lifetime.
  - destruct (active_threads s !! p) as [[]|]; try done. injection Hs as <-.
    cbn [shared set_pc set_shared]. rewrite record_view_lifetime. case_decide; lia.
  - destruct (active_threads s !! p) as [[]|]; try done. injection Hs as <-. done.
  - destruct (reset_thread s); [|done]. injection Hs as <-. done.
  - injection Hs as <-. cbn [shared set_shared]. by rewrite stats_lifetime.
Qed.

Lemma run_lifetime_mono schedule s s' k :
  run schedule s = Some s' →
  lifetime_count (shared s) k ≤ lifetime_count (shared s') k.
Proof.
  revert s. induction schedule as [|a rest IH]; intros s; cbn [run].
  - intros [= <-]. done.
  - destruct (step a s) as [s1|] eqn:E; [|done]. intros Hr.
    pose proof (step_lifetime_mono _ _ _ k E). specialize (IH _ Hr). lia.
Qed.

(** A worker that has returned stays returned. *)
Lemma step_halted a s s' k :
  step a s = Some s' →
  active_threads s !! k = Some Halted → active_threads s' !! k = Some Halted.
Proof.
  destruct a as [|p ok|p|p|p| |]; cbn [step]; intros Hs Hk;
    try (destruct (active_threads s !! p) as [[]|] eqn:Ep; try done);
    try rewrite check_caps_triple in Hs;
    try (destruct (reset_thread s); [|done]);
    injection Hs as <-; try done;
    try (rewrite set_pc_lookup; case_decide; [congruence | done]).
  cbn [active_threads]. unfold spawn_all. rewrite decide_False; [done|].
  intros Hem. rewrite Hem, lookup_empty in Hk. done.
Qed.

Lemma run_halted schedule s s' k :
  run schedule s = Some s' →
  active_threads s !! k = Some Halted → active_threads s' !! k = Some Halted.
Proof.
  revert s. induction schedule as [|a rest IH]; intros s; cbn [run].
  - intros [= <-]. done.
  - destruct (step a s) as [s1|] eqn:E; [|done]. intros Hr Hk.
    eapply IH; [done|]. by eapply step_halted.
Qed.

(** The invariant behind the window cap: no count is above the cap, and
    the count of a worker that passed the check and has not recorded its
    view yet is strictly below it. *)
Lemma step_window_ok a s s' : step a s = Some s' → window_ok s → window_ok s'.
Proof.
  unfold window_ok.
  destruct a as [|p ok|p|p|p| |]; cbn [step]; intros Hs Hinv k;
    destruct (Hinv k) as [Hle Hlt].
  - injection Hs as <-. cbn [shared active_threads]. split; [done|].
    intros Hk. apply spawn_all_lookup in Hk; [auto | done].
  - destruct (active_threads s !! p) as [[]|] eqn:Ep; try done. injection Hs as <-.
    split; [done|]. rewrite set_pc_lookup. case_decide; [by destruct ok | done].
  - destruct (active_threads s !! p) as [[]|] eqn:Ep; try done.
    rewrite check_caps_triple in Hs. injection Hs as <-.
    rewrite set_pc_lookup. cbn [shared set_pc set_shared].
    rewrite check_caps_window. split; [done|].
    case_decide as Hpk; [|done]. subst k.
    destruct (verdict_of p (shared s)) eqn:Ev; try done. intros _.
    rewrite check_caps_verdict in Ev. by apply verdict_for_allowed in Ev as [? _].
  - destruct (active_threads s !! p) as [[]|] eqn:Ep; try done. injection Hs as <-.
    rewrite set_pc_lookup. cbn [shared set_pc set_shared].
    rewrite record_view_window. case_decide as Hpk.
    + subst k. split; [|done]. specialize (Hlt Ep). lia.
    + split; [lia|]. intros Hk. specialize (Hlt Hk). lia.
  - destruct (active_threads s !! p) as [[]|] eqn:Ep; try done. injection Hs as <-.
    rewrite set_pc_lookup. cbn [shared set_pc]. split; [done|].
    case_decide; [done | done].
  - destruct (reset_thread s); [|done]. injection Hs as <-.
    cbn [shared set_shared active_threads]. rewrite reset_views_window.
    unfold MAX_VIEWS_PER_HOUR. split; [lia|]. intros _. lia.
  - injection Hs as <-. cbn [shared set_shared active_threads].
    by rewrite stats_window.
Qed.

Lemma init_window_ok : window_ok init_sys.
Proof. intros k. unfold MAX_VIEWS_PER_HOUR. split; [done|]. intros _. done. Qed.

Lemma run_window_ok schedule s s' : run schedule s = Some s' → window_ok s → window_ok s'.
Proof.
  revert s. induction schedule as [|a rest IH]; intros s; cbn [run].
  - intros [= <-]. done.
  - destruct (step a s) as [s1|] eqn:E; [|done]. intros Hr Hinv.
    eapply IH; [done|]. by eapply step_window_ok.
Qed.

(** C2: in every state the threads can reach from a fresh process, each
    identity's window count is at most the cap of 100, in particular
    whenever a worker evaluates the cap check; and on any counters with
    window count 99 and lifetime count under its cap, the check allows
    the view, recording the view makes the window count 100, and the next
    check answers that the window is exhausted. *)
Theorem C2_window_cap_respected
    (schedule : list Action) (s : Sys) (k : string) (c : Counters)
    (Hrun : run schedule init_sys = Some s)
    (Hwin : window_count c k = 99)
    (Hlife : lifetime_count c k < MAX_TOTAL_VIEWS_PER_PROXY) :
  window_count (shared s) k ≤ MAX_VIEWS_PER_HOUR ∧
  verdict_of k c = Allowed ∧
  window_count (record_view k (check_caps k c).2) k = 100 ∧
  verdict_of k (record_view k (check_caps k c).2) = WindowExhausted.
Proof.
  split.
  { apply (run_window_ok _ _ _ Hrun init_window_ok k). }
  assert (Hw' : window_count (record_view k (check_caps k c).2) k = 100).
  { rewrite record_view_window, check_caps_window, decide_True by done. lia. }
  split; [|split; [done|]].
  - rewrite check_caps_verdict. apply verdict_for_allowed.
    unfold MAX_VIEWS_PER_HOUR. lia.
  - rewrite check_caps_verdict, Hw'. done.
Qed.

Lemma C2_window_cap_respected_witness :
  ∃ s, run ninety_nine_views init_sys = Some s ∧
       window_count (shared s) "proxy_1" = 99 ∧
       lifetime_count (shared s) "proxy_1" = 99 ∧
       window_count (shared s) "proxy_1" ≤ MAX_VIEWS_PER_HOUR ∧
       verdict_of "proxy_1" (shared s) = Allowed ∧
       window_count (record_view "proxy_1" (check_caps "proxy_1" (shared s)).2) "proxy_1" = 100 ∧
       verdict_of "proxy_1" (record_view "proxy_1" (check_caps "proxy_1" (shared s)).2)
         = WindowExhausted.
Proof.
  destruct (run ninety_nine_views init_sys) as [s|] eqn:E; [|vm_compute in E; discriminate].
  exists s.
  assert (Hw : window_count (shared s) "proxy_1" = 99).
  { revert E. vm_compute. intros [= <-]. reflexivity. }
  assert (Hl : lifetime_count (shared s) "proxy_1" = 99).
  { revert E. vm_compute. intros [= <-]. reflexivity. }
  split; [reflexivity|]. split; [exact Hw|]. split; [exact Hl|].
  apply (C2_window_cap_respected ninety_nine_views s "proxy_1" (shared s) E Hw).
  rewrite Hl. reflexivity.
Defined.




(** ** The matcher *)

Lemma run_heuristic_eq env h st w :
  run_heuristic env h st w =
  (Ok (scan (answer env (calls w) h.2) st), next_call env (emit (EvFind h.2) w)).
Proof.
  unfold run_heuristic, find_elements, answer. unfold_M.
  by destruct (ui env (calls w) h.2).
Qed.

Lemma after_queries_calls env sels w :
  calls (after_queries env sels w) = (calls w + length sels)%nat.
Proof.
  revert w. induction sels as [|sel sels IH]; intros w; cbn [after_queries foldl length].
  - lia.
  - unfold after_queries in IH. rewrite IH. simpl. lia.
Qed.

Lemma after_queries_trace env sels w :
  trace (after_queries env sels w) = rev (EvFind <$> sels) ++ trace w.
Proof.
  revert w. induction sels as [|sel sels IH]; intros w; cbn [after_queries foldl].
  - done.
  - unfold after_queries in IH. rewrite IH. simpl. by rewrite <- app_assoc.
Qed.

Lemma after_queries_app env a b w :
  after_queries env (a ++ b) w = after_queries env b (after_queries env a w).
Proof. unfold after_queries. apply foldl_app. Qed.

Lemma run_heuristics_eq env hs st w :
  run_heuristics env hs st w =
  (Ok (heuristics_result env (calls w) hs st), after_queries env hs.*2 w).
Proof.
  revert st w. induction hs as [|h hs IH]; intros st w.
  - done.
  - cbn [run_heuristics]. unfold mbind, M_bind. rewrite run_heuristic_eq, IH.
    done.
Qed.

Lemma fallback_eq env st w :
  small_clickable_fallback env st w =
  (Ok (fallback_result env (calls w) st),
   after_queries env [CLICKABLE_SELECTOR] w).
Proof.
  unfold small_clickable_fallback, find_elements, fallback_result. unfold_M.
  by destruct (ui env (calls w) CLICKABLE_SELECTOR).
Qed.

Lemma find_candidates_eq env hs w :
  find_candidates env hs w =
  (Ok (fallback_result env (calls w + length hs)
         (heuristics_result env (calls w) hs no_cands)).1,
   after_queries env (hs.*2 ++ [CLICKABLE_SELECTOR]) w).
Proof.
  unfold find_candidates. unfold mbind, M_bind, mret, M_ret.
  rewrite run_heuristics_eq, fallback_eq, after_queries_calls, after_queries_app.
  by rewrite length_fmap.
Qed.

Lemma answer_quiet env n sel : answer (quiet env) n sel = answer env n sel.
Proof. unfold answer, quiet; simpl. by destruct (ui env n sel). Qed.

Lemma heuristics_result_quiet env n hs st :
  heuristics_result (quiet env) n hs st = heuristics_result env n hs st.
Proof.
  revert n st. induction hs as [|h hs IH]; intros n st; cbn [heuristics_result].
  - done.
  - by rewrite answer_quiet, IH.
Qed.

Lemma fallback_result_quiet env n st :
  fallback_result (quiet env) n st = fallback_result env n st.
Proof. unfold fallback_result, quiet; simpl. by destruct (ui env n CLICKABLE_SELECTOR). Qed.

(** C6: whatever the element queries answer, the matcher returns a list
    and raises nothing; it issues the query of every heuristic of the
    list, in order, and then the fallback query, also after queries that
    raised; and its result is the one it returns when each raising query
    answers with no element instead. *)
Theorem C6_query_failures_contained (env : Env) (hs : list (string * string)) (w : World) :
  ∃ found w',
    find_candidates env hs w = (Ok found, w') ∧
    trace w' = EvFind CLICKABLE_SELECTOR :: rev (EvFind <$> hs.*2) ++ trace w ∧
    calls w' = (calls w + length hs + 1)%nat ∧
    find_candidates (quiet env) hs w = (Ok found, w').
Proof.
  eexists _, _. split; [apply find_candidates_eq|]. split; [|split].
  - rewrite after_queries_trace, fmap_app, rev_app_distr. done.
  - rewrite after_queries_calls, length_app, length_fmap. simpl. lia.
  - rewrite find_candidates_eq, heuristics_result_quiet, fallback_result_quiet. done.
Qed.

(** ** Deduplication and order of the candidates *)

Lemma no_cands_ok : cands_ok no_cands.
Proof. split; [constructor|]. intros k. unfold keys; simpl. set_solver. Qed.

Lemma add_candidate_ok st el : cands_ok st → cands_ok (add_candidate st el).
Proof.
  intros [Hnd Hkeys]. unfold add_candidate. case_decide as Hin; [done|].
  unfold cands_ok, keys in *; simpl. rewrite fmap_app; simpl. split.
  - apply NoDup_app. split; [done|]. split; [|apply NoDup_singleton].
    intros k Hk ->%list_elem_of_singleton. apply Hin. by apply Hkeys.
  - intros k. rewrite elem_of_union, elem_of_singleton, elem_of_app,
      list_elem_of_singleton, Hkeys. tauto.
Qed.

Lemma add_candidate_grows st el :
  ∃ new, (add_candidate st el).1 = st.1 ++ new ∧
         ∀ e, e ∈ new → e = el ∧ elid el ∉ st.2.
Proof.
  unfold add_candidate. case_decide as Hin.
  - exists []. rewrite app_nil_r. split; [done|]. intros e He. by apply elem_of_nil in He.
  - exists [el]. split; [done|]. by intros e ->%list_elem_of_singleton.
Qed.

Lemma add_candidate_covers st el : cands_ok st → elid el ∈ keys (add_candidate st el).
Proof.
  intros [_ Hkeys]. unfold add_candidate. case_decide as Hin.
  - by apply Hkeys.
  - unfold keys; simpl. rewrite fmap_app. apply elem_of_app. right. by left.
Qed.

Lemma scan_ok els st : cands_ok st → cands_ok (scan els st).
Proof.
  revert st. induction els as [|el els IH]; intros st Hok; [done|].
  apply IH. by apply add_candidate_ok.
Qed.

(** A scan only appends, and what it appends comes from the scanned
    list and was not seen before. *)
Lemma scan_grows els st :
  cands_ok st →
  ∃ new, (scan els st).1 = st.1 ++ new ∧
         ∀ e, e ∈ new → e ∈ els ∧ elid e ∉ keys st.
Proof.
  revert st. induction els as [|el els IH]; intros st Hok.
  - exists []. rewrite app_nil_r. split; [done|]. intros e He. by apply elem_of_nil in He.
  - destruct (add_candidate_grows st el) as (n1 & E1 & H1).
    destruct (IH _ (add_candidate_ok _ el Hok)) as (n2 & E2 & H2).
    exists (n1 ++ n2). cbn [scan foldl]. unfold scan in E2. rewrite E2, E1, app_assoc.
    split; [done|]. intros e [He|He]%elem_of_app.
    + destruct (H1 _ He) as [-> Hn]. split; [by left|]. intros Hk. apply Hn. by apply Hok.
    + destruct (H2 _ He) as [Hin Hn]. split; [by right|]. intros Hk. apply Hn.
      unfold keys. rewrite E1, fmap_app. apply elem_of_app. by left.
Qed.

Lemma scan_covers els st e :
  cands_ok st → e ∈ els → elid e ∈ keys (scan els st).
Proof.
  revert st. induction els as [|el els IH]; intros st Hok Hin.
  - by apply elem_of_nil in Hin.
  - cbn [scan foldl]. apply elem_of_cons in Hin as [->|Hin].
    + destruct (scan_grows els (add_candidate st el) (add_candidate_ok _ _ Hok))
        as (new & E & _).
      unfold keys, scan in *. rewrite E, fmap_app. apply elem_of_app. left.
      by apply add_candidate_covers.
    + apply IH; [by apply add_candidate_ok | done].
Qed.

Lemma scan_small_ok els st : cands_ok st → cands_ok (scan_small els st).2.
Proof.
  revert st. induction els as [|el els IH]; intros st Hok; cbn [scan_small]; [done|].
  destruct (el_size el) as [[width height]|e]; [|done].
  apply IH. case_decide; [by apply add_candidate_ok | done].
Qed.

Lemma scan_small_grows els st :
  ∃ new, (scan_small els st).2.1 = st.1 ++ new.
Proof.
  revert st. induction els as [|el els IH]; intros st; cbn [scan_small].
  - exists []. by rewrite app_nil_r.
  - destruct (el_size el) as [[width height]|e]; [|exists []; by rewrite app_nil_r].
    destruct (IH (if decide (width ≤ 120 ∧ height ≤ 120) then add_candidate st el else st))
      as (n2 & E2).
    rewrite E2. case_decide.
    + destruct (add_candidate_grows st el) as (n1 & E1 & _).
      rewrite E1, <- app_assoc. eauto.
    + eauto.
Qed.

Lemma scan_small_none st : (scan_small [] st).2 = st.
Proof. done. Qed.

Lemma heuristics_result_ok env n hs st :
  cands_ok st → cands_ok (heuristics_result env n hs st).
Proof.
  revert n st. induction hs as [|h hs IH]; intros n st Hok; cbn [heuristics_result]; [done|].
  apply IH. by apply scan_ok.
Qed.

Lemma heuristics_result_app env n a b st :
  heuristics_result env n (a ++ b) st =
  heuristics_result env (n + length a) b (heuristics_result env n a st).
Proof.
  revert n st. induction a as [|h a IH]; intros n st; cbn [heuristics_result app length].
  - by rewrite Nat.add_0_r.
  - rewrite IH. f_equal. lia.
Qed.

(** The heuristics only append, and every appended element comes from
    the answer of one of them. *)
Lemma heuristics_result_grows env n hs st :
  cands_ok st →
  ∃ new, (heuristics_result env n hs st).1 = st.1 ++ new ∧
         ∀ e, e ∈ new → ∃ j h, hs !! j = Some h ∧ e ∈ answer env (n + j) h.2.
Proof.
  revert n st. induction hs as [|h hs IH]; intros n st Hok; cbn [heuristics_result].
  - exists []. rewrite app_nil_r. split; [done|]. intros e He. by apply elem_of_nil in He.
  - destruct (scan_grows (answer env n h.2) st Hok) as (n1 & E1 & H1).
    destruct (IH (S n) _ (scan_ok (answer env n h.2) _ Hok)) as (n2 & E2 & H2).
    exists (n1 ++ n2). rewrite E2, E1, app_assoc. split; [done|].
    intros e [He|He]%elem_of_app.
    + exists 0%nat, h. rewrite Nat.add_0_r. split; [done|]. by apply H1.
    + destruct (H2 _ He) as (j & h' & Hj & Hin). exists (S j), h'.
      split; [done|]. by replace (n + S j)%nat with (S n + j)%nat by lia.
Qed.

Lemma fallback_result_ok env n st : cands_ok st → cands_ok (fallback_result env n st).
Proof.
  intros Hok. unfold fallback_result.
  destruct (ui env n CLICKABLE_SELECTOR); [by apply scan_small_ok | done].
Qed.

Lemma fallback_result_grows env n st :
  ∃ new, (fallback_result env n st).1 = st.1 ++ new.
Proof.
  unfold fallback_result. destruct (ui env n CLICKABLE_SELECTOR).
  - apply scan_small_grows.
  - exists []. by rewrite app_nil_r.
Qed.

Lemma heuristics_result_empty env n hs st :
  (∀ j h, hs !! j = Some h → answer env (n + j) h.2 = []) →
  heuristics_result env n hs st = st.
Proof.
  revert n st. induction hs as [|h hs IH]; intros n st Hall; cbn [heuristics_result]; [done|].
  pose proof (Hall 0%nat h eq_refl) as H0. rewrite Nat.add_0_r in H0. rewrite H0.
  cbn [scan foldl]. apply IH. intros j h' Hj.
  replace (S n + j)%nat with (n + S j)%nat by lia. by apply Hall.
Qed.

Lemma find_candidates_ok env hs w found w' :
  find_candidates env hs w = (Ok found, w') → NoDup (elid <$> found).
Proof.
  rewrite find_candidates_eq. intros [= <- _].
  apply fallback_result_ok, heuristics_result_ok, no_cands_ok.
Qed.

Example demo_candidates :
  (find_candidates demo_env CROSS_BUTTON_HEURISTICS world0).1
  = Ok [close_btn; skip_btn; dot].
Proof. vm_compute. reflexivity. Qed.

(** C4: the list the matcher returns holds each identity key at most
    once, whichever heuristics and whether or not the fallback matched
    the element too; and when every query answers with the empty list the
    result is the empty list. *)
Theorem C4_candidates_unique
    (env : Env) (hs : list (string * string)) (w w' : World) (found : list Element)
    (Hrun : find_candidates env hs w = (Ok found, w')) :
  NoDup (elid <$> found) ∧
  ((∀ n sel, ui env n sel = Returns []) → found = []).
Proof.
  split; [by eapply find_candidates_ok|].
  intros Hempty. rewrite find_candidates_eq in Hrun. injection Hrun as <- _.
  rewrite heuristics_result_empty.
  - unfold fallback_result. by rewrite Hempty.
  - intros j h _. unfold answer. by rewrite Hempty.
Qed.

Lemma C4_candidates_unique_witness :
  NoDup (elid <$> [close_btn; skip_btn; dot]) ∧
  (find_candidates empty_env CROSS_BUTTON_HEURISTICS world0).1 = Ok [].
Proof.
  split.
  - apply (C4_candidates_unique demo_env CROSS_BUTTON_HEURISTICS world0
             (find_candidates demo_env CROSS_BUTTON_HEURISTICS world0).2
             [close_btn; skip_btn; dot]).
    vm_compute. reflexivity.
  - destruct (find_candidates empty_env CROSS_BUTTON_HEURISTICS world0)
      as [[found|e|] w'] eqn:E; [|vm_compute in E; discriminate..].
    cbn [fst]. f_equal.
    apply (C4_candidates_unique empty_env CROSS_BUTTON_HEURISTICS world0 w' found E).
    intros n sel. reflexivity.
Defined.

Lemma lookup_of_elem {A} (l : list A) (x : A) :
  x ∈ l → ∃ i, (i < length l)%nat ∧ l !! i = Some x.
Proof.
  intros (i & Hi)%list_elem_of_lookup. exists i. split; [|done].
  by eapply lookup_lt_Some.
Qed.

(** C5: take two heuristics of the list, the first earlier than the
    second, an element of the first one's answer and an element of the
    second one's answer whose key no earlier heuristic answered with.
    Then the key of the former stands before the key of the latter in
    the result.  And when no heuristic before the first answered with any
    element, the result starts with the first element of its answer:
    the candidate at index 0 is fixed by the list and the answers. *)
Theorem C5_priority_order
    (env : Env) (hs1 hs2 hs3 : list (string * string)) (h1 h2 : string * string)
    (w w' : World) (found l1 l2 : list Element) (e1 e2 : Element)
    (Hrun : find_candidates env (hs1 ++ h1 :: hs2 ++ h2 :: hs3) w = (Ok found, w'))
    (Hans1 : ui env (calls w + length hs1) h1.2 = Returns l1)
    (Hans2 : ui env (calls w + length (hs1 ++ h1 :: hs2)) h2.2 = Returns l2)
    (He1 : e1 ∈ l1)
    (He2 : e2 ∈ l2)
    (Hfirst : ∀ j h, (hs1 ++ h1 :: hs2) !! j = Some h →
                     elid e2 ∉ elid <$> answer env (calls w + j) h.2) :
  (∃ i j, (i < j)%nat ∧
          (elid <$> found) !! i = Some (elid e1) ∧
          (elid <$> found) !! j = Some (elid e2)) ∧
  ((∀ j h, hs1 !! j = Some h → answer env (calls w + j) h.2 = []) →
   head found = head l1).
Proof.
  rewrite find_candidates_eq in Hrun. injection Hrun as <- _.
  set (n := calls w) in *.
  set (sta := heuristics_result env n hs1 no_cands).
  set (st1 := scan l1 sta).
  set (st2a := heuristics_result env (S (n + length hs1)) hs2 st1).
  set (st2b := scan l2 st2a).
  assert (Hsplit : heuristics_result env n (hs1 ++ h1 :: hs2 ++ h2 :: hs3) no_cands
                   = heuristics_result env (S (n + length (hs1 ++ h1 :: hs2))) hs3 st2b).
  { rewrite heuristics_result_app. cbn [heuristics_result].
    unfold answer at 1. rewrite Hans1.
    rewrite heuristics_result_app. cbn [heuristics_result].
    unfold answer at 1.
    replace (S (n + length hs1) + length hs2)%nat with (n + length (hs1 ++ h1 :: hs2))%nat
      by (rewrite length_app; simpl; lia).
    by rewrite Hans2. }
  rewrite Hsplit.
  assert (Hoka : cands_ok sta) by apply heuristics_result_ok, no_cands_ok.
  assert (Hok1 : cands_ok st1) by by apply scan_ok.
  assert (Hok2a : cands_ok st2a) by by apply heuristics_result_ok.
  assert (Hok2b : cands_ok st2b) by by apply scan_ok.
  destruct (heuristics_result_grows env n hs1 no_cands no_cands_ok) as (na & Ea & Hna).
  fold sta in Ea. simpl in Ea.
  destruct (scan_grows l1 sta Hoka) as (n1 & E1 & Hn1). fold st1 in E1.
  destruct (heuristics_result_grows env (S (n + length hs1)) hs2 st1 Hok1)
    as (n2 & E2a & Hn2). fold st2a in E2a.
  destruct (scan_grows l2 st2a Hok2a) as (n2b & E2b & Hn2b). fold st2b in E2b.
  destruct (heuristics_result_grows env (S (n + length (hs1 ++ h1 :: hs2))) hs3 st2b Hok2b)
    as (n3 & E3 & _).
  destruct (fallback_result_grows env (n + length (hs1 ++ h1 :: hs2 ++ h2 :: hs3))
              (heuristics_result env (S (n + length (hs1 ++ h1 :: hs2))) hs3 st2b))
    as (n4 & E4).
  rewrite E4, E3.
  split.
  - (* the key of e1 is among the keys after the first heuristic *)
    assert (Hk1 : elid e1 ∈ keys st1) by by apply scan_covers.
    apply lookup_of_elem in Hk1 as (i & Hi & Hli).
    (* the key of e2 is new when the second heuristic is scanned *)
    assert (Hk2a : elid e2 ∉ keys st2a).
    { unfold keys. rewrite E2a, E1, Ea, !fmap_app, !elem_of_app.
      intros [[Hin|Hin]|Hin].
      - apply list_elem_of_fmap in Hin as (e & Hke & Hin).
        destruct (Hna _ Hin) as (j & h & Hj & Hans).
        apply (Hfirst j h); [by apply lookup_app_l_Some|].
        rewrite Hke. by apply list_elem_of_fmap_2.
      - apply list_elem_of_fmap in Hin as (e & Hke & Hin).
        destruct (Hn1 _ Hin) as [Hin1 _].
        apply (Hfirst (length hs1) h1).
        + by rewrite lookup_app_r, Nat.sub_diag by lia.
        + unfold answer. fold n. rewrite Hans1, Hke. by apply list_elem_of_fmap_2.
      - apply list_elem_of_fmap in Hin as (e & Hke & Hin).
        destruct (Hn2 _ Hin) as (j & h & Hj & Hans).
        apply (Hfirst (length hs1 + S j)%nat h).
        + rewrite lookup_app_r by lia.
          replace (length hs1 + S j - length hs1)%nat with (S j) by lia. done.
        + replace (n + (length hs1 + S j))%nat with (S (n + length hs1) + j)%nat by lia.
          rewrite Hke. by apply list_elem_of_fmap_2. }
    assert (Hk2b : elid e2 ∈ keys st2b) by by apply scan_covers.
    apply lookup_of_elem in Hk2b as (j & Hj & Hlj).
    assert (Hlen : (length (keys st1) ≤ length (keys st2a))%nat).
    { unfold keys. rewrite E2a, fmap_app, length_app. lia. }
    assert (Hji : (length (keys st2a) ≤ j)%nat).
    { destruct (decide (j < length (keys st2a))%nat) as [Hlt|]; [|lia].
      exfalso. apply Hk2a. unfold keys in *. rewrite E2b, fmap_app in Hlj.
      rewrite lookup_app_l in Hlj by done. by eapply list_elem_of_lookup_2. }
    exists i, j. split; [lia|]. unfold keys in *. split.
    + rewrite E2b, E2a, !fmap_app.
      rewrite !lookup_app_l; [done|..]; rewrite ?length_app; lia.
    + rewrite !fmap_app. rewrite !lookup_app_l; [done|..]; rewrite ?length_app; lia.
  - intros Hquiet.
    assert (Hsta : sta = no_cands) by by apply heuristics_result_empty.
    destruct l1 as [|c l1']; [by apply elem_of_nil in He1|].
    assert (Hst1 : st1 = scan l1' ([c], {[elid c]} ∪ ∅)).
    { unfold st1. rewrite Hsta. cbn [scan foldl]. unfold add_candidate at 2.
      rewrite decide_False by set_solver. done. }
    destruct (scan_grows l1' ([c], {[elid c]} ∪ ∅)) as (nn & Enn & _).
    { apply (add_candidate_ok no_cands c no_cands_ok). }
    rewrite E2b, E2a, Hst1, Enn. done.
Qed.

Lemma C5_priority_order_witness :
  (∃ i j, (i < j)%nat ∧
          (elid <$> [close_btn; skip_btn; dot]) !! i = Some (elid close_btn) ∧
          (elid <$> [close_btn; skip_btn; dot]) !! j = Some (elid skip_btn)) ∧
  head [close_btn; skip_btn; dot] = head [close_btn].
Proof.
  pose proof (C5_priority_order demo_env
    [] [heuristic 1; heuristic 2; heuristic 3] [heuristic 5; heuristic 6]
    (heuristic 0) (heuristic 4) world0
    (find_candidates demo_env CROSS_BUTTON_HEURISTICS world0).2
    [close_btn; skip_btn; dot] [close_btn] [skip_btn; close_btn]
    close_btn skip_btn) as H.
  destruct H as [Hord Hhead].
  - vm_compute. reflexivity.
  - reflexivity.
  - reflexivity.
  - by left.
  - by left.
  - intros j h Hj.
    destruct j as [|[|[|[|j]]]]; simpl in Hj; [injection Hj as <-; vm_compute..|done].
    + intros [[=]|Hin%elem_of_nil]%elem_of_cons; done.
    + apply not_elem_of_nil.
    + apply not_elem_of_nil.
    + apply not_elem_of_nil.
  - split; [exact Hord|]. apply Hhead. intros j h Hj. done.
Defined.

(** ** Rules for [post], [halts] and [returns] *)

Lemma post_ret {A} P (Q : A → Prop) a : Q a → post P Q (mret a).
Proof.
  intros Hq w r w' [= <- <-]. repeat split; try done; try lia.
  - exists []. split; [done | constructor].
  - by intros a' [= <-].
Qed.

Lemma post_bind {A B} P (Q : A → Prop) (R : B → Prop) (m : M A) (f : A → M B) :
  post P Q m → (∀ a, Q a → post P R (f a)) → post P R (m ≫= f).
Proof.
  intros Hm Hf w r w' Hrun. unfold mbind, M_bind in Hrun.
  destruct (m w) as [[a|e|] w1] eqn:Em.
  - destruct (Hm _ _ _ Em) as (Hc & Ht & Hn & (n1 & Etr & Hall) & Hq).
    destruct (Hf a (Hq a eq_refl) _ _ _ Hrun) as (Hc2 & Ht2 & Hn2 & (n2 & Etr2 & Hall2) & Hq2).
    repeat split; try congruence; try lia; try done.
    exists (n2 ++ n1). split; [by rewrite Etr2, Etr, app_assoc | by apply Forall_app].
  - injection Hrun as <- <-.
    destruct (Hm _ _ _ Em) as (Hc & Ht & Hn & Htr & Hq). by repeat split.
  - injection Hrun as <- <-.
    destruct (Hm _ _ _ Em) as (Hc & Ht & Hn & Htr & Hq). by repeat split.
Qed.

Lemma post_try {A} P (Q : A → Prop) (m : M A) (h : exn → M A) :
  post P Q m → (∀ e, post P Q (h e)) → post P Q (try_except m h).
Proof.
  intros Hm Hh w r w' Hrun. unfold try_except in Hrun.
  destruct (m w) as [[a|e|] w1] eqn:Em.
  - injection Hrun as <- <-. by apply Hm.
  - destruct (Hm _ _ _ Em) as (Hc & Ht & Hn & (n1 & Etr & Hall) & Hq).
    destruct (Hh e _ _ _ Hrun) as (Hc2 & Ht2 & Hn2 & (n2 & Etr2 & Hall2) & Hq2).
    repeat split; try congruence; try lia; try done.
    exists (n2 ++ n1). split; [by rewrite Etr2, Etr, app_assoc | by apply Forall_app].
  - injection Hrun as <- <-. by apply Hm.
Qed.

Lemma post_weaken {A} (P P' : Event → Prop) (Q Q' : A → Prop) (m : M A) :
  post P Q m → (∀ ev, P ev → P' ev) → (∀ a, Q a → Q' a) → post P' Q' m.
Proof.
  intros Hm HP HQ w r w' Hrun.
  destruct (Hm _ _ _ Hrun) as (Hc & Ht & Hn & (n1 & Etr & Hall) & Hq).
  repeat split; try done.
  - exists n1. split; [done|]. eapply Forall_impl; eauto.
  - intros a Ha. auto.
Qed.

Lemma post_raise {A} P (Q : A → Prop) e : post P Q (raise e).
Proof.
  intros w r w' [= <- <-]. repeat split; try done; try lia.
  exists []. split; [done | constructor].
Qed.

Lemma post_read {A} P (r : Reply A) : post P (λ a, r = Returns a) (read r).
Proof.
  intros w res w' [= <- <-]. repeat split; try done; try lia.
  - exists []. split; [done | constructor].
  - destruct r; simpl; intros a' [= <-]; done.
Qed.

Lemma post_time_time P : post P (@any_value Z) time_time.
Proof.
  intros w r w' [= <- <-]. repeat split; try done; try lia.
  exists []. split; [done | constructor].
Qed.

Lemma post_time_sleep (P : Event → Prop) ms :
  P (EvSleep ms) → post P (@any_value unit) (time_sleep ms).
Proof.
  intros HP w r w' [= <- <-]. repeat split; try done; simpl; try lia.
  exists [EvSleep ms]. split; [done | by constructor].
Qed.

Lemma post_draw env P : post P (@any_value Z) (draw env).
Proof.
  intros w r w' [= <- <-]. repeat split; try done; simpl; try lia.
  exists []. split; [done | constructor].
Qed.

Lemma post_find_elements env (P : Event → Prop) sel :
  P (EvFind sel) → post P (@any_value (list Element)) (find_elements env sel).
Proof.
  intros HP w r w' [= <- <-]. repeat split; try done; simpl; try lia.
  exists [EvFind sel]. split; [done | by constructor].
Qed.

Lemma post_driver_call env (P : Event → Prop) ev :
  P ev → post P (@any_value unit) (driver_call env ev).
Proof.
  intros HP w r w' Hrun. unfold driver_call in Hrun.
  destruct (drv_raises env (calls w)); injection Hrun as <- <-;
    repeat split; try done; simpl; try lia.
  - exists []. split; [done | constructor].
  - exists [ev]. split; [done | by constructor].
Qed.

Lemma post_randint env P a b :
  post P (λ v, a ≤ v ≤ b) (randint env a b).
Proof.
  unfold randint. case_decide as Hab; [apply post_raise|].
  eapply post_bind; [apply post_draw|]. intros r _. apply post_ret.
  pose proof (Z.mod_pos_bound r (b - a + 1)). lia.
Qed.

Lemma post_uniform_ms env P lo hi :
  lo ≤ hi → post P (λ v, lo ≤ v ≤ hi) (uniform_ms env lo hi).
Proof.
  intros Hle. unfold uniform_ms.
  eapply post_bind; [apply post_draw|]. intros r _. apply post_ret.
  pose proof (Z.mod_pos_bound r (hi - lo + 1)). lia.
Qed.

Lemma post_random_pct env P : post P (@any_value Z) (random_pct env).
Proof.
  unfold random_pct. eapply post_bind; [apply post_draw|]. intros r _. by apply post_ret.
Qed.

Lemma post_choice env {A} P (dflt : A) l :
  post P (λ a, a ∈ l ∨ a = dflt) (choice env dflt l).
Proof.
  unfold choice. eapply post_bind; [apply post_draw|]. intros r _. apply post_ret.
  destruct (nth_in_or_default (Z.to_nat (r `mod` Z.of_nat (length l))) l dflt) as [Hin| ->].
  - left. by apply list_elem_of_In.
  - by right.
Qed.

(** ** The primitives of the worker *)

Section WorkerPosts.
Variable env : Env.
Variable P : Event → Prop.
Hypothesis P_sleep : ∀ ms, P (EvSleep ms).

Lemma post_random_sleep range :
  range.1 ≤ range.2 → post P (@any_value unit) (random_sleep env range).
Proof.
  intros Hle. unfold random_sleep.
  eapply post_bind; [by apply post_uniform_ms|].
  intros d _. by apply post_time_sleep.
Qed.

Lemma post_maybe_idle : post P (@any_value unit) (maybe_idle env).
Proof.
  unfold maybe_idle. eapply post_bind; [apply post_random_pct|]. intros p _.
  case_decide.
  - eapply post_bind; [by apply post_uniform_ms|]. intros d _. by apply post_time_sleep.
  - by apply post_ret.
Qed.

Lemma post_jitter extent : post P (jitter_range extent) (jitter env extent).
Proof. unfold jitter, jitter_range. apply post_randint. Qed.

Lemma post_human_tap element :
  (∀ loc size x y,
     el_location element = Returns loc → el_size element = Returns size →
     jitter_range size.1 (x - loc.1) → jitter_range size.2 (y - loc.2) →
     (∀ d, P (EvTap x y d)) ∧ P (EvTouchTap x y)) →
  post P (@any_value unit) (human_tap env element).
Proof.
  intros Hpress. unfold human_tap.
  eapply post_bind; [apply post_read|]. intros loc Hloc.
  eapply post_bind; [apply post_read|]. intros size Hsize.
  eapply post_bind; [apply post_jitter|]. intros dx Hdx.
  eapply post_bind; [apply post_jitter|]. intros dy Hdy.
  destruct (Hpress loc size (loc.1 + dx) (loc.2 + dy) Hloc Hsize) as [Htap Htouch].
  { by replace (loc.1 + dx - loc.1) with dx by lia. }
  { by replace (loc.2 + dy - loc.2) with dy by lia. }
  eapply post_bind with (Q := any_value).
  - apply post_try.
    + eapply post_bind; [by apply post_uniform_ms|]. intros d _.
      by apply post_driver_call.
    + intros _. apply post_try; [by apply post_driver_call|].
      intros _. by apply post_ret.
  - intros _ _. by apply post_random_sleep.
Qed.

End WorkerPosts.

Lemma tap_event_sleep loc size ms : tap_event loc size (EvSleep ms).
Proof. done. Qed.

Lemma jitter_in_bounds loc size x y :
  jitter_range size.1 (x - loc.1) → jitter_range size.2 (y - loc.2) →
  6 ≤ size.1 → 6 ≤ size.2 → in_bounds loc size x y.
Proof. unfold jitter_range, in_bounds. lia. Qed.

(** C9, counterexample: a clickable dot of 3 by 3 at (500, 500) is
    pressed at (505, 505), beyond its right and bottom edges. *)
Lemma C9_press_outside_small_element :
  el_location dot = Returns (500, 500) ∧
  el_size dot = Returns (3, 3) ∧
  trace (human_tap empty_env dot world0).2 = [EvSleep 350; EvTap 505 505 350] ∧
  500 + 3 < 505.
Proof. vm_compute. repeat split; reflexivity. Qed.

(** Each press [human_tap] issues is at an offset from the corner of the
    element that lies, along each axis, in the range the jitter is drawn
    from. *)
Lemma human_tap_jitter_range env element w w' r loc size :
  el_location element = Returns loc →
  el_size element = Returns size →
  human_tap env element w = (r, w') →
  ∃ new, trace w' = new ++ trace w ∧
    ∀ x y, (EvTouchTap x y ∈ new ∨ ∃ d, EvTap x y d ∈ new) →
      jitter_range size.1 (x - loc.1) ∧ jitter_range size.2 (y - loc.2).
Proof.
  intros Hloc Hsize Hrun.
  assert (Hpost : post (tap_event loc size) (@any_value unit) (human_tap env element)).
  { apply post_human_tap; [done|].
    intros loc' size' x y Hl Hs Hx Hy.
    rewrite Hloc in Hl. rewrite Hsize in Hs. injection Hl as <-. injection Hs as <-.
    by split. }
  destruct (Hpost _ _ _ Hrun) as (_ & _ & _ & (new & Etr & Hall) & _).
  exists new. split; [done|]. intros x y Hin.
  rewrite Forall_forall in Hall.
  destruct Hin as [Hin|[d Hin]]; apply Hall in Hin; exact Hin.
Qed.

(** C9, amended: for every element that is at least 6 wide and 6 high,
    and for all random choices, each press [human_tap] issues is at a
    point within the bounding rectangle of the element. *)
Theorem C9_press_point_in_bounds
    (env : Env) (element : Element) (w w' : World) (r : Res unit) (loc size : Z * Z)
    (Hloc : el_location element = Returns loc)
    (Hsize : el_size element = Returns size)
    (Hwide : 6 ≤ size.1)
    (Hhigh : 6 ≤ size.2)
    (Hrun : human_tap env element w = (r, w')) :
  ∃ new, trace w' = new ++ trace w ∧
    ∀ x y, (EvTouchTap x y ∈ new ∨ ∃ d, EvTap x y d ∈ new) →
      loc.1 ≤ x ≤ loc.1 + size.1 ∧ loc.2 ≤ y ≤ loc.2 + size.2.
Proof.
  destruct (human_tap_jitter_range _ _ _ _ _ _ _ Hloc Hsize Hrun) as (new & Etr & Hnew).
  exists new. split; [done|]. intros x y Hin.
  destruct (Hnew x y Hin) as [Hx Hy]. by apply jitter_in_bounds.
Qed.

Lemma C9_press_point_in_bounds_witness :
  trace (human_tap demo_env close_btn world0).2 = [EvSleep 353; EvTap 905 46 352] ∧
  (900 ≤ 905 ≤ 900 + 40 ∧ 40 ≤ 46 ≤ 40 + 40).
Proof.
  assert (Htr : trace (human_tap demo_env close_btn world0).2
                = [EvSleep 353; EvTap 905 46 352]) by (vm_compute; reflexivity).
  split; [exact Htr|].
  destruct (C9_press_point_in_bounds demo_env close_btn world0
              (human_tap demo_env close_btn world0).2
              (human_tap demo_env close_btn world0).1
              (900, 40) (40, 40) eq_refl eq_refl) as (new & Enew & Hnew).
  { simpl. lia. }
  { simpl. lia. }
  { apply surjective_pairing. }
  rewrite Htr in Enew. simpl in Enew. rewrite app_nil_r in Enew. subst new.
  apply (Hnew 905 46).
  right. exists 352. right. left.
Defined.

(** ** Termination and absence of exceptions *)

Lemma returns_halts {A} (m : M A) : returns m → halts m.
Proof. intros Hm w. destruct (Hm w) as (a & w' & ->). done. Qed.

Lemma returns_ret {A} (a : A) : returns (mret a).
Proof. intros w. by exists a, w. Qed.

Lemma returns_bind {A B} (m : M A) (f : A → M B) :
  returns m → (∀ a, returns (f a)) → returns (m ≫= f).
Proof.
  intros Hm Hf w. destruct (Hm w) as (a & w1 & Em).
  destruct (Hf a w1) as (b & w2 & Ef). exists b, w2.
  unfold mbind, M_bind. by rewrite Em.
Qed.

Lemma halts_bind {A B} (m : M A) (f : A → M B) :
  halts m → (∀ a, halts (f a)) → halts (m ≫= f).
Proof.
  intros Hm Hf w. unfold mbind, M_bind. specialize (Hm w).
  destruct (m w) as [[a|e|] w1]; [apply Hf | done | done].
Qed.

Lemma returns_try {A} (m : M A) (h : exn → M A) :
  halts m → (∀ e, returns (h e)) → returns (try_except m h).
Proof.
  intros Hm Hh w. unfold try_except. specialize (Hm w).
  destruct (m w) as [[a|e|] w1]; [by exists a, w1 | apply Hh | done].
Qed.

Lemma halts_try {A} (m : M A) (h : exn → M A) :
  halts m → (∀ e, halts (h e)) → halts (try_except m h).
Proof.
  intros Hm Hh w. unfold try_except. specialize (Hm w).
  destruct (m w) as [[a|e|] w1]; [done | apply Hh | done].
Qed.

Lemma returns_draw env : returns (draw env).
Proof. intros w. by eexists _, _. Qed.

Lemma returns_time_sleep ms : returns (time_sleep ms).
Proof. intros w. by eexists _, _. Qed.

Lemma returns_time_time : returns time_time.
Proof. intros w. by eexists _, _. Qed.

Lemma returns_randint env a b : a ≤ b → returns (randint env a b).
Proof.
  intros Hab. unfold randint. rewrite decide_False by lia.
  apply returns_bind; [apply returns_draw|]. intros r. apply returns_ret.
Qed.

Lemma returns_uniform_ms env lo hi : returns (uniform_ms env lo hi).
Proof. apply returns_bind; [apply returns_draw|]. intros r. apply returns_ret. Qed.

Lemma returns_random_pct env : returns (random_pct env).
Proof. apply returns_bind; [apply returns_draw|]. intros r. apply returns_ret. Qed.

Lemma returns_choice env {A} (dflt : A) l : returns (choice env dflt l).
Proof. apply returns_bind; [apply returns_draw|]. intros r. apply returns_ret. Qed.

Lemma halts_driver_call env ev : halts (driver_call env ev).
Proof. intros w. unfold driver_call. by destruct (drv_raises env (calls w)). Qed.

Lemma halts_find_elements env sel : halts (find_elements env sel).
Proof. intros w. unfold find_elements; simpl. by destruct (ui env (calls w) sel). Qed.

Lemma halts_read {A} (r : Reply A) : halts (read r).
Proof. intros w. unfold read; simpl. by destruct r. Qed.

Lemma returns_random_sleep env range : returns (random_sleep env range).
Proof.
  apply returns_bind; [apply returns_uniform_ms|]. intros d. apply returns_time_sleep.
Qed.

Lemma returns_maybe_idle env : returns (maybe_idle env).
Proof.
  apply returns_bind; [apply returns_random_pct|]. intros p. case_decide.
  - apply returns_bind; [apply returns_uniform_ms|]. intros d. apply returns_time_sleep.
  - apply returns_ret.
Qed.

Lemma returns_curve env x1 y1 x2 y2 steps : returns (curve env x1 y1 x2 y2 steps).
Proof.
  induction steps as [|i rest IH]; cbn [curve]; [apply returns_ret|].
  apply returns_bind; [by apply returns_randint|]. intros jx.
  apply returns_bind; [by apply returns_randint|]. intros jy.
  apply returns_bind; [done|]. intros pts. apply returns_ret.
Qed.

Lemma returns_advanced_human_swipe env : returns (advanced_human_swipe env).
Proof.
  unfold advanced_human_swipe.
  repeat (apply returns_bind; [by apply returns_randint|]; intros ?).
  apply returns_try; [|intros _; apply returns_ret].
  apply halts_bind; [apply returns_halts, returns_curve|].
  intros pts. apply halts_driver_call.
Qed.

Lemma returns_simulate_device_event env : returns (simulate_device_event env).
Proof.
  unfold simulate_device_event.
  apply returns_bind; [apply returns_random_pct|]. intros r.
  apply returns_try; [|intros _; apply returns_ret].
  repeat case_decide.
  - apply halts_bind; [apply halts_driver_call|]. intros _.
    apply halts_bind; [apply returns_halts, returns_uniform_ms|]. intros d.
    apply halts_bind; [apply returns_halts, returns_time_sleep|]. intros _.
    apply halts_driver_call.
  - apply halts_bind; [apply halts_driver_call|]. intros _.
    apply halts_bind; [apply returns_halts, returns_uniform_ms|]. intros d.
    apply halts_bind; [apply returns_halts, returns_time_sleep|]. intros _.
    apply halts_driver_call.
  - apply returns_halts, returns_ret.
Qed.

Lemma returns_session_diversity env : returns (session_diversity env).
Proof.
  unfold session_diversity.
  apply returns_bind; [apply returns_random_pct|]. intros p1.
  apply returns_bind.
  { case_decide; [apply returns_advanced_human_swipe | apply returns_ret]. }
  intros _. apply returns_bind; [apply returns_random_pct|]. intros p2.
  apply returns_bind.
  { case_decide; [apply returns_simulate_device_event | apply returns_ret]. }
  intros _. apply returns_bind; [apply returns_random_pct|]. intros p3.
  case_decide; apply returns_ret.
Qed.

(** ** What the steps of a turn emit *)

Section BackgroundPosts.
Variable env : Env.
Variable P : Event → Prop.
Hypothesis P_no_find : ∀ ev, no_find ev → P ev.

Lemma post_curve x1 y1 x2 y2 steps :
  post P (@any_value (list (Z * Z))) (curve env x1 y1 x2 y2 steps).
Proof.
  induction steps as [|i rest IH]; cbn [curve]; [by apply post_ret|].
  eapply post_bind; [apply post_randint|]. intros jx _.
  eapply post_bind; [apply post_randint|]. intros jy _.
  eapply post_bind; [apply IH|]. intros pts _. by apply post_ret.
Qed.

Lemma post_advanced_human_swipe : post P (@any_value unit) (advanced_human_swipe env).
Proof.
  unfold advanced_human_swipe.
  repeat (eapply post_bind; [apply post_randint|]; intros ? _).
  apply post_try.
  - eapply post_bind; [apply post_curve|]. intros pts _.
    by apply post_driver_call, P_no_find.
  - intros _. by apply post_ret.
Qed.

Lemma post_simulate_device_event : post P (@any_value unit) (simulate_device_event env).
Proof.
  unfold simulate_device_event.
  eapply post_bind; [apply post_random_pct|]. intros r _.
  apply post_try; [|intros _; by apply post_ret].
  repeat case_decide.
  - eapply post_bind; [by apply post_driver_call, P_no_find|]. intros _ _.
    eapply post_bind; [by apply post_uniform_ms|]. intros d _.
    eapply post_bind; [by apply post_time_sleep, P_no_find|]. intros _ _.
    by apply post_driver_call, P_no_find.
  - eapply post_bind; [by apply post_driver_call, P_no_find|]. intros _ _.
    eapply post_bind; [by apply post_uniform_ms|]. intros d _.
    eapply post_bind; [by apply post_time_sleep, P_no_find|]. intros _ _.
    by apply post_driver_call, P_no_find.
  - by apply post_ret.
Qed.

Lemma post_session_diversity : post P (@any_value unit) (session_diversity env).
Proof.
  unfold session_diversity.
  eapply post_bind; [apply post_random_pct|]. intros p1 _.
  eapply post_bind with (Q := any_value).
  { case_decide; [apply post_advanced_human_swipe | by apply post_ret]. }
  intros _ _. eapply post_bind; [apply post_random_pct|]. intros p2 _.
  eapply post_bind with (Q := any_value).
  { case_decide; [apply post_simulate_device_event | by apply post_ret]. }
  intros _ _. eapply post_bind; [apply post_random_pct|]. intros p3 _.
  case_decide; by apply post_ret.
Qed.

Lemma post_human_tap_any element : post P (@any_value unit) (human_tap env element).
Proof.
  apply post_human_tap; [intros; by apply P_no_find|].
  intros. split; [intros d|]; by apply P_no_find.
Qed.

End BackgroundPosts.

(** ** The dismissal search *)

Lemma post_find_candidates env (P : Event → Prop) hs :
  (∀ h, h ∈ hs → P (EvFind h.2)) → P (EvFind CLICKABLE_SELECTOR) →
  post P (@any_value (list Element)) (find_candidates env hs).
Proof.
  intros Hhs Hcl. unfold find_candidates.
  eapply post_bind with (Q := any_value).
  - clear Hcl. generalize no_cands.
    induction hs as [|h hs IH]; intros st; cbn [run_heuristics]; [by apply post_ret|].
    eapply post_bind with (Q := any_value).
    + apply post_try; [|intros _; by apply post_ret].
      eapply post_bind; [apply post_find_elements, Hhs; by left|].
      intros els _. by apply post_ret.
    + intros st' _. apply IH. intros h' Hh'. apply Hhs. by right.
  - intros st _. eapply post_bind with (Q := any_value); [|intros; by apply post_ret].
    apply post_try; [|intros _; by apply post_ret].
    eapply post_bind; [by apply post_find_elements|].
    intros els _. by apply post_ret.
Qed.

Lemma find_all_eq env w :
  find_all_possible_cross_buttons env w =
  (Ok (found_at env (calls w)),
   after_queries env (CROSS_BUTTON_HEURISTICS.*2 ++ [CLICKABLE_SELECTOR]) w).
Proof. apply find_candidates_eq. Qed.

Lemma no_press_find sel : no_press (EvFind sel).
Proof. by intros []. Qed.

Lemma no_press_sleep ms : no_press (EvSleep ms).
Proof. by intros []. Qed.

Lemma uniform_sleep_eq env lo hi {A} (k : M A) w :
  (d ← uniform_ms env lo hi; time_sleep d;; k) w = k (slept env lo hi w).
Proof. reflexivity. Qed.

Lemma random_sleep_eq env range w :
  random_sleep env range w = (Ok (), slept env range.1 range.2 w).
Proof. reflexivity. Qed.

Lemma sleep_length_range env lo hi w :
  lo ≤ hi → lo ≤ sleep_length env lo hi w ≤ hi.
Proof.
  intros Hle. unfold sleep_length.
  pose proof (Z.mod_pos_bound (rnd env (draws w)) (hi - lo + 1)). lia.
Qed.

Lemma slept_facts env lo hi w :
  counters (slept env lo hi w) = counters w ∧
  clock (slept env lo hi w) = clock w + Z.max 0 (sleep_length env lo hi w) ∧
  calls (slept env lo hi w) = calls w ∧
  trace (slept env lo hi w) = EvSleep (sleep_length env lo hi w) :: trace w.
Proof. done. Qed.

Lemma poll_turn_empty env f timeout w w1 :
  clock w < timeout →
  find_all_possible_cross_buttons env w = (Ok [], w1) →
  poll_dismissal env (S f) timeout w = poll_dismissal env f timeout (slept env 1000 2000 w1).
Proof.
  intros Hlt Hfind. cbn [poll_dismissal].
  unfold mbind at 1. unfold M_bind at 1. unfold time_time at 1.
  rewrite decide_True by done.
  unfold mbind at 1. unfold M_bind at 1. rewrite Hfind.
  apply uniform_sleep_eq.
Qed.

Lemma poll_turn_found env f timeout w w1 c0 rest :
  clock w < timeout →
  find_all_possible_cross_buttons env w = (Ok (c0 :: rest), w1) →
  poll_dismissal env (S f) timeout w = (human_tap env c0;; mret true) w1.
Proof.
  intros Hlt Hfind. cbn [poll_dismissal].
  unfold mbind at 1. unfold M_bind at 1. unfold time_time at 1.
  rewrite decide_True by done.
  unfold mbind at 1. unfold M_bind at 1. by rewrite Hfind.
Qed.

Lemma poll_turn_late env f timeout w :
  timeout ≤ clock w → poll_dismissal env (S f) timeout w = (Ok false, w).
Proof.
  intros Hge. cbn [poll_dismissal]. unfold mbind, M_bind, time_time, mret, M_ret.
  by rewrite decide_False by lia.
Qed.

(** The search gives up once the clock has passed the deadline: with no
    candidate in sight, [S f] turns are enough when the deadline is at
    most [f] seconds away, each turn sleeping a second or more. *)
Lemma poll_timeout env f timeout w :
  (∀ n, (calls w ≤ n)%nat → found_at env n = []) →
  timeout - clock w ≤ 1000 * Z.of_nat f →
  ∃ w', poll_dismissal env (S f) timeout w = (Ok false, w') ∧
        counters w' = counters w ∧
        timeout ≤ clock w' ∧ clock w ≤ clock w' ∧
        (calls w ≤ calls w')%nat ∧
        ∃ new, trace w' = new ++ trace w ∧ Forall no_press new.
Proof.
  revert w. induction f as [|f IH]; intros w Hnone Hleft.
  - exists w. rewrite poll_turn_late by lia. repeat split; try done; try lia.
    exists []. split; [done | constructor].
  - destruct (decide (clock w < timeout)) as [Hlt|Hge].
    + pose proof (find_all_eq env w) as Hfind.
      rewrite (Hnone (calls w)) in Hfind by lia.
      pose proof (post_find_candidates env no_press CROSS_BUTTON_HEURISTICS
                    (λ h _, no_press_find h.2) (no_press_find _) w _ _ Hfind)
        as (Hc1 & Ht1 & Hn1 & (new1 & Etr1 & Hall1) & _).
      remember (after_queries env (CROSS_BUTTON_HEURISTICS.*2 ++ [CLICKABLE_SELECTOR]) w)
        as w1 eqn:Ew1.
      destruct (slept_facts env 1000 2000 w1) as (Hsc & Hsk & Hsn & Hst).
      pose proof (sleep_length_range env 1000 2000 w1) as Hd.
      destruct (IH (slept env 1000 2000 w1))
        as (w' & Erun & Hc & Hdead & Hclk & Hcalls & new & Etr & Hall).
      { intros n Hn. apply Hnone. lia. }
      { lia. }
      exists w'. rewrite (poll_turn_empty env (S f) timeout w w1 Hlt Hfind).
      split; [done|]. split; [congruence|]. split; [done|].
      split; [lia|]. split; [lia|].
      exists (new ++ EvSleep (sleep_length env 1000 2000 w1) :: new1). split.
      * rewrite Etr, Hst, Etr1. by rewrite <- app_assoc.
      * apply Forall_app. split; [done|]. constructor; [apply no_press_sleep | done].
    + exists w. rewrite poll_turn_late by lia. repeat split; try done; try lia.
      exists []. split; [done | constructor].
Qed.

Lemma await_dismissal_eq env fuel w :
  await_dismissal env fuel w = poll_dismissal env fuel (clock w + DISMISS_TIMEOUT) w.
Proof. reflexivity. Qed.

Lemma cooldown_eq env proxy_id w :
  cooldown env proxy_id w =
  maybe_idle env
    (slept env HUMAN_SLEEP_VARIANCE.between_ads.1 HUMAN_SLEEP_VARIANCE.between_ads.2
       (set_counters (record_view proxy_id (counters w)) w)).
Proof. reflexivity. Qed.

(** The end of a turn: the view is recorded, the pacing sleep runs, and
    nothing is raised. *)
Lemma cooldown_spec env proxy_id w :
  ∃ w' new, cooldown env proxy_id w = (Ok (), w') ∧
    counters w' = record_view proxy_id (counters w) ∧
    clock w ≤ clock w' ∧
    trace w' = new ++ trace w ∧
    Forall no_press new ∧ Exists is_between_ads_sleep new.
Proof.
  rewrite cooldown_eq.
  remember (set_counters (record_view proxy_id (counters w)) w) as w1 eqn:Ew1.
  pose proof (slept_facts env HUMAN_SLEEP_VARIANCE.between_ads.1
                HUMAN_SLEEP_VARIANCE.between_ads.2 w1) as (Hsc & Hsk & Hsn & Hst).
  pose proof (sleep_length_range env HUMAN_SLEEP_VARIANCE.between_ads.1
                HUMAN_SLEEP_VARIANCE.between_ads.2 w1) as Hd.
  remember (slept env HUMAN_SLEEP_VARIANCE.between_ads.1
              HUMAN_SLEEP_VARIANCE.between_ads.2 w1) as w2 eqn:Ew2.
  destruct (returns_maybe_idle env w2) as ([] & w' & Erun).
  destruct (post_maybe_idle env no_press no_press_sleep _ _ _ Erun)
    as (Hc & Ht & Hn & (new & Etr & Hall) & _).
  exists w', (new ++ [EvSleep (sleep_length env HUMAN_SLEEP_VARIANCE.between_ads.1
                                HUMAN_SLEEP_VARIANCE.between_ads.2 w1)]).
  split; [done|].
  split; [rewrite Hc, Hsc, Ew1; done|].
  split; [rewrite Ew1 in Hsk; simpl in Hsk, Hd; lia|].
  split; [rewrite Etr, Hst, Ew1, <- app_assoc; done|].
  split.
  - apply Forall_app. split; [done|]. constructor; [apply no_press_sleep | constructor].
  - apply Exists_app. right. constructor. eexists. split; [done|]. apply Hd. done.
Qed.


Lemma demo_screen_clears n : (8 ≤ n)%nat → found_at demo_env n = [].
Proof.
  intros Hn. do 8 (destruct n as [|n]; [lia|]). reflexivity.
Qed.

Example demo_timeout_run :
  (dismiss_and_cooldown demo_env 51 "proxy_1" after_first_look).1 = Ok (Viewed false) ∧
  clock (dismiss_and_cooldown demo_env 51 "proxy_1" after_first_look).2 = 55261.
Proof. vm_compute. split; reflexivity. Qed.

(** ** One turn of the worker *)

Lemma emits_post {A} P (Q : A → Prop) (m : M A) : post P Q m → emits P m.
Proof. intros Hm w r w' Hrun. by destruct (Hm _ _ _ Hrun) as (_ & _ & _ & Htr & _). Qed.

Lemma emits_ret {A} P (a : A) : emits P (mret a).
Proof. intros w r w' [= <- <-]. exists []. split; [done | constructor]. Qed.

Lemma emits_bind {A B} P (m : M A) (f : A → M B) :
  emits P m → (∀ a, emits P (f a)) → emits P (m ≫= f).
Proof.
  intros Hm Hf w r w' Hrun. unfold mbind, M_bind in Hrun.
  destruct (m w) as [[a|e|] w1] eqn:Em.
  - destruct (Hm _ _ _ Em) as (n1 & Etr & Hall).
    destruct (Hf a _ _ _ Hrun) as (n2 & Etr2 & Hall2).
    exists (n2 ++ n1). split; [by rewrite Etr2, Etr, app_assoc | by apply Forall_app].
  - injection Hrun as <- <-. by eapply Hm.
  - injection Hrun as <- <-. by eapply Hm.
Qed.

Lemma emits_locked_record P proxy_id : emits P (locked_record proxy_id).
Proof. intros w r w' [= <- <-]. exists []. split; [done | constructor]. Qed.

Lemma bind_step {A B} (m : M A) (f : A → M B) w a w1 :
  m w = (Ok a, w1) → (m ≫= f) w = f a w1.
Proof. intros Em. unfold mbind, M_bind. by rewrite Em. Qed.

Lemma not_primary_no_find ev : no_find ev → not_primary ev.
Proof. by destruct ev; intros Hnf; split. Qed.

Lemma not_primary_cross h :
  h ∈ CROSS_BUTTON_HEURISTICS → not_primary (EvFind h.2).
Proof.
  unfold CROSS_BUTTON_HEURISTICS. intros Hin.
  repeat (apply elem_of_cons in Hin as [->|Hin];
          [split; intros [= H]; vm_compute in H; discriminate|]).
  by apply elem_of_nil in Hin.
Qed.

Lemma not_primary_clickable : not_primary (EvFind CLICKABLE_SELECTOR).
Proof. split; intros [= H]; vm_compute in H; discriminate. Qed.

Section TurnPosts.
Variable env : Env.
Variable P : Event → Prop.
Hypothesis P_no_find : ∀ ev, no_find ev → P ev.
Hypothesis P_cross : ∀ h, h ∈ CROSS_BUTTON_HEURISTICS → P (EvFind h.2).
Hypothesis P_clickable : P (EvFind CLICKABLE_SELECTOR).

Lemma post_poll_dismissal fuel timeout :
  post P (@any_value bool) (poll_dismissal env fuel timeout).
Proof.
  induction fuel as [|f IH]; cbn [poll_dismissal].
  - intros w r w' [= <- <-]. repeat split; try done; try lia.
    exists []. split; [done | constructor].
  - eapply post_bind; [apply post_time_time|]. intros now _.
    case_decide; [|by apply post_ret].
    eapply post_bind; [by apply post_find_candidates|]. intros [|c0 rest] _.
    + eapply post_bind; [by apply post_uniform_ms|]. intros d _.
      eapply post_bind; [by apply post_time_sleep, P_no_find|]. intros _ _. apply IH.
    + eapply post_bind; [by apply post_human_tap_any|]. intros _ _. by apply post_ret.
Qed.

Lemma emits_dismiss_and_cooldown fuel proxy_id :
  emits P (dismiss_and_cooldown env fuel proxy_id).
Proof.
  unfold dismiss_and_cooldown.
  apply emits_bind.
  { eapply emits_post. unfold await_dismissal.
    eapply post_bind; [apply post_time_time|]. intros now _. apply post_poll_dismissal. }
  intros close_found. apply emits_bind; [|intros; apply emits_ret].
  unfold cooldown. apply emits_bind; [apply emits_locked_record|]. intros _.
  apply emits_bind.
  { eapply emits_post. apply post_random_sleep; [intros; by apply P_no_find | done]. }
  intros _. eapply emits_post. apply post_maybe_idle. intros; by apply P_no_find.
Qed.

(** Lines 309-338: what follows a non-empty answer to the primary query. *)
Lemma emits_after_primary fuel proxy_id b0 ad_btns :
  emits P (btn ← choice env b0 ad_btns;
           human_tap env btn;;
           random_sleep env HUMAN_SLEEP_VARIANCE.ad_wait;;
           maybe_idle env;;
           dismiss_and_cooldown env fuel proxy_id).
Proof.
  apply emits_bind; [eapply emits_post, post_choice|]. intros btn.
  apply emits_bind; [eapply emits_post; by apply post_human_tap_any|]. intros _.
  apply emits_bind.
  { eapply emits_post. apply post_random_sleep; [intros; by apply P_no_find | done]. }
  intros _. apply emits_bind.
  { eapply emits_post. apply post_maybe_idle. intros; by apply P_no_find. }
  intros _. apply emits_dismiss_and_cooldown.
Qed.

End TurnPosts.

Lemma locked_check_eq proxy_id w :
  locked_check proxy_id w =
  (Ok (verdict_of proxy_id (counters w), window_count (counters w) proxy_id + 1),
   set_counters (check_caps proxy_id (counters w)).2 w).
Proof. unfold locked_check. by rewrite check_caps_triple. Qed.

(** A turn that passes the cap check issues exactly one primary query,
    for the category of its ordinal; when that query answers with no
    element, the counters are those the check left. *)
Lemma cycle_allowed env fuel proxy_id w r w' :
  cycle env fuel proxy_id w = (r, w') →
  verdict_of proxy_id (counters w) = Allowed →
  (∃ new, trace w' = new ++ trace w ∧
          primary_once (category_selector (window_count (counters w) proxy_id + 1)) new) ∧
  (r = Ok NoAdButton → counters w' = (check_caps proxy_id (counters w)).2).
Proof.
  intros Hrun Hv. unfold cycle, try_except in Hrun.
  rewrite (bind_step _ _ _ _ _ (locked_check_eq proxy_id w)) in Hrun.
  rewrite Hv in Hrun.
  set (count := window_count (counters w) proxy_id + 1) in *.
  remember (set_counters (check_caps proxy_id (counters w)).2 w) as w0 eqn:Ew0.
  assert (Htr0 : trace w0 = trace w) by by rewrite Ew0.
  assert (Hc0 : counters w0 = (check_caps proxy_id (counters w)).2) by by rewrite Ew0.
  clear Ew0.
  destruct (returns_random_sleep env HUMAN_SLEEP_VARIANCE.start_delay w0) as ([] & w1 & E1).
  destruct (post_random_sleep env not_primary (λ ms, not_primary_no_find (EvSleep ms) I)
              HUMAN_SLEEP_VARIANCE.start_delay ltac:(done) _ _ _ E1)
    as (Hc1 & _ & _ & (n1 & Etr1 & Hall1) & _).
  rewrite (bind_step _ _ _ _ _ E1) in Hrun.
  destruct (returns_maybe_idle env w1) as ([] & w2 & E2).
  destruct (post_maybe_idle env not_primary (λ ms, not_primary_no_find (EvSleep ms) I) _ _ _ E2)
    as (Hc2 & _ & _ & (n2 & Etr2 & Hall2) & _).
  rewrite (bind_step _ _ _ _ _ E2) in Hrun.
  destruct (returns_session_diversity env w2) as ([] & w3 & E3).
  destruct (post_session_diversity env not_primary not_primary_no_find _ _ _ E3)
    as (Hc3 & _ & _ & (n3 & Etr3 & Hall3) & _).
  rewrite (bind_step _ _ _ _ _ E3) in Hrun.
  assert (Hpre : Forall not_primary (n3 ++ n2 ++ n1)) by by rewrite !Forall_app.
  assert (Etr : trace w3 = (n3 ++ n2 ++ n1) ++ trace w).
  { rewrite Etr3, Etr2, Etr1, Htr0, <- !app_assoc. done. }
  assert (Hc : counters w3 = (check_caps proxy_id (counters w)).2) by congruence.
  clear E1 E2 E3 Etr1 Etr2 Etr3 Hall1 Hall2 Hall3 Hc1 Hc2 Hc3 Htr0 Hc0.
  unfold mbind at 1 in Hrun. unfold M_bind at 1 in Hrun.
  unfold find_elements at 1 in Hrun.
  remember (next_call env (emit (EvFind (category_selector count)) w3)) as w4 eqn:Ew4.
  assert (Etr4 : trace w4 = EvFind (category_selector count) :: trace w3) by by rewrite Ew4.
  assert (Hc4 : counters w4 = counters w3) by by rewrite Ew4.
  clear Ew4.
  assert (Hfail : ∀ e w5 n5,
            trace w5 = n5 ++ trace w4 → Forall not_primary n5 →
            (random_sleep env HUMAN_SLEEP_VARIANCE.fail_retry;; mret (Failed e)) w5 = (r, w') →
            (∃ new, trace w' = new ++ trace w ∧ primary_once (category_selector count) new) ∧
            (r = Ok NoAdButton → counters w' = (check_caps proxy_id (counters w)).2)).
  { intros e w5 n5 Etr5 Hall5 Hh.
    rewrite (bind_step _ _ _ _ _ (random_sleep_eq env _ w5)) in Hh.
    injection Hh as <- <-. split; [|done].
    exists ((EvSleep (sleep_length env 6000 18000 w5) :: n5)
            ++ EvFind (category_selector count) :: n3 ++ n2 ++ n1).
    split.
    - destruct (slept_facts env 6000 18000 w5) as (_ & _ & _ & ->).
      rewrite Etr5, Etr4, Etr. list_eq.
    - eexists _, _. split; [done|]. split; [|done].
      constructor; [by apply not_primary_no_find | done]. }
  destruct (ui env (calls w3) (category_selector count)) as [ad_btns|e];
    cbn [res_of_reply] in Hrun.
  - destruct ad_btns as [|b0 ad_btns].
    + rewrite (bind_step _ _ _ _ _ (random_sleep_eq env _ w4)) in Hrun.
      injection Hrun as <- <-. split.
      * exists ([EvSleep (sleep_length env 2000 4000 w4)]
                ++ EvFind (category_selector count) :: n3 ++ n2 ++ n1).
        split.
        -- destruct (slept_facts env 2000 4000 w4) as (_ & _ & _ & Hs).
           cbn [fst snd]. rewrite Hs, Etr4, Etr. list_eq.
        -- eexists _, _. split; [done|]. split; [|done].
           constructor; [by apply not_primary_no_find | constructor].
      * intros _. destruct (slept_facts env 2000 4000 w4) as (Hs & _).
        cbn [fst snd]. congruence.
    + match type of Hrun with
      | match ?m w4 with _ => _ end = _ => destruct (m w4) as [[out|e|] w5] eqn:E5
      end.
      all: pose proof (emits_after_primary env not_primary not_primary_no_find
             not_primary_cross not_primary_clickable fuel proxy_id b0 (b0 :: ad_btns)
             _ _ _ E5) as (n5 & Etr5 & Hall5).
      * injection Hrun as <- <-. split.
        -- exists (n5 ++ EvFind (category_selector count) :: n3 ++ n2 ++ n1).
           split; [rewrite Etr5, Etr4, Etr; list_eq|].
           eexists _, _. by split.
        -- intros [= ->]. exfalso. revert E5. clear.
           unfold dismiss_and_cooldown, mbind, M_bind, mret, M_ret.
           repeat (match goal with
                   | |- context [match ?x with _ => _ end] => destruct x
                   end; try done).
      * by eapply Hfail.
      * injection Hrun as <- <-. split; [|done].
        exists (n5 ++ EvFind (category_selector count) :: n3 ++ n2 ++ n1).
        split; [rewrite Etr5, Etr4, Etr; list_eq|].
        eexists _, _. by split.
  - eapply (Hfail e w4 []); [done | constructor | done].
Qed.

Lemma selectors_differ : INTERSTITIAL_SELECTOR ≠ REWARDED_SELECTOR.
Proof. intros H. vm_compute in H. discriminate. Qed.

Lemma primary_once_elem sel sel' new :
  primary_once sel new →
  sel' = INTERSTITIAL_SELECTOR ∨ sel' = REWARDED_SELECTOR →
  EvFind sel' ∈ new ↔ sel' = sel.
Proof.
  intros (rest & pre & -> & Hrest & Hpre) Hsel'. rewrite Forall_forall in Hrest, Hpre.
  split.
  - intros [Hin|[Hin|Hin]%elem_of_cons]%elem_of_app.
    + destruct (Hrest _ Hin) as [H1 H2]. destruct Hsel' as [-> | ->]; done.
    + by injection Hin.
    + destruct (Hpre _ Hin) as [H1 H2]. destruct Hsel' as [-> | ->]; done.
  - intros ->. apply elem_of_app. right. by left.
Qed.


Example no_button_turn :
  (cycle empty_env 51 "proxy_1" world0).1 = Ok NoAdButton ∧
  trace (cycle empty_env 51 "proxy_1" world0).2 =
    [EvSleep 2000; EvFind INTERSTITIAL_SELECTOR; EvLaunchApp; EvSleep 1000;
     EvKeycode 3;
     EvSwipe [(100, 300); (81, 273); (73, 256); (65, 240); (56, 223); (48, 206)] 800;
     EvSleep 30000; EvSleep 2000] ∧
  window_count (counters (cycle empty_env 51 "proxy_1" world0).2) "proxy_1" = 0.
Proof. vm_compute. repeat split; reflexivity. Qed.

Example failed_query_turn :
  (cycle demo_env 51 "proxy_1" world0).1 = Ok (Failed (WebDriverException "stale tree")) ∧
  window_count (counters (cycle demo_env 51 "proxy_1" world0).2) "proxy_1" = 0.
Proof. vm_compute. split; reflexivity. Qed.


(** * Further properties of the code *)

(** ** No exception leaves a turn, and the search terminates *)

Lemma halts_human_tap env element : halts (human_tap env element).
Proof.
  unfold human_tap.
  apply halts_bind; [apply halts_read|]. intros loc.
  apply halts_bind; [apply halts_read|]. intros size.
  apply halts_bind; [apply returns_halts, returns_randint; lia|]. intros dx.
  apply halts_bind; [apply returns_halts, returns_randint; lia|]. intros dy.
  apply halts_bind; [|intros _; apply returns_halts, returns_random_sleep].
  apply halts_try.
  - apply halts_bind; [apply returns_halts, returns_uniform_ms|]. intros d.
    apply halts_driver_call.
  - intros _. apply returns_halts, returns_try; [apply halts_driver_call|].
    intros _. apply returns_ret.
Qed.

(** When the geometry of the element can be read, [human_tap] returns:
    a failing [driver.tap] and a failing fallback are both swallowed. *)
Lemma human_tap_returns env element loc size w :
  el_location element = Returns loc → el_size element = Returns size →
  ∃ w', human_tap env element w = (Ok (), w').
Proof.
  intros Hloc Hsize.
  assert (Hret : returns (human_tap env element)).
  { unfold human_tap. rewrite Hloc, Hsize.
    apply returns_bind; [intros w0; by eexists _, _|]. intros loc'.
    apply returns_bind; [intros w0; by eexists _, _|]. intros size'.
    apply returns_bind; [apply returns_randint; lia|]. intros dx.
    apply returns_bind; [apply returns_randint; lia|]. intros dy.
    apply returns_bind; [|intros _; apply returns_random_sleep].
    apply returns_try.
    - apply halts_bind; [apply returns_halts, returns_uniform_ms|]. intros d.
      apply halts_driver_call.
    - intros _. apply returns_try; [apply halts_driver_call|].
      intros _. apply returns_ret. }
  destruct (Hret w) as ([] & w' & E). eauto.
Qed.

Lemma returns_find_candidates env hs : returns (find_candidates env hs).
Proof. intros w. eexists _, _. apply find_candidates_eq. Qed.

(** The search ends within [S f] looks at the clock when the deadline
    is at most [f] seconds away, whatever the screen shows: a turn either
    taps and stops or sleeps a second or more. *)
Lemma poll_halts env f timeout w :
  timeout - clock w ≤ 1000 * Z.of_nat f →
  ∃ r w', poll_dismissal env (S f) timeout w = (r, w') ∧
          r ≠ OutOfFuel ∧ (r = Ok false → timeout ≤ clock w').
Proof.
  revert w. induction f as [|f IH]; intros w Hleft.
  - eexists _, _. rewrite poll_turn_late by lia. repeat split; [done|]. intros _. lia.
  - destruct (decide (clock w < timeout)) as [Hlt|Hge].
    + pose proof (find_all_eq env w) as Hfind.
      pose proof (post_find_candidates env (λ _, True) CROSS_BUTTON_HEURISTICS
                    (λ h _, I) I w _ _ Hfind) as (_ & Ht1 & _).
      remember (after_queries env (CROSS_BUTTON_HEURISTICS.*2 ++ [CLICKABLE_SELECTOR]) w)
        as w1 eqn:Ew1.
      destruct (found_at env (calls w)) as [|c0 rest].
      * destruct (slept_facts env 1000 2000 w1) as (_ & Hsk & _).
        pose proof (sleep_length_range env 1000 2000 w1) as Hd.
        destruct (IH (slept env 1000 2000 w1)) as (r & w' & Erun & Hr & Hlate); [lia|].
        exists r, w'. by rewrite (poll_turn_empty env (S f) timeout w w1 Hlt Hfind).
      * rewrite (poll_turn_found env (S f) timeout w w1 c0 rest Hlt Hfind).
        pose proof (halts_human_tap env c0 w1) as Hh.
        unfold mbind, M_bind, mret, M_ret.
        destruct (human_tap env c0 w1) as [[[]|e|] w2]; [|by eexists _, _|done].
        by eexists _, _.
    + eexists _, _. rewrite poll_turn_late by lia. repeat split; [done|]. intros _. lia.
Qed.

Lemma halts_await_dismissal env fuel :
  (51 ≤ fuel)%nat → halts (await_dismissal env fuel).
Proof.
  intros Hfuel w. rewrite await_dismissal_eq.
  destruct fuel as [|f]; [lia|].
  destruct (poll_halts env f (clock w + DISMISS_TIMEOUT) w) as (r & w' & -> & Hr & _);
    [unfold DISMISS_TIMEOUT; lia | done].
Qed.

Lemma returns_cooldown env proxy_id : returns (cooldown env proxy_id).
Proof. intros w. destruct (cooldown_spec env proxy_id w) as (w' & new & E & _). eauto. Qed.

Lemma halts_dismiss_and_cooldown env fuel proxy_id :
  (51 ≤ fuel)%nat → halts (dismiss_and_cooldown env fuel proxy_id).
Proof.
  intros Hfuel. unfold dismiss_and_cooldown.
  apply halts_bind; [by apply halts_await_dismissal|]. intros close_found.
  apply returns_halts, returns_bind; [apply returns_cooldown|]. intros _. apply returns_ret.
Qed.

Lemma returns_locked_check proxy_id : returns (locked_check proxy_id).
Proof. intros w. eexists _, _. apply locked_check_eq. Qed.

(** With fuel for 51 looks at the clock, a turn returns an outcome. *)
Lemma cycle_returns env fuel proxy_id :
  (51 ≤ fuel)%nat → returns (cycle env fuel proxy_id).
Proof.
  intros Hfuel.
  unfold cycle. apply returns_try.
  - apply halts_bind; [apply returns_halts, returns_locked_check|].
    intros [verdict count]. destruct verdict.
    + apply halts_bind; [apply returns_halts, returns_random_sleep|]. intros _.
      apply halts_bind; [apply returns_halts, returns_maybe_idle|]. intros _.
      apply halts_bind; [apply returns_halts, returns_session_diversity|]. intros _.
      apply halts_bind; [apply halts_find_elements|]. intros [|b0 ad_btns].
      * apply returns_halts, returns_bind; [apply returns_random_sleep|].
        intros _. apply returns_ret.
      * apply halts_bind; [apply returns_halts, returns_choice|]. intros btn.
        apply halts_bind; [apply halts_human_tap|]. intros _.
        apply halts_bind; [apply returns_halts, returns_random_sleep|]. intros _.
        apply halts_bind; [apply returns_halts, returns_maybe_idle|]. intros _.
        by apply halts_dismiss_and_cooldown.
    + apply returns_halts, returns_bind; [apply returns_time_sleep|].
      intros _. apply returns_ret.
    + apply returns_halts, returns_ret.
  - intros e. apply returns_bind; [apply returns_random_sleep|]. intros _. apply returns_ret.
Qed.

(** X1: with 51 looks at the clock allowed for the dismissal search,
    a turn of the worker loop always ends with an outcome: no exception
    leaves it (line 340 catches them all and the handler cannot raise)
    and the search inside it terminates. *)
Theorem cycle_always_returns
    (env : Env) (fuel : nat) (proxy_id : string) (w : World)
    (Hfuel : (51 ≤ fuel)%nat) :
  ∃ out w', cycle env fuel proxy_id w = (Ok out, w').
Proof.
  pose proof (cycle_returns env fuel proxy_id Hfuel) as Hret.
  destruct (Hret w) as (out & w' & Erun).
  by exists out, w'.
Qed.

Lemma cycle_always_returns_witness :
  ∃ out w', cycle demo_env 51 "proxy_1" world0 = (Ok out, w').
Proof. apply (cycle_always_returns demo_env 51 "proxy_1" world0). lia. Defined.



(** ** What a turn does to the counters *)

Lemma view_effect_post {A} P (Q : A → Prop) proxy_id (m : M A) (f : A → M Outcome) :
  post P Q m →
  (∀ a w r w', f a w = (r, w') → view_effect proxy_id (counters w) r (counters w')) →
  ∀ w r w', (m ≫= f) w = (r, w') → view_effect proxy_id (counters w) r (counters w').
Proof.
  intros Hm Hf w r w' Hrun. unfold mbind, M_bind in Hrun.
  destruct (m w) as [[a|e|] w1] eqn:Em;
    destruct (Hm _ _ _ Em) as (Hc & _).
  - rewrite <- Hc. by eapply Hf.
  - injection Hrun as <- <-. done.
  - injection Hrun as <- <-. done.
Qed.

Lemma dismiss_and_cooldown_effect env fuel proxy_id w r w' :
  dismiss_and_cooldown env fuel proxy_id w = (r, w') →
  view_effect proxy_id (counters w) r (counters w').
Proof.
  unfold dismiss_and_cooldown.
  apply (view_effect_post (λ _, True) any_value).
  - unfold await_dismissal. eapply post_bind; [apply post_time_time|]. intros now _.
    by apply post_poll_dismissal.
  - clear. intros close_found w r w' Hrun.
    destruct (cooldown_spec env proxy_id w) as (w1 & new & Ecool & Hc & _).
    rewrite (bind_step _ _ _ _ _ Ecool) in Hrun. injection Hrun as <- <-. done.
Qed.

Lemma after_primary_effect env fuel proxy_id b0 ad_btns w r w' :
  (btn ← choice env b0 ad_btns;
   human_tap env btn;;
   random_sleep env HUMAN_SLEEP_VARIANCE.ad_wait;;
   maybe_idle env;;
   dismiss_and_cooldown env fuel proxy_id) w = (r, w') →
  view_effect proxy_id (counters w) r (counters w').
Proof.
  apply (view_effect_post (λ _, True) _ _ _ _ (post_choice env _ b0 ad_btns)).
  intros btn. apply (view_effect_post (λ _, True) any_value);
    [by apply post_human_tap_any|]. intros _.
  apply (view_effect_post (λ _, True) any_value);
    [by apply post_random_sleep|]. intros _.
  apply (view_effect_post (λ _, True) any_value);
    [by apply post_maybe_idle|]. intros _.
  apply dismiss_and_cooldown_effect.
Qed.

(** The outcome of a turn tells the verdict of its cap check and what
    happened to the counters: a view is recorded exactly on [Viewed]. *)
Lemma cycle_effect env fuel proxy_id w r w' :
  cycle env fuel proxy_id w = (r, w') →
  match r with
  | Ok WindowPause =>
      verdict_of proxy_id (counters w) = WindowExhausted ∧
      counters w' = (check_caps proxy_id (counters w)).2
  | Ok SessionHalt =>
      verdict_of proxy_id (counters w) = LifetimeExhausted ∧
      counters w' = (check_caps proxy_id (counters w)).2
  | Ok (Viewed _) =>
      verdict_of proxy_id (counters w) = Allowed ∧
      counters w' = record_view proxy_id (check_caps proxy_id (counters w)).2
  | Ok NoAdButton | Ok (Failed _) | OutOfFuel =>
      verdict_of proxy_id (counters w) = Allowed ∧
      counters w' = (check_caps proxy_id (counters w)).2
  | Raise _ => False
  end.
Proof.
  intros Hrun. unfold cycle, try_except in Hrun.
  rewrite (bind_step _ _ _ _ _ (locked_check_eq proxy_id w)) in Hrun.
  remember (set_counters (check_caps proxy_id (counters w)).2 w) as w0 eqn:Ew0.
  assert (Hc0 : counters w0 = (check_caps proxy_id (counters w)).2) by by rewrite Ew0.
  clear Ew0. rewrite <- Hc0.
  destruct (verdict_of proxy_id (counters w)) eqn:Hv.
  - (* allowed *)
    match goal with
    | |- ?G =>
        assert (Hfail : ∀ e w5, counters w5 = counters w0 →
                  (random_sleep env HUMAN_SLEEP_VARIANCE.fail_retry;; mret (Failed e)) w5
                    = (r, w') → G)
    end.
    { intros e w5 Hc5 Hh.
      rewrite (bind_step _ _ _ _ _ (random_sleep_eq env _ w5)) in Hh.
      injection Hh as <- <-. split; [done|].
      destruct (slept_facts env 6000 18000 w5) as (Hs & _). cbn [fst snd]. congruence. }
    destruct (returns_random_sleep env HUMAN_SLEEP_VARIANCE.start_delay w0) as ([] & w1 & E1).
    destruct (post_random_sleep env (λ _, True) (λ _, I)
                HUMAN_SLEEP_VARIANCE.start_delay ltac:(done) _ _ _ E1) as (Hc1 & _).
    rewrite (bind_step _ _ _ _ _ E1) in Hrun.
    destruct (returns_maybe_idle env w1) as ([] & w2 & E2).
    destruct (post_maybe_idle env (λ _, True) (λ _, I) _ _ _ E2) as (Hc2 & _).
    rewrite (bind_step _ _ _ _ _ E2) in Hrun.
    destruct (returns_session_diversity env w2) as ([] & w3 & E3).
    destruct (post_session_diversity env (λ _, True) (λ _ _, I) _ _ _ E3) as (Hc3 & _).
    rewrite (bind_step _ _ _ _ _ E3) in Hrun.
    assert (Hc : counters w3 = counters w0) by congruence.
    clear E1 E2 E3 Hc1 Hc2 Hc3.
    unfold mbind at 1 in Hrun. unfold M_bind at 1 in Hrun.
    unfold find_elements at 1 in Hrun.
    remember (next_call env (emit (EvFind (category_selector
                (window_count (counters w) proxy_id + 1))) w3)) as w4 eqn:Ew4.
    assert (Hc4 : counters w4 = counters w0) by (rewrite Ew4; exact Hc).
    clear Ew4.
    destruct (ui env (calls w3) _) as [ad_btns|e]; cbn [res_of_reply] in Hrun.
    + destruct ad_btns as [|b0 ad_btns].
      * rewrite (bind_step _ _ _ _ _ (random_sleep_eq env _ w4)) in Hrun.
        injection Hrun as <- <-. split; [done|].
        destruct (slept_facts env 2000 4000 w4) as (Hs & _). cbn [fst snd]. congruence.
      * match type of Hrun with
        | match ?m w4 with _ => _ end = _ => destruct (m w4) as [[out|e|] w5] eqn:E5
        end.
        all: pose proof (after_primary_effect _ _ _ _ _ _ _ _ E5) as Heff;
          unfold view_effect in Heff; rewrite Hc4 in Heff.
        -- injection Hrun as <- <-. by destruct out.
        -- by apply (Hfail e w5).
        -- injection Hrun as <- <-. done.
    + by apply (Hfail e w4).
  - (* window exhausted *)
    rewrite (bind_step _ _ _ _ _ (eq_refl : time_sleep 60000 w0 = (Ok (), _))) in Hrun.
    injection Hrun as <- <-. done.
  - injection Hrun as <- <-. done.
Qed.

Lemma cycle_counts
    (env : Env) (fuel : nat) (proxy_id : string) (w w' : World) (r : Res Outcome)
    (k : string)
    (Hrun : cycle env fuel proxy_id w = (r, w')) :
  window_count (counters w') k = window_count (counters w) k + counted proxy_id r k ∧
  lifetime_count (counters w') k = lifetime_count (counters w) k + counted proxy_id r k ∧
  (is_viewed r = true → verdict_of proxy_id (counters w) = Allowed).
Proof.
  pose proof (cycle_effect _ _ _ _ _ _ Hrun) as Heff. unfold counted.
  destruct r as [[| | |b|e]|e|]; cbn [is_viewed andb] in *; try done;
    destruct Heff as [Hv ->];
    rewrite ?record_view_window, ?record_view_lifetime,
            ?check_caps_window, ?check_caps_lifetime;
    try (repeat split; (lia || done)).
  repeat split; try done; case_bool_decide; case_decide; (lia || done).
Qed.

(** X3: a turn adds one to the window count and to the lifetime count
    of its own identity exactly when it ran to its end ([Viewed]), which
    takes a cap check that allowed it; on every other outcome (window
    pause, halt, no ad button, a caught exception) and for every other
    identity the counts stay as they were. *)
Theorem cycle_counts_completed_views
    (env : Env) (fuel : nat) (proxy_id : string) (w w' : World) (r : Res Outcome)
    (k : string)
    (Hrun : cycle env fuel proxy_id w = (r, w')) :
  window_count (counters w') k = window_count (counters w) k + counted proxy_id r k ∧
  lifetime_count (counters w') k = lifetime_count (counters w) k + counted proxy_id r k ∧
  (is_viewed r = true → verdict_of proxy_id (counters w) = Allowed).
Proof.
  pose proof (cycle_effect _ _ _ _ _ _ Hrun) as Heff. unfold counted.
  destruct r as [[| | |b|e]|e|]; cbn [is_viewed andb] in *; try done;
    destruct Heff as [Hv ->];
    rewrite ?record_view_window, ?record_view_lifetime,
            ?check_caps_window, ?check_caps_lifetime;
    try (repeat split; (lia || done)).
  repeat split; try done; case_bool_decide; case_decide; (lia || done).
Qed.

Lemma cycle_counts_completed_views_witness :
  window_count (counters (cycle empty_env 51 "proxy_1" world0).2) "proxy_1"
    = window_count (counters world0) "proxy_1"
      + counted "proxy_1" (cycle empty_env 51 "proxy_1" world0).1 "proxy_1" ∧
  lifetime_count (counters (cycle empty_env 51 "proxy_1" world0).2) "proxy_1"
    = lifetime_count (counters world0) "proxy_1"
      + counted "proxy_1" (cycle empty_env 51 "proxy_1" world0).1 "proxy_1" ∧
  (is_viewed (cycle empty_env 51 "proxy_1" world0).1 = true →
   verdict_of "proxy_1" (counters world0) = Allowed).
Proof.
  apply (cycle_counts_completed_views empty_env 51 "proxy_1" world0).
  apply surjective_pairing.
Defined.

Lemma cycle_within_caps
    (env : Env) (fuel : nat) (proxy_id : string) (w w' : World) (r : Res Outcome)
    (Hrun : cycle env fuel proxy_id w = (r, w'))
    (Hcaps : within_caps (counters w)) :
  within_caps (counters w').
Proof.
  intros k. destruct (Hcaps k) as [Hw Hl].
  destruct (cycle_counts _ _ _ _ _ _ k Hrun) as (-> & -> & Hallowed).
  unfold counted. destruct (is_viewed r) eqn:Hview; cbn [andb]; [|lia].
  case_bool_decide as Hk; [|lia]. subst k.
  specialize (Hallowed eq_refl). rewrite check_caps_verdict in Hallowed.
  apply verdict_for_allowed in Hallowed. lia.
Qed.

(** X4: a turn never pushes a count past its cap: when every window
    count is at most 100 and every lifetime count at most 5000 before a
    turn, the same holds after it. *)
Theorem cycle_keeps_within_caps
    (env : Env) (fuel : nat) (proxy_id : string) (w w' : World) (r : Res Outcome)
    (Hrun : cycle env fuel proxy_id w = (r, w'))
    (Hcaps : within_caps (counters w)) :
  within_caps (counters w').
Proof.
  intros k. destruct (Hcaps k) as [Hw Hl].
  destruct (cycle_counts _ _ _ _ _ _ k Hrun) as (-> & -> & Hallowed).
  unfold counted. destruct (is_viewed r) eqn:Hview; cbn [andb]; [|lia].
  case_bool_decide as Hk; [|lia]. subst k.
  specialize (Hallowed eq_refl). rewrite check_caps_verdict in Hallowed.
  apply verdict_for_allowed in Hallowed. lia.
Qed.

Lemma cycle_keeps_within_caps_witness :
  within_caps (counters world0) ∧
  within_caps (counters (cycle demo_env 51 "proxy_1" world0).2).
Proof.
  assert (Hcaps : within_caps (counters world0)).
  { intros k. vm_compute. split; discriminate. }
  split; [exact Hcaps|].
  apply (cycle_keeps_within_caps demo_env 51 "proxy_1" world0 _
           (cycle demo_env 51 "proxy_1" world0).1).
  - apply surjective_pairing.
  - exact Hcaps.
Defined.



(** ** The worker thread as a whole *)

Lemma within_caps_count c k :
  within_caps c → lifetime_count c k ≤ MAX_TOTAL_VIEWS_PER_PROXY.
Proof. intros H. apply H. Qed.

(** The loop never raises, and it is left only after a cap check that
    found the lifetime exhausted; other identities keep their counts. *)
Lemma watch_loop_spec env turns fuel proxy_id w :
  (51 ≤ fuel)%nat →
  ∃ r w', watch_loop env turns fuel proxy_id w = (r, w') ∧
    (r = Ok () ∨ r = OutOfFuel) ∧
    (r = Ok () → MAX_TOTAL_VIEWS_PER_PROXY ≤ lifetime_count (counters w') proxy_id) ∧
    (∀ k, lifetime_count (counters w) k ≤ lifetime_count (counters w') k) ∧
    (∀ k, k ≠ proxy_id →
          window_count (counters w') k = window_count (counters w) k ∧
          lifetime_count (counters w') k = lifetime_count (counters w) k) ∧
    (within_caps (counters w) → within_caps (counters w')).
Proof.
  intros Hfuel. revert w. induction turns as [|turns IH]; intros w.
  - eexists _, _. split; [reflexivity|]. split; [by right|]. split; [done|].
    split; [intros; lia|]. split; done.
  - destruct (cycle_returns env fuel proxy_id Hfuel w) as (out & w1 & Ecyc).
    pose proof (cycle_effect _ _ _ _ _ _ Ecyc) as Heff.
    assert (Hcnt := λ k, cycle_counts _ _ _ _ _ _ k Ecyc).
    assert (Hcaps := cycle_within_caps _ _ _ _ _ _ Ecyc).
    assert (Hmono : ∀ k, lifetime_count (counters w) k ≤ lifetime_count (counters w1) k).
    { intros k. destruct (Hcnt k) as (_ & -> & _). unfold counted.
      destruct (is_viewed _ && _); lia. }
    assert (Hother : ∀ k, k ≠ proxy_id →
              window_count (counters w1) k = window_count (counters w) k ∧
              lifetime_count (counters w1) k = lifetime_count (counters w) k).
    { intros k Hk. destruct (Hcnt k) as (-> & -> & _). unfold counted.
      rewrite bool_decide_false by done. rewrite andb_false_r. lia. }
    cbn [watch_loop]. rewrite (bind_step _ _ _ _ _ Ecyc).
    destruct (IH w1) as (r & w' & Erun & Hr & Hhalt & Hm & Ho & Hc).
    assert (Hgo : ∃ r w', watch_loop env turns fuel proxy_id w1 = (r, w') ∧
              (r = Ok () ∨ r = OutOfFuel) ∧
              (r = Ok () → MAX_TOTAL_VIEWS_PER_PROXY ≤ lifetime_count (counters w') proxy_id) ∧
              (∀ k, lifetime_count (counters w) k ≤ lifetime_count (counters w') k) ∧
              (∀ k, k ≠ proxy_id →
                    window_count (counters w') k = window_count (counters w) k ∧
                    lifetime_count (counters w') k = lifetime_count (counters w) k) ∧
              (within_caps (counters w) → within_caps (counters w'))).
    { exists r, w'. split; [done|]. split; [done|]. split; [done|].
      split; [intros k; specialize (Hm k); specialize (Hmono k); lia|].
      split; [|by auto].
      intros k Hk. destruct (Ho k Hk) as [-> ->]. by apply Hother. }
    destruct out; try exact Hgo.
    destruct Heff as [Hv Hc1].
    eexists _, _. split; [reflexivity|]. split; [by left|]. split.
    { intros _. rewrite Hc1, check_caps_lifetime.
      rewrite check_caps_verdict in Hv. unfold verdict_for in Hv.
      repeat case_decide; done. }
    split; [done|]. split; [done|]. done.
Qed.

(** X6: the worker thread never dies of an exception, and it returns
    only when it could not connect to the driver (then it has touched no
    counter and issued nothing) or after its identity's lifetime count has
    reached the cap of 5000; it never changes the counts of another
    identity and never lowers a lifetime count. *)
Theorem watch_ads_stops_only_at_lifetime_cap
    (env : Env) (turns fuel : nat) (proxy_id : string) (w : World)
    (Hfuel : (51 ≤ fuel)%nat) :
  ∃ r w', watch_ads env turns fuel proxy_id w = (r, w') ∧
    (r = Ok () ∨ r = OutOfFuel) ∧
    (r = Ok () →
       (is_Some (drv_raises env (calls w)) ∧ counters w' = counters w ∧ trace w' = trace w) ∨
       MAX_TOTAL_VIEWS_PER_PROXY ≤ lifetime_count (counters w') proxy_id) ∧
    (∀ k, lifetime_count (counters w) k ≤ lifetime_count (counters w') k) ∧
    (∀ k, k ≠ proxy_id →
          window_count (counters w') k = window_count (counters w) k ∧
          lifetime_count (counters w') k = lifetime_count (counters w) k).
Proof.
  unfold watch_ads, create_driver, try_except.
  unfold mbind at 1. unfold M_bind at 1. unfold mbind at 1. unfold M_bind at 1.
  destruct (drv_raises env (calls w)) as [e|] eqn:Edrv; cbn [mret M_ret].
  - eexists _, _. split; [reflexivity|]. split; [by left|].
    split; [intros _; left; by eauto|]. split; [intros; simpl; lia | done].
  - remember (next_call env w) as w0 eqn:Ew0.
    assert (Hc0 : counters w0 = counters w) by by rewrite Ew0.
    clear Ew0.
    destruct (watch_loop_spec env turns fuel proxy_id w0 Hfuel)
      as (r & w1 & Erun & Hr & Hhalt & Hm & Ho & _).
    rewrite Hc0 in Hm, Ho.
    unfold mbind, M_bind. rewrite Erun.
    destruct Hr as [-> | ->].
    + pose proof (post_driver_call env (λ _, True) EvQuit I) as Hq.
      destruct (driver_call env EvQuit w1) as [[[]|e|] w2] eqn:Equit;
        destruct (Hq _ _ _ Equit) as (Hc2 & _); cbn [mret M_ret];
        [| |by destruct (halts_driver_call env EvQuit w1); rewrite Equit].
      all: eexists _, _; split; [reflexivity|]; split; [by left|]; rewrite Hc2;
        split; [intros _; right; by apply Hhalt | by split].
    + eexists _, _. split; [reflexivity|]. split; [by right|]. split; [done|]. by split.
Qed.

Lemma watch_ads_stops_only_at_lifetime_cap_witness :
  ∃ r w', watch_ads demo_env 3 51 "proxy_1" world0 = (r, w') ∧
    (r = Ok () ∨ r = OutOfFuel) ∧
    (r = Ok () →
       (is_Some (drv_raises demo_env (calls world0)) ∧
        counters w' = counters world0 ∧ trace w' = trace world0) ∨
       MAX_TOTAL_VIEWS_PER_PROXY ≤ lifetime_count (counters w') "proxy_1") ∧
    (∀ k, lifetime_count (counters world0) k ≤ lifetime_count (counters w') k) ∧
    (∀ k, k ≠ "proxy_1"%string →
          window_count (counters w') k = window_count (counters world0) k ∧
          lifetime_count (counters w') k = lifetime_count (counters world0) k).
Proof. apply (watch_ads_stops_only_at_lifetime_cap demo_env 3 51 "proxy_1" world0). lia. Defined.

(** ** Invariants of the threads *)

Lemma getitem_is_Some k (d : gmap string Z) j :
  is_Some ((getitem k d).2 !! j) ↔ j = k ∨ is_Some (d !! j).
Proof.
  rewrite getitem_union, lookup_union_defaults.
  destruct (d !! j) as [v|] eqn:E.
  - split; [intros _; right; eauto | eauto].
  - case_decide as Hj.
    + apply list_elem_of_singleton in Hj. split; [by left | eauto].
    + split; [by intros [] | intros [->|[]]; [destruct Hj; by left | done]].
Qed.

Lemma iadd_is_Some k n (d : gmap string Z) j :
  is_Some (iadd k n d !! j) ↔ j = k ∨ is_Some (d !! j).
Proof.
  unfold iadd. rewrite (getitem_pair k d). unfold setitem.
  rewrite lookup_insert. case_decide as Hk.
  - subst. split; [by left | eauto].
  - rewrite getitem_is_Some. done.
Qed.

Lemma check_caps_keys p c k :
  is_Some (proxy_view_count (check_caps p c).2 !! k) ∨
  is_Some (proxy_total_count (check_caps p c).2 !! k) →
  k = p ∨ is_Some (proxy_view_count c !! k) ∨ is_Some (proxy_total_count c !! k).
Proof.
  unfold check_caps.
  rewrite (getitem_pair p (proxy_view_count c)).
  rewrite (getitem_pair p (getitem p (proxy_view_count c)).2).
  rewrite (getitem_pair p (proxy_total_count c)).
  repeat case_decide; cbn [snd proxy_view_count proxy_total_count];
    rewrite ?getitem_is_Some; tauto.
Qed.

Lemma record_view_keys p c k :
  is_Some (proxy_view_count (record_view p c) !! k) ∨
  is_Some (proxy_total_count (record_view p c) !! k) →
  k = p ∨ is_Some (proxy_view_count c !! k) ∨ is_Some (proxy_total_count c !! k).
Proof. unfold record_view; simpl. rewrite !iadd_is_Some. tauto. Qed.

Lemma reset_views_keys c k :
  is_Some (proxy_view_count (reset_views c) !! k) ↔ is_Some (proxy_view_count c !! k).
Proof.
  unfold reset_views; simpl. rewrite reset_keys_own, lookup_fmap.
  destruct (proxy_view_count c !! k); simpl; split; intros []; eauto; done.
Qed.

Lemma stats_keys c k :
  is_Some (proxy_view_count (get_proxy_stats c).2 !! k) ∨
  is_Some (proxy_total_count (get_proxy_stats c).2 !! k) →
  k ∈ PROXIES ∨ is_Some (proxy_view_count c !! k) ∨ is_Some (proxy_total_count c !! k).
Proof.
  unfold get_proxy_stats. rewrite stat_lines_spec. simpl.
  rewrite !lookup_union_defaults. intros H.
  destruct (decide (k ∈ PROXIES)) as [|Hn]; [by left|]. right.
  destruct (proxy_view_count c !! k), (proxy_total_count c !! k); eauto;
    try (rewrite !decide_False in H by done; by destruct H as [[]|[]]).
Qed.

Lemma spawn_all_is_Some (threads : gmap string PC) k :
  is_Some (spawn_all threads !! k) → k ∈ PROXIES ∨ is_Some (threads !! k).
Proof.
  unfold spawn_all. case_decide as Hem; [|by right]. subst threads.
  unfold PROXIES; cbn [foldl]. intros Hk. left.
  repeat (rewrite lookup_insert in Hk; case_decide;
          [subst k; apply list_elem_of_In; simpl; tauto|]).
  rewrite lookup_empty in Hk. by destruct Hk.
Qed.

Lemma spawn_all_twice (threads : gmap string PC) :
  spawn_all (spawn_all threads) = spawn_all threads.
Proof.
  unfold spawn_all at 1. case_decide as Hem; [|done].
  exfalso. unfold spawn_all in Hem. case_decide as Hem'; [|done]. subst threads.
  unfold PROXIES in Hem; cbn [foldl] in Hem.
  by apply insert_non_empty in Hem.
Qed.

Lemma step_sys_ok a s s' : step a s = Some s' → sys_ok s → sys_ok s'.
Proof.
  unfold sys_ok. intros Hs [Hcnt Hkeys].
  destruct a as [|p ok|p|p|p| |]; cbn [step] in Hs.
  - injection Hs as <-. cbn [shared active_threads]. split.
    + intros k. destruct (Hcnt k) as (H1 & H2 & H3). split; [done|]. split; [done|].
      intros Hk. apply spawn_all_lookup in Hk; auto.
    + intros k [Hk|[Hk|Hk]]; [apply Hkeys; auto..|].
      apply spawn_all_is_Some in Hk as [Hk|Hk]; [done | apply Hkeys; auto].
  - destruct (active_threads s !! p) as [[]|] eqn:Ep; try done. injection Hs as <-.
    split.
    + intros k. destruct (Hcnt k) as (H1 & H2 & H3). split; [done|]. split; [done|].
      rewrite set_pc_lookup. case_decide; [by destruct ok | done].
    + intros k [Hk|[Hk|Hk]]; [apply Hkeys; auto..|].
      rewrite set_pc_lookup in Hk. case_decide; [subst; apply Hkeys; rewrite Ep; eauto|].
      apply Hkeys; auto.
  - destruct (active_threads s !! p) as [[]|] eqn:Ep; try done.
    rewrite check_caps_triple in Hs. injection Hs as <-.
    cbn [shared set_pc set_shared active_threads]. split.
    + intros k. destruct (Hcnt k) as (H1 & H2 & H3).
      rewrite check_caps_window, check_caps_lifetime. split; [done|]. split; [done|].
      rewrite lookup_insert. case_decide as Hpk; [|done]. subst k.
      destruct (verdict_of p (shared s)) eqn:Ev; try done. intros _.
      rewrite check_caps_verdict in Ev. by apply verdict_for_allowed in Ev as [_ ?].
    + intros k [Hk|[Hk|Hk]].
      * destruct (check_caps_keys p (shared s) k) as [->|[?|?]]; auto;
          apply Hkeys; rewrite ?Ep; eauto.
      * destruct (check_caps_keys p (shared s) k) as [->|[?|?]]; auto;
          apply Hkeys; rewrite ?Ep; eauto.
      * rewrite lookup_insert in Hk. case_decide; [subst; apply Hkeys; rewrite Ep; eauto|].
        apply Hkeys; auto.
  - destruct (active_threads s !! p) as [[]|] eqn:Ep; try done. injection Hs as <-.
    cbn [shared set_pc set_shared active_threads]. split.
    + intros k. destruct (Hcnt k) as (H1 & H2 & H3).
      rewrite record_view_window, record_view_lifetime, lookup_insert.
      case_decide as Hpk.
      * subst k. specialize (H3 Ep). split; [lia|]. split; [lia|done].
      * split; [lia|]. split; [lia|]. intros Hk. specialize (H3 Hk). lia.
    + intros k [Hk|[Hk|Hk]].
      * destruct (record_view_keys p (shared s) k) as [->|[?|?]]; auto;
          apply Hkeys; rewrite ?Ep; eauto.
      * destruct (record_view_keys p (shared s) k) as [->|[?|?]]; auto;
          apply Hkeys; rewrite ?Ep; eauto.
      * rewrite lookup_insert in Hk. case_decide; [subst; apply Hkeys; rewrite Ep; eauto|].
        apply Hkeys; auto.
  - destruct (active_threads s !! p) as [[]|] eqn:Ep; try done. injection Hs as <-.
    cbn [shared set_pc active_threads]. split.
    + intros k. destruct (Hcnt k) as (H1 & H2 & H3). split; [done|]. split; [done|].
      rewrite lookup_insert. case_decide; done.
    + intros k [Hk|[Hk|Hk]]; [apply Hkeys; auto..|].
      rewrite lookup_insert in Hk. case_decide; [subst; apply Hkeys; rewrite Ep; eauto|].
      apply Hkeys; auto.
  - destruct (reset_thread s); [|done]. injection Hs as <-.
    cbn [shared set_shared active_threads]. split.
    + intros k. destruct (Hcnt k) as (H1 & H2 & H3).
      rewrite reset_views_window, reset_views_lifetime. split; [lia|]. done.
    + intros k [Hk|[Hk|Hk]]; [|apply Hkeys; auto..].
      rewrite reset_views_keys in Hk. apply Hkeys; auto.
  - injection Hs as <-. cbn [shared set_shared active_threads]. split.
    + intros k. destruct (Hcnt k) as (H1 & H2 & H3).
      rewrite stats_window, stats_lifetime. done.
    + intros k [Hk|[Hk|Hk]]; [| |apply Hkeys; auto].
      * destruct (stats_keys (shared s) k) as [?|[?|?]]; auto; apply Hkeys; auto.
      * destruct (stats_keys (shared s) k) as [?|[?|?]]; auto; apply Hkeys; auto.
Qed.

Lemma init_sys_ok : sys_ok init_sys.
Proof.
  split.
  - intros k. unfold MAX_TOTAL_VIEWS_PER_PROXY. cbn. repeat split; done.
  - intros k [Hk|[Hk|Hk]]; cbn in Hk; rewrite lookup_empty in Hk; by destruct Hk.
Qed.

Lemma run_sys_ok schedule s s' : run schedule s = Some s' → sys_ok s → sys_ok s'.
Proof.
  revert s. induction schedule as [|a rest IH]; intros s; cbn [run].
  - intros [= <-]. done.
  - destruct (step a s) as [s1|] eqn:E; [|done]. intros Hr Hinv.
    eapply IH; [done|]. by eapply step_sys_ok.
Qed.

Lemma fifty_hours_run : run fifty_hours init_sys = Some after_fifty_hours.
Proof. vm_compute. reflexivity. Qed.

(** X7: in every state the threads can reach from a fresh process, no
    identity's lifetime count is above the cap of 5000: a view is only
    recorded by the worker that passed the check with the count below the
    cap, and nobody else raises that identity's count in between. *)
Theorem lifetime_cap_never_exceeded
    (schedule : list Action) (s : Sys) (k : string)
    (Hrun : run schedule init_sys = Some s) :
  lifetime_count (shared s) k ≤ MAX_TOTAL_VIEWS_PER_PROXY.
Proof.
  destruct (run_sys_ok _ _ _ Hrun init_sys_ok) as [Hcnt _].
  by destruct (Hcnt k) as (_ & ? & _).
Qed.

Lemma lifetime_cap_never_exceeded_witness :
  run fifty_hours init_sys = Some after_fifty_hours ∧
  lifetime_count (shared after_fifty_hours) "proxy_1" ≤ MAX_TOTAL_VIEWS_PER_PROXY.
Proof.
  split; [exact fifty_hours_run|].
  apply (lifetime_cap_never_exceeded fifty_hours after_fifty_hours "proxy_1").
  exact fifty_hours_run.
Defined.

(** X8: in every reachable state each identity's window count is
    between 0 and its lifetime count: both grow together and only the
    window count is reset. *)
Theorem window_count_within_lifetime_count
    (schedule : list Action) (s : Sys) (k : string)
    (Hrun : run schedule init_sys = Some s) :
  0 ≤ window_count (shared s) k ≤ lifetime_count (shared s) k.
Proof.
  destruct (run_sys_ok _ _ _ Hrun init_sys_ok) as [Hcnt _].
  by destruct (Hcnt k) as (? & _).
Qed.

Lemma window_count_within_lifetime_count_witness :
  0 ≤ window_count (shared after_fifty_hours) "proxy_1"
    ≤ lifetime_count (shared after_fifty_hours) "proxy_1".
Proof.
  apply (window_count_within_lifetime_count fifty_hours after_fifty_hours "proxy_1").
  exact fifty_hours_run.
Defined.

(** X9: in every reachable state only configured identities have an
    entry in either counter mapping or a worker thread. *)
Theorem only_configured_identities
    (schedule : list Action) (s : Sys) (k : string)
    (Hrun : run schedule init_sys = Some s)
    (Hknown : is_Some (proxy_view_count (shared s) !! k) ∨
              is_Some (proxy_total_count (shared s) !! k) ∨
              is_Some (active_threads s !! k)) :
  k ∈ PROXIES.
Proof.
  destruct (run_sys_ok _ _ _ Hrun init_sys_ok) as [_ Hkeys]. by apply Hkeys.
Qed.

Lemma only_configured_identities_witness : "proxy_1"%string ∈ PROXIES.
Proof.
  apply (only_configured_identities fifty_hours after_fifty_hours "proxy_1").
  - exact fifty_hours_run.
  - left. vm_compute. eauto.
Defined.

Lemma spawn_all_empty k :
  spawn_all ∅ !! k = if decide (k ∈ PROXIES) then Some Starting else None.
Proof.
  unfold spawn_all. rewrite decide_True by done. unfold PROXIES; cbn [foldl].
  repeat (rewrite lookup_insert; case_decide;
          [subst k; rewrite decide_True by (apply list_elem_of_In; simpl; tauto); done|]).
  rewrite lookup_empty, decide_False; [done|].
  intros Hin%list_elem_of_In. simpl in Hin. intuition congruence.
Qed.

(** X10: the start handler is idempotent: it always succeeds, leaves
    the counters alone, spawns one worker per configured identity when no
    worker is registered and none otherwise, and a second start changes
    nothing. *)
Theorem start_is_idempotent (s : Sys) :
  ∃ s1, step ActStart s = Some s1 ∧
        step ActStart s1 = Some s1 ∧
        shared s1 = shared s ∧
        (active_threads s ≠ ∅ → active_threads s1 = active_threads s) ∧
        (active_threads s = ∅ →
         ∀ k, active_threads s1 !! k = if decide (k ∈ PROXIES) then Some Starting else None).
Proof.
  eexists. split; [reflexivity|]. cbn [step shared active_threads reset_thread].
  split; [by rewrite spawn_all_twice|]. split; [done|]. split.
  - intros Hne. unfold spawn_all. by rewrite decide_False.
  - intros ->. apply spawn_all_empty.
Qed.

(** ** The status read and the reset, composed *)

Lemma union_defaults_twice (d : gmap string Z) ks :
  (d ∪ defaults ks) ∪ defaults ks = d ∪ defaults ks.
Proof.
  apply map_eq; intros k. rewrite !lookup_union_defaults.
  destruct (d !! k); [done|]. by case_decide.
Qed.

(** X11: a second status read right after a first renders the same
    text and changes nothing: the first read has given every configured
    identity its entries. *)
Theorem status_read_twice (c : Counters) :
  get_proxy_stats (get_proxy_stats c).2 = get_proxy_stats c.
Proof.
  unfold get_proxy_stats. rewrite (stat_lines_spec PROXIES c). cbn [snd fst].
  rewrite stat_lines_spec. cbn [proxy_view_count proxy_total_count].
  rewrite !union_defaults_twice. f_equal. f_equal.
  apply list_fmap_ext. intros i k Hk. unfold window_count, lifetime_count.
  cbn [proxy_view_count proxy_total_count]. by rewrite !peek_union_defaults.
Qed.

(** X12: right after the hourly reset the window never stands in the
    way: the check allows every identity whose lifetime count is below
    the cap and halts every other. *)
Theorem verdict_after_reset (c : Counters) (k : string) :
  verdict_of k (reset_views c) =
  if decide (MAX_TOTAL_VIEWS_PER_PROXY ≤ lifetime_count c k)
  then LifetimeExhausted else Allowed.
Proof.
  rewrite check_caps_verdict, reset_views_window, reset_views_lifetime.
  unfold verdict_for. rewrite decide_False by (unfold MAX_VIEWS_PER_HOUR; lia). done.
Qed.

(** X13: identities are independent: recording a view for one identity,
    and likewise running its cap check, changes neither the window count,
    nor the lifetime count, nor the verdict of any other identity. *)
Theorem identities_are_independent
    (c : Counters) (k j : string)
    (Hother : k ≠ j) :
  verdict_of j (record_view k c) = verdict_of j c ∧
  verdict_of j (check_caps k c).2 = verdict_of j c ∧
  window_count (record_view k c) j = window_count c j ∧
  lifetime_count (record_view k c) j = lifetime_count c j ∧
  window_count (check_caps k c).2 j = window_count c j ∧
  lifetime_count (check_caps k c).2 j = lifetime_count c j.
Proof.
  rewrite !check_caps_verdict, record_view_window, record_view_lifetime,
    !check_caps_window, !check_caps_lifetime.
  rewrite !decide_False by done. rewrite !Z.add_0_r. done.
Qed.

Lemma identities_are_independent_witness :
  verdict_of "proxy_2" (record_view "proxy_1" exhausted_both)
    = verdict_of "proxy_2" exhausted_both ∧
  verdict_of "proxy_2" (check_caps "proxy_1" exhausted_both).2
    = verdict_of "proxy_2" exhausted_both ∧
  window_count (record_view "proxy_1" exhausted_both) "proxy_2"
    = window_count exhausted_both "proxy_2" ∧
  lifetime_count (record_view "proxy_1" exhausted_both) "proxy_2"
    = lifetime_count exhausted_both "proxy_2" ∧
  window_count (check_caps "proxy_1" exhausted_both).2 "proxy_2"
    = window_count exhausted_both "proxy_2" ∧
  lifetime_count (check_caps "proxy_1" exhausted_both).2 "proxy_2"
    = lifetime_count exhausted_both "proxy_2".
Proof.
  apply (identities_are_independent exhausted_both "proxy_1" "proxy_2"). discriminate.
Defined.

(** ** What the matcher returns *)

Lemma keys_grow (st st' : Cands) new k :
  st'.1 = st.1 ++ new → k ∈ keys st → k ∈ keys st'.
Proof. intros E Hk. unfold keys in *. rewrite E, fmap_app. apply elem_of_app. by left. Qed.

Lemma add_candidate_small st el e new :
  (add_candidate st el).1 = st.1 ++ new → e ∈ new → e = el.
Proof.
  unfold add_candidate. case_decide; cbn [fst]; intros E Hin.
  - rewrite <- (app_nil_r st.1) in E at 1. apply app_inv_head in E. subst new.
    by apply elem_of_nil in Hin.
  - apply app_inv_head in E. subst new. by apply list_elem_of_singleton in Hin.
Qed.

(** The fallback only appends clickable elements whose size reads as at
    most 120 by 120. *)
Lemma scan_small_provenance els st :
  ∃ new, (scan_small els st).2.1 = st.1 ++ new ∧
         ∀ e, e ∈ new → e ∈ els ∧ small e.
Proof.
  revert st. induction els as [|el els IH]; intros st; cbn [scan_small].
  - exists []. rewrite app_nil_r. split; [done|]. intros e He. by apply elem_of_nil in He.
  - destruct (el_size el) as [[width height]|ex] eqn:Esz.
    + destruct (IH (if decide (width ≤ 120 ∧ height ≤ 120) then add_candidate st el else st))
        as (n2 & E2 & H2).
      case_decide as Hsmall.
      * destruct (add_candidate_grows st el) as (n1 & E1 & _).
        exists (n1 ++ n2). rewrite E2, E1, app_assoc. split; [done|].
        intros e [He|He]%elem_of_app.
        -- rewrite (add_candidate_small st el e n1 E1 He). split; [by left|].
           exists width, height. by destruct Hsmall.
        -- destruct (H2 e He). split; [by right | done].
      * exists n2. split; [done|]. intros e He. destruct (H2 e He). split; [by right | done].
    + exists []. rewrite app_nil_r. split; [done|]. intros e He. by apply elem_of_nil in He.
Qed.

Lemma scan_small_covers els st e :
  cands_ok st → Forall size_readable els → e ∈ els → small e →
  elid e ∈ keys (scan_small els st).2.
Proof.
  revert st. induction els as [|el els IH]; intros st Hok Hread Hin Hsmall.
  - by apply elem_of_nil in Hin.
  - apply Forall_cons in Hread as [[[width height] Esz] Hread].
    cbn [scan_small]. rewrite Esz.
    apply elem_of_cons in Hin as [->|Hin].
    + destruct Hsmall as (w0 & h0 & Esz' & Hw & Hh). rewrite Esz in Esz'.
      injection Esz' as <- <-. rewrite decide_True by done.
      destruct (scan_small_provenance els (add_candidate st el)) as (new & E & _).
      eapply keys_grow; [exact E|]. by apply add_candidate_covers.
    + apply IH; [|done..]. case_decide; [by apply add_candidate_ok | done].
Qed.

Lemma scan_small_app els1 els2 st :
  Forall size_readable els1 →
  scan_small (els1 ++ els2) st = scan_small els2 (scan_small els1 st).2.
Proof.
  revert st. induction els1 as [|el els1 IH]; intros st Hread; [done|].
  apply Forall_cons in Hread as [[[width height] Esz] Hread].
  cbn [app scan_small]. rewrite Esz. by apply IH.
Qed.

Lemma heuristics_result_covers env n hs st j h e :
  cands_ok st → hs !! j = Some h → e ∈ answer env (n + j) h.2 →
  elid e ∈ keys (heuristics_result env n hs st).
Proof.
  revert n st j. induction hs as [|h0 hs IH]; intros n st j Hok Hj Hin; [done|].
  cbn [heuristics_result]. destruct j as [|j].
  - injection Hj as ->. rewrite Nat.add_0_r in Hin.
    destruct (heuristics_result_grows env (S n) hs (scan (answer env n h.2) st))
      as (new & E & _); [by apply scan_ok|].
    eapply keys_grow; [exact E|]. by apply scan_covers.
  - apply (IH (S n) _ j); [by apply scan_ok | done|].
    by replace (S n + j)%nat with (n + S j)%nat by lia.
Qed.

(** X14: every element the matcher returns was answered by one of the
    heuristic queries, or was answered by the clickable query and has a
    size that reads as at most 120 by 120: a clickable element that is
    wider or higher and matches no heuristic is never returned. *)
Theorem candidates_come_from_queries
    (env : Env) (hs : list (string * string)) (w w' : World) (found : list Element)
    (e : Element)
    (Hrun : find_candidates env hs w = (Ok found, w'))
    (Hin : e ∈ found) :
  (∃ j h, hs !! j = Some h ∧ e ∈ answer env (calls w + j) h.2) ∨
  (e ∈ answer env (calls w + length hs) CLICKABLE_SELECTOR ∧ small e).
Proof.
  rewrite find_candidates_eq in Hrun. injection Hrun as <- _.
  destruct (heuristics_result_grows env (calls w) hs no_cands no_cands_ok)
    as (n1 & E1 & H1). cbn [no_cands fst app] in E1.
  unfold fallback_result, answer in *.
  destruct (ui env (calls w + length hs) CLICKABLE_SELECTOR) as [clickable|ex].
  - destruct (scan_small_provenance clickable
                (heuristics_result env (calls w) hs no_cands)) as (n2 & E2 & H2).
    rewrite E2, E1 in Hin. apply elem_of_app in Hin as [Hin|Hin].
    + left. by apply H1.
    + right. by apply H2.
  - rewrite E1 in Hin. left. by apply H1.
Qed.

Lemma candidates_come_from_queries_witness :
  (∃ j h, CROSS_BUTTON_HEURISTICS !! j = Some h ∧
          dot ∈ answer demo_env (calls world0 + j) h.2) ∨
  (dot ∈ answer demo_env (calls world0 + length CROSS_BUTTON_HEURISTICS) CLICKABLE_SELECTOR ∧
   small dot).
Proof.
  apply (candidates_come_from_queries demo_env CROSS_BUTTON_HEURISTICS world0
           (find_candidates demo_env CROSS_BUTTON_HEURISTICS world0).2
           [close_btn; skip_btn; dot] dot).
  - vm_compute. reflexivity.
  - right. right. left.
Defined.

(** X15: the matcher misses nothing it was shown: the key of every
    element a heuristic query answered with is among the keys of the
    result, and so is the key of every small element the clickable query
    answered with, provided every size of that answer could be read. *)
Theorem candidates_cover_answers
    (env : Env) (hs : list (string * string)) (w w' : World) (found : list Element)
    (e : Element)
    (Hrun : find_candidates env hs w = (Ok found, w'))
    (Hanswered :
       (∃ j h, hs !! j = Some h ∧ e ∈ answer env (calls w + j) h.2) ∨
       (e ∈ answer env (calls w + length hs) CLICKABLE_SELECTOR ∧ small e ∧
        Forall size_readable (answer env (calls w + length hs) CLICKABLE_SELECTOR))) :
  elid e ∈ elid <$> found.
Proof.
  rewrite find_candidates_eq in Hrun. injection Hrun as <- _.
  assert (Hok : cands_ok (heuristics_result env (calls w) hs no_cands))
    by apply heuristics_result_ok, no_cands_ok.
  destruct Hanswered as [(j & h & Hj & Hin)|(Hin & Hsmall & Hread)].
  - destruct (fallback_result_grows env (calls w + length hs)
                (heuristics_result env (calls w) hs no_cands)) as (new & E).
    eapply (keys_grow _ _ _ _ E).
    by eapply heuristics_result_covers; [apply no_cands_ok|..].
  - unfold fallback_result, answer in *.
    destruct (ui env (calls w + length hs) CLICKABLE_SELECTOR) as [clickable|ex];
      [|by apply elem_of_nil in Hin].
    by apply scan_small_covers.
Qed.

Lemma candidates_cover_answers_witness :
  elid skip_btn ∈ elid <$> [close_btn; skip_btn; dot].
Proof.
  apply (candidates_cover_answers demo_env CROSS_BUTTON_HEURISTICS world0
           (find_candidates demo_env CROSS_BUTTON_HEURISTICS world0).2
           [close_btn; skip_btn; dot] skip_btn).
  - vm_compute. reflexivity.
  - left. exists 4%nat, (heuristic 4). split; [reflexivity|]. left.
Defined.

(** X16: a size read that raises during the fallback stops the fallback
    but loses nothing: the fallback returns normally with the candidates
    found so far plus the small ones among the clickable elements before
    the unreadable one; the elements after it are not looked at. *)
Theorem fallback_stops_at_unreadable_size
    (env : Env) (st : Cands) (w : World) (before after : list Element)
    (bad : Element) (ex : exn)
    (Hanswer : ui env (calls w) CLICKABLE_SELECTOR = Returns (before ++ bad :: after))
    (Hreadable : Forall size_readable before)
    (Hbad : el_size bad = Throws ex) :
  (small_clickable_fallback env st w).1 = Ok (scan_small before st).2 ∧
  ∃ new, (scan_small before st).2.1 = st.1 ++ new ∧
         ∀ e, e ∈ new → e ∈ before ∧ small e.
Proof.
  split; [|apply scan_small_provenance].
  rewrite fallback_eq. cbn [fst]. unfold fallback_result. rewrite Hanswer.
  rewrite scan_small_app by done. cbn [scan_small]. by rewrite Hbad.
Qed.

Lemma fallback_stops_at_unreadable_size_witness :
  (small_clickable_fallback stale_env no_cands world0).1
    = Ok (scan_small [close_btn] no_cands).2 ∧
  ∃ new, (scan_small [close_btn] no_cands).2.1 = no_cands.1 ++ new ∧
         ∀ e, e ∈ new → e ∈ [close_btn] ∧ small e.
Proof.
  apply (fallback_stops_at_unreadable_size stale_env no_cands world0
           [close_btn] [skip_btn] stale (WebDriverException "stale element")).
  - reflexivity.
  - constructor; [|constructor]. by exists (40, 40).
  - reflexivity.
Defined.

(** ** The tap primitive *)

Lemma randint_eq env a b w :
  a ≤ b →
  randint env a b w =
  (Ok (a + rnd env (draws w) `mod` (b - a + 1)),
   mkWorld (counters w) (clock w) (calls w) (S (draws w)) (trace w)).
Proof. intros Hab. unfold randint. by rewrite decide_False by lia. Qed.

Lemma press_eq env x y w :
  ∃ w1 d,
    try_except
      (duration ← uniform_ms env HUMAN_SLEEP_VARIANCE.tap.1 HUMAN_SLEEP_VARIANCE.tap.2;
       driver_call env (EvTap x y duration))
      (λ _, try_except (driver_call env (EvTouchTap x y)) (λ _, mret ())) w = (Ok (), w1) ∧
    trace w1 = presses env (calls w) x y d ++ trace w ∧
    counters w1 = counters w ∧ 350 ≤ d ≤ 1500.
Proof.
  pose proof (Z.mod_pos_bound (rnd env (draws w)) (1500 - 350 + 1)) as Hd.
  unfold presses, try_except, driver_call, uniform_ms, draw, mbind, M_bind, mret, M_ret.
  cbn [calls fst snd HUMAN_SLEEP_VARIANCE.tap].
  destruct (drv_raises env (calls w)) as [e1|].
  - cbn [calls next_call]. destruct (drv_raises env (S (calls w))) as [e2|];
      eexists _, (350 + rnd env (draws w) `mod` (1500 - 350 + 1));
      (split; [reflexivity|]); (split; [reflexivity|]); split; [done|lia|done|lia].
  - eexists _, (350 + rnd env (draws w) `mod` (1500 - 350 + 1)).
    split; [reflexivity|]. split; [reflexivity|]. split; [done|lia].
Qed.

(** X17: when the location and the size of the element can be read,
    [human_tap] never raises, whatever the driver does: it presses once
    with [driver.tap]; if that raises it presses the same point through
    the [TouchAction] fallback; if that raises too it presses nothing.
    The point is offset from the corner by the jitter of each axis, and
    the call ends with one sleep of 350 to 1500 ms. *)
Theorem human_tap_swallows_driver_failures
    (env : Env) (element : Element) (w : World) (loc size : Z * Z)
    (Hloc : el_location element = Returns loc)
    (Hsize : el_size element = Returns size) :
  ∃ w' x y d s,
    human_tap env element w = (Ok (), w') ∧
    trace w' = EvSleep s :: presses env (calls w) x y d ++ trace w ∧
    jitter_range size.1 (x - loc.1) ∧ jitter_range size.2 (y - loc.2) ∧
    350 ≤ d ≤ 1500 ∧ 350 ≤ s ≤ 1500 ∧
    counters w' = counters w.
Proof.
  pose proof (Z.mod_pos_bound (rnd env (draws w)) (Z.max 6 (size.1 - 10) - 5 + 1)) as Hx.
  pose proof (Z.mod_pos_bound (rnd env (S (draws w))) (Z.max 6 (size.2 - 10) - 5 + 1)) as Hy.
  unfold human_tap, jitter. rewrite Hloc, Hsize.
  rewrite (bind_step _ _ _ _ _ (eq_refl : read (Returns loc) w = (Ok loc, w))).
  rewrite (bind_step _ _ _ _ _ (eq_refl : read (Returns size) w = (Ok size, w))).
  rewrite (bind_step _ _ _ _ _ (randint_eq env 5 (Z.max 6 (size.1 - 10)) w ltac:(lia))).
  rewrite (bind_step _ _ _ _ _ (randint_eq env 5 (Z.max 6 (size.2 - 10)) _ ltac:(lia))).
  cbn [counters clock calls draws trace].
  set (x := loc.1 + (5 + rnd env (draws w) `mod` (Z.max 6 (size.1 - 10) - 5 + 1))).
  set (y := loc.2 + (5 + rnd env (S (draws w)) `mod` (Z.max 6 (size.2 - 10) - 5 + 1))).
  remember (mkWorld (counters w) (clock w) (calls w) (S (S (draws w))) (trace w)) as w2 eqn:Ew2.
  destruct (press_eq env x y w2) as (w3 & d & Epress & Etr3 & Hc3 & Hd).
  rewrite (bind_step _ _ _ _ _ Epress), random_sleep_eq.
  destruct (slept_facts env 350 1500 w3) as (Hc4 & _ & _ & Etr4).
  pose proof (sleep_length_range env 350 1500 w3 ltac:(lia)) as Hs.
  exists (slept env 350 1500 w3), x, y, d, (sleep_length env 350 1500 w3).
  split; [reflexivity|]. split; [rewrite Etr4, Etr3, Ew2; done|].
  unfold jitter_range, x, y. rewrite Hc4, Hc3, Ew2. cbn [counters].
  repeat split; lia.
Qed.

Lemma human_tap_swallows_driver_failures_witness :
  ∃ w' x y d s,
    human_tap stale_env close_btn world0 = (Ok (), w') ∧
    trace w' = EvSleep s :: presses stale_env (calls world0) x y d ++ trace world0 ∧
    jitter_range (40, 40).1 (x - (900, 40).1) ∧ jitter_range (40, 40).2 (y - (900, 40).2) ∧
    350 ≤ d ≤ 1500 ∧ 350 ≤ s ≤ 1500 ∧
    counters w' = counters world0.
Proof.
  apply (human_tap_swallows_driver_failures stale_env close_btn world0 (900, 40) (40, 40));
    reflexivity.
Defined.

Example tap_falls_back_on_touch_action :
  trace (human_tap stale_env close_btn world0).2 = [EvSleep 350; EvTouchTap 905 45].
Proof. vm_compute. reflexivity. Qed.

(** X18: when the location or the size of the element cannot be read,
    [human_tap] raises that error at once: nothing is pressed, no random
    number is drawn, no driver call is made and nothing sleeps. *)
Theorem human_tap_unreadable_geometry
    (env : Env) (element : Element) (w : World) (ex : exn)
    (Hgeometry : el_location element = Throws ex ∨
                 (∃ loc, el_location element = Returns loc) ∧ el_size element = Throws ex) :
  human_tap env element w = (Raise ex, w).
Proof.
  unfold human_tap, read. destruct Hgeometry as [Hloc|[[loc Hloc] Hsize]].
  - by rewrite Hloc.
  - by rewrite Hloc, Hsize.
Qed.

Lemma human_tap_unreadable_geometry_witness :
  human_tap demo_env stale world0 = (Raise (WebDriverException "stale element"), world0).
Proof.
  apply (human_tap_unreadable_geometry demo_env stale world0).
  right. split; [by exists (0, 0) | reflexivity].
Defined.

(** ** Pacing *)

Lemma random_sleep_run
    (env : Env) (range : Z * Z) (w : World)
    (Hlo : 0 ≤ range.1)
    (Hle : range.1 ≤ range.2) :
  ∃ d w', random_sleep env range w = (Ok (), w') ∧
    range.1 ≤ d ≤ range.2 ∧
    clock w' = clock w + d ∧
    trace w' = EvSleep d :: trace w ∧
    calls w' = calls w ∧ counters w' = counters w.
Proof.
  exists (sleep_length env range.1 range.2 w), (slept env range.1 range.2 w).
  pose proof (sleep_length_range env range.1 range.2 w Hle) as Hd.
  destruct (slept_facts env range.1 range.2 w) as (Hc & Hk & Hn & Ht).
  split; [apply random_sleep_eq|]. split; [done|]. split; [lia|]. done.
Qed.

(** X19: [random_sleep] on a range of non-negative bounds sleeps once,
    for a time within the range, and does nothing else: the clock moves
    on by exactly that time, no driver call is made, the counters are
    left alone and nothing is raised. *)
Theorem random_sleep_within_range
    (env : Env) (range : Z * Z) (w : World)
    (Hlo : 0 ≤ range.1)
    (Hle : range.1 ≤ range.2) :
  ∃ d w', random_sleep env range w = (Ok (), w') ∧
    range.1 ≤ d ≤ range.2 ∧
    clock w' = clock w + d ∧
    trace w' = EvSleep d :: trace w ∧
    calls w' = calls w ∧ counters w' = counters w.
Proof.
  exists (sleep_length env range.1 range.2 w), (slept env range.1 range.2 w).
  pose proof (sleep_length_range env range.1 range.2 w Hle) as Hd.
  destruct (slept_facts env range.1 range.2 w) as (Hc & Hk & Hn & Ht).
  split; [apply random_sleep_eq|]. split; [done|]. split; [lia|]. done.
Qed.

Lemma random_sleep_within_range_witness :
  ∃ d w', random_sleep demo_env HUMAN_SLEEP_VARIANCE.between_ads world0 = (Ok (), w') ∧
    HUMAN_SLEEP_VARIANCE.between_ads.1 ≤ d ≤ HUMAN_SLEEP_VARIANCE.between_ads.2 ∧
    clock w' = clock world0 + d ∧
    trace w' = EvSleep d :: trace world0 ∧
    calls w' = calls world0 ∧ counters w' = counters world0.
Proof.
  apply (random_sleep_within_range demo_env HUMAN_SLEEP_VARIANCE.between_ads world0);
    simpl; lia.
Defined.

(** X20: [maybe_idle] never raises and touches neither the driver nor
    the counters; it idles exactly when the draw falls below the idle
    chance of 10 in 100, and then sleeps once for 30 to 80 seconds;
    otherwise it lets no time pass. *)
Theorem maybe_idle_spec (env : Env) (w : World) :
  ∃ w', maybe_idle env w = (Ok (), w') ∧
    calls w' = calls w ∧ counters w' = counters w ∧
    if decide (rnd env (draws w) `mod` 100 < HUMAN_SLEEP_VARIANCE.idle_chance)
    then ∃ t, 30000 ≤ t ≤ 80000 ∧ trace w' = EvSleep t :: trace w ∧ clock w' = clock w + t
    else trace w' = trace w ∧ clock w' = clock w.
Proof.
  unfold maybe_idle, random_pct.
  unfold mbind at 1. unfold M_bind at 1. unfold mbind at 1. unfold M_bind at 1.
  cbn [draw mret M_ret].
  case_decide as Hidle.
  - remember (mkWorld (counters w) (clock w) (calls w) (S (draws w)) (trace w)) as w1 eqn:Ew1.
    change ((t ← uniform_ms env HUMAN_SLEEP_VARIANCE.idle_time.1
                   HUMAN_SLEEP_VARIANCE.idle_time.2; time_sleep t) w1)
      with (random_sleep env HUMAN_SLEEP_VARIANCE.idle_time w1).
    destruct (random_sleep_run env HUMAN_SLEEP_VARIANCE.idle_time w1)
      as (d & w' & E & Hd & Hk & Ht & Hn & Hc); [simpl; lia..|].
    exists w'. split; [done|]. rewrite Hn, Hc, Ew1. split; [done|]. split; [done|].
    exists d. rewrite Ht, Hk, Ew1. done.
  - eexists. split; [reflexivity|]. done.
Qed.

Lemma run_randint env a b w :
  a ≤ b →
  ∃ v w', randint env a b w = (Ok v, w') ∧ a ≤ v ≤ b ∧
          trace w' = trace w ∧ counters w' = counters w ∧
          calls w' = calls w ∧ clock w' = clock w.
Proof.
  intros Hab. eexists _, _. split; [by apply randint_eq|].
  pose proof (Z.mod_pos_bound (rnd env (draws w)) (b - a + 1)). split; [lia | done].
Qed.

Lemma run_curve env x1 y1 x2 y2 steps w :
  ∃ pts w', curve env x1 y1 x2 y2 steps w = (Ok pts, w') ∧
            length pts = length steps ∧
            trace w' = trace w ∧ counters w' = counters w ∧
            calls w' = calls w ∧ clock w' = clock w.
Proof.
  revert w. induction steps as [|i rest IH]; intros w; cbn [curve].
  - by eexists _, _.
  - destruct (run_randint env (-10) 10 w) as (jx & w1 & E1 & _ & Ht1 & Hc1 & Hn1 & Hk1); [lia|].
    destruct (run_randint env (-10) 10 w1) as (jy & w2 & E2 & _ & Ht2 & Hc2 & Hn2 & Hk2); [lia|].
    destruct (IH w2) as (pts & w3 & E3 & Hlen & Ht3 & Hc3 & Hn3 & Hk3).
    rewrite (bind_step _ _ _ _ _ E1), (bind_step _ _ _ _ _ E2), (bind_step _ _ _ _ _ E3).
    eexists _, _. split; [reflexivity|]. cbn [length]. repeat split; congruence.
Qed.

(** X21: [advanced_human_swipe] never raises, also when the driver
    does, and leaves counters alone; it emits at most one swipe, of six
    points, starting inside the rectangle from (100, 300) to (300, 800)
    and lasting 800 to 1800 ms, and makes exactly one driver call. *)
Theorem advanced_human_swipe_spec (env : Env) (w : World) :
  ∃ w' new, advanced_human_swipe env w = (Ok (), w') ∧
    trace w' = new ++ trace w ∧
    Forall swipe_event new ∧ (length new ≤ 1)%nat ∧
    (drv_raises env (calls w) = None → length new = 1%nat) ∧
    calls w' = S (calls w) ∧ counters w' = counters w.
Proof.
  unfold advanced_human_swipe.
  destruct (run_randint env 100 300 w) as (x1 & w1 & E1 & Hx1 & Ht1 & Hc1 & Hn1 & _); [lia|].
  destruct (run_randint env 300 800 w1) as (y1 & w2 & E2 & Hy1 & Ht2 & Hc2 & Hn2 & _); [lia|].
  destruct (run_randint env (-50) 150 w2) as (dx & w3 & E3 & _ & Ht3 & Hc3 & Hn3 & _); [lia|].
  destruct (run_randint env (-100) 250 w3) as (dy & w4 & E4 & _ & Ht4 & Hc4 & Hn4 & _); [lia|].
  destruct (run_randint env 800 1800 w4) as (dur & w5 & E5 & Hdur & Ht5 & Hc5 & Hn5 & _); [lia|].
  rewrite (bind_step _ _ _ _ _ E1), (bind_step _ _ _ _ _ E2), (bind_step _ _ _ _ _ E3),
    (bind_step _ _ _ _ _ E4), (bind_step _ _ _ _ _ E5).
  destruct (run_curve env x1 y1 (x1 + dx) (y1 + dy) [1; 2; 3; 4; 5] w5)
    as (pts & w6 & E6 & Hlen & Ht6 & Hc6 & Hn6 & _).
  unfold try_except. rewrite (bind_step _ _ _ _ _ E6). unfold driver_call.
  assert (Hcalls : calls w6 = calls w) by congruence.
  assert (Htr : trace w6 = trace w) by congruence.
  assert (Hcnt : counters w6 = counters w) by congruence.
  rewrite Hcalls. destruct (drv_raises env (calls w)) as [e|].
  - eexists _, []. split; [reflexivity|]. cbn. rewrite Hcalls.
    repeat split; try done; try constructor; try lia; congruence.
  - eexists _, [EvSwipe ((x1, y1) :: pts) dur]. split; [reflexivity|]. cbn.
    rewrite Htr, Hcalls. split; [done|]. split.
    { constructor; [|constructor]. cbn. repeat split; (lia || done). }
    repeat split; try done; try lia; congruence.
Qed.

Lemma post_device_event env :
  post device_event (@any_value unit) (simulate_device_event env).
Proof.
  unfold simulate_device_event.
  eapply post_bind; [apply post_random_pct|]. intros r _.
  apply post_try; [|intros _; by apply post_ret].
  repeat case_decide.
  - eapply post_bind with (Q := any_value); [by apply post_driver_call|]. intros _ _.
    eapply post_bind; [by apply (post_uniform_ms env device_event 1000 4000)|].
    intros d Hd. cbn beta in Hd.
    eapply post_bind with (Q := any_value); [apply post_time_sleep; cbn; lia|]. intros _ _.
    by apply post_driver_call.
  - eapply post_bind with (Q := any_value); [apply post_driver_call; by left|]. intros _ _.
    eapply post_bind; [by apply (post_uniform_ms env device_event 500 2000)|].
    intros d Hd. cbn beta in Hd.
    eapply post_bind with (Q := any_value); [apply post_time_sleep; cbn; lia|]. intros _ _.
    apply post_driver_call. by right.
  - by apply post_ret.
Qed.

(** X22: [simulate_device_event] never raises, also when the driver
    does, and leaves the counters alone; all it may do is press the Home
    key (code 3), relaunch the app, rotate to landscape or portrait, and
    sleep between half a second and four seconds; when the draw is 25 in
    100 or above it does nothing. *)
Theorem simulate_device_event_spec (env : Env) (w : World) :
  ∃ w' new, simulate_device_event env w = (Ok (), w') ∧
    trace w' = new ++ trace w ∧ Forall device_event new ∧
    counters w' = counters w ∧
    (25 ≤ rnd env (draws w) `mod` 100 → new = [] ∧ clock w' = clock w ∧ calls w' = calls w).
Proof.
  destruct (returns_simulate_device_event env w) as ([] & w' & Erun).
  destruct (post_device_event env _ _ _ Erun) as (Hc & _ & _ & (new & Etr & Hall) & _).
  exists w', new. split; [done|]. split; [done|]. split; [done|]. split; [done|].
  intros Hr. revert Erun. unfold simulate_device_event, random_pct.
  unfold mbind at 1. unfold M_bind at 1. unfold mbind at 1. unfold M_bind at 1.
  cbn [draw mret M_ret]. rewrite !decide_False by lia.
  unfold try_except. cbn [mret M_ret]. intros [= <-].
  cbn [trace] in Etr. split; [|done].
  apply (f_equal length) in Etr. rewrite length_app in Etr.
  destruct new; [done | simpl in Etr; lia].
Qed.

(** ** The reset ticker *)

(** The wait is positive, at most an hour, and ends on a full hour. *)
Lemma wait_time_bounds now :
  0 < wait_time now ≤ HOUR_MS ∧ (now + wait_time now) `mod` HOUR_MS = 0.
Proof.
  unfold wait_time, next_hour, HOUR_MS.
  pose proof (Z.mod_pos_bound (now + 3600000) 3600000 ltac:(lia)) as Hm.
  pose proof (Z.div_mod (now + 3600000) 3600000 ltac:(lia)) as Hdm.
  split; [lia|].
  replace (now + ((now + 3600000) - (now + 3600000) `mod` 3600000 - now))
    with (3600000 * ((now + 3600000) `div` 3600000)) by lia.
  rewrite Z.mul_comm. apply Z.mod_mul. lia.
Qed.

(** X23: the wait the ticker computes is positive and at most one hour,
    and it ends exactly on the next full hour of the local clock: the
    first hour boundary strictly after now. *)
Theorem wait_time_reaches_next_hour (now : Z) :
  0 < wait_time now ≤ HOUR_MS ∧
  (now + wait_time now) `mod` HOUR_MS = 0 ∧
  ∀ t, now < t → t `mod` HOUR_MS = 0 → now + wait_time now ≤ t.
Proof.
  unfold wait_time, next_hour, HOUR_MS.
  pose proof (Z.mod_pos_bound (now + 3600000) 3600000 ltac:(lia)) as Hm.
  pose proof (Z.div_mod (now + 3600000) 3600000 ltac:(lia)) as Hdm.
  split; [lia|]. split.
  - replace (now + ((now + 3600000) - (now + 3600000) `mod` 3600000 - now))
      with (3600000 * ((now + 3600000) `div` 3600000)) by lia.
    rewrite Z.mul_comm. apply Z.mod_mul. lia.
  - intros t Hlt Ht.
    pose proof (Z.div_mod t 3600000 ltac:(lia)) as Hdt. rewrite Ht in Hdt.
    assert (Hq : (now + 3600000) `div` 3600000 ≤ t `div` 3600000).
    { destruct (decide ((now + 3600000) `div` 3600000 ≤ t `div` 3600000)); [done|]. nia. }
    nia.
Qed.

(** X24: one turn of the reset ticker sleeps the computed wait (and so,
    with an exact sleep, wakes on a full hour of the local clock), then
    sets every identity's window count to 0 and leaves every lifetime
    count as it was; it makes no driver call and raises nothing. *)
Theorem reset_tick_spec (utc_offset : Z) (w : World) :
  ∃ w', reset_tick utc_offset w = (Ok (), w') ∧
    trace w' = EvSleep (wait_time (clock w + utc_offset)) :: trace w ∧
    (clock w' + utc_offset) `mod` HOUR_MS = 0 ∧
    clock w < clock w' ≤ clock w + HOUR_MS ∧
    calls w' = calls w ∧
    ∀ k, window_count (counters w') k = 0 ∧
         lifetime_count (counters w') k = lifetime_count (counters w) k.
Proof.
  destruct (wait_time_bounds (clock w + utc_offset)) as (Hw & Hal).
  eexists. split; [reflexivity|]. cbn [trace clock calls counters set_counters elapse emit].
  split; [done|]. rewrite Z.max_r by lia. split.
  - replace (clock w + wait_time (clock w + utc_offset) + utc_offset)
      with (clock w + utc_offset + wait_time (clock w + utc_offset)) by lia. done.
  - split; [lia|]. split; [done|]. intros k.
    by rewrite reset_views_window, reset_views_lifetime.
Qed.

(** ** Driver capabilities *)

(** X25: every identity gets a device name of its own: the name is the
    configured prefix, an underscore and the identity, so two identities
    with the same device name are the same identity. *)
Theorem device_names_are_distinct
    (a b : string)
    (Hsame : cap_lookup "deviceName" (get_desired_caps a)
             = cap_lookup "deviceName" (get_desired_caps b)) :
  a = b ∧
  cap_lookup "deviceName" (get_desired_caps a)
    = Some (CapStr (DEVICE_NAME_PREFIX +:+ "_" +:+ a)).
Proof.
  split; [|reflexivity].
  cbn in Hsame. injection Hsame as Hsame.
  by repeat (apply (inj (String.app _)) in Hsame || injection Hsame as Hsame).
Qed.

Lemma device_names_are_distinct_witness :
  "proxy_1"%string = "proxy_1"%string ∧
  cap_lookup "deviceName" (get_desired_caps "proxy_1")
    = Some (CapStr (DEVICE_NAME_PREFIX +:+ "_" +:+ "proxy_1")).
Proof. apply (device_names_are_distinct "proxy_1" "proxy_1"). reflexivity. Defined.

(** ** Alternation and first contact *)

Lemma category_selector_flips n :
  category_selector (n + 1) ≠ category_selector n.
Proof.
  unfold category_selector.
  pose proof (Z.mod_pos_bound n 2 ltac:(lia)).
  pose proof (Z.mod_pos_bound (n + 1) 2 ltac:(lia)).
  assert ((n + 1) `mod` 2 = 1 ↔ n `mod` 2 = 0).
  { rewrite Z.add_mod by lia. destruct (decide (n `mod` 2 = 0)) as [->| ];
      [done|]. replace (n `mod` 2) with 1 by lia. done. }
  repeat case_decide; first [lia | apply selectors_differ | apply not_eq_sym, selectors_differ].
Qed.


(** X27: an identity the counters have never seen counts as zero: the
    cap check allows it with ordinal 1 and gives it an entry 0 in both
    mappings, and recording its first view makes both counts 1. *)
Theorem first_contact
    (c : Counters) (k : string)
    (Hview : proxy_view_count c !! k = None)
    (Htotal : proxy_total_count c !! k = None) :
  check_caps k c =
    (Allowed, 1, mkCounters (<[k:=0]> (proxy_view_count c)) (<[k:=0]> (proxy_total_count c))) ∧
  window_count (record_view k c) k = 1 ∧
  lifetime_count (record_view k c) k = 1 ∧
  proxy_view_count (record_view k c) = <[k:=1]> (proxy_view_count c) ∧
  proxy_total_count (record_view k c) = <[k:=1]> (proxy_total_count c).
Proof.
  split; [|split; [|split; [|split]]].
  - unfold check_caps, getitem. rewrite Hview, lookup_insert_eq, Htotal. done.
  - rewrite record_view_window, decide_True by done.
    unfold window_count, peek. by rewrite Hview.
  - rewrite record_view_lifetime, decide_True by done.
    unfold lifetime_count, peek. by rewrite Htotal.
  - unfold record_view, iadd, getitem, setitem; simpl. rewrite Hview.
    by rewrite insert_insert_eq.
  - unfold record_view, iadd, getitem, setitem; simpl. rewrite Htotal.
    by rewrite insert_insert_eq.
Qed.

Lemma first_contact_witness :
  check_caps "proxy_3" fresh_counters =
    (Allowed, 1, mkCounters (<["proxy_3"%string:=0]> (proxy_view_count fresh_counters))
                            (<["proxy_3"%string:=0]> (proxy_total_count fresh_counters))) ∧
  window_count (record_view "proxy_3" fresh_counters) "proxy_3" = 1 ∧
  lifetime_count (record_view "proxy_3" fresh_counters) "proxy_3" = 1 ∧
  proxy_view_count (record_view "proxy_3" fresh_counters)
    = <["proxy_3"%string:=1]> (proxy_view_count fresh_counters) ∧
  proxy_total_count (record_view "proxy_3" fresh_counters)
    = <["proxy_3"%string:=1]> (proxy_total_count fresh_counters).
Proof. apply (first_contact fresh_counters "proxy_3"); reflexivity. Defined.

Example completed_turn :
  (cycle view_env 51 "proxy_1" world0).1 = Ok (Viewed true) ∧
  window_count (counters (cycle view_env 51 "proxy_1" world0).2) "proxy_1" = 1 ∧
  lifetime_count (counters (cycle view_env 51 "proxy_1" world0).2) "proxy_1" = 1.
Proof. vm_compute. repeat split; reflexivity. Qed.


(** * The dismissal search, turn by turn *)

Lemma matcher_queries_length : length MATCHER_QUERIES = 8%nat.
Proof. reflexivity. Qed.

Lemma matcher_world env w :
  counters (after_queries env MATCHER_QUERIES w) = counters w ∧
  clock w ≤ clock (after_queries env MATCHER_QUERIES w) ∧
  calls (after_queries env MATCHER_QUERIES w) = (calls w + 8)%nat ∧
  ∃ new, trace (after_queries env MATCHER_QUERIES w) = new ++ trace w ∧
         Forall no_press new.
Proof.
  pose proof (post_find_candidates env no_press CROSS_BUTTON_HEURISTICS
                (λ h _, no_press_find h.2) (no_press_find _) w _ _ (find_all_eq env w))
    as (Hc & Hk & _ & Htr & _).
  split; [exact Hc|]. split; [exact Hk|]. split; [|exact Htr].
  unfold MATCHER_QUERIES. by rewrite after_queries_calls.
Qed.

Lemma after_empty_poll_facts env w :
  counters (after_empty_poll env w) = counters w ∧
  clock w + 1000 ≤ clock (after_empty_poll env w) ∧
  calls (after_empty_poll env w) = (calls w + 8)%nat ∧
  ∃ new, trace (after_empty_poll env w) = new ++ trace w ∧ Forall no_press new.
Proof.
  unfold after_empty_poll.
  destruct (matcher_world env w) as (Hc & Hk & Hn & new & Etr & Hall).
  remember (after_queries env MATCHER_QUERIES w) as w1 eqn:Ew1.
  destruct (slept_facts env 1000 2000 w1) as (Hsc & Hsk & Hsn & Hst).
  pose proof (sleep_length_range env 1000 2000 w1 ltac:(lia)) as Hd.
  split; [congruence|]. split; [lia|]. split; [congruence|].
  exists (EvSleep (sleep_length env 1000 2000 w1) :: new).
  split; [by rewrite Hst, Etr|]. constructor; [apply no_press_sleep | done].
Qed.

Lemma after_empty_polls_facts env k w :
  counters (after_empty_polls env k w) = counters w ∧
  clock w + 1000 * Z.of_nat k ≤ clock (after_empty_polls env k w) ∧
  calls (after_empty_polls env k w) = (calls w + 8 * k)%nat ∧
  ∃ new, trace (after_empty_polls env k w) = new ++ trace w ∧ Forall no_press new.
Proof.
  revert w. induction k as [|k IH]; intros w; cbn [after_empty_polls].
  - split; [done|]. split; [lia|]. split; [lia|]. exists []. split; [done | constructor].
  - destruct (after_empty_poll_facts env w) as (Hc1 & Hk1 & Hn1 & n1 & Etr1 & Hall1).
    destruct (IH (after_empty_poll env w)) as (Hc & Hk & Hn & n2 & Etr & Hall).
    split; [congruence|]. split; [lia|]. split; [lia|].
    exists (n2 ++ n1). split; [by rewrite Etr, Etr1, app_assoc | by apply Forall_app].
Qed.

(** The turns that find nothing are skipped one by one. *)
Lemma poll_skip env k f timeout w :
  (∀ i, (i < k)%nat → found_at env (calls (after_empty_polls env i w)) = []) →
  clock (after_empty_polls env k w) < timeout →
  poll_dismissal env (k + f) timeout w =
  poll_dismissal env f timeout (after_empty_polls env k w).
Proof.
  revert w. induction k as [|k IH]; intros w Hnone Hlt; [done|].
  cbn [after_empty_polls] in *.
  destruct (after_empty_poll_facts env w) as (_ & Hk1 & _).
  destruct (after_empty_polls_facts env k (after_empty_poll env w)) as (_ & Hk & _).
  pose proof (find_all_eq env w) as Hfind.
  pose proof (Hnone 0%nat ltac:(lia)) as H0. cbn [after_empty_polls] in H0.
  rewrite H0 in Hfind.
  change (S k + f)%nat with (S (k + f)).
  rewrite (poll_turn_empty env (k + f) timeout w _ ltac:(lia) Hfind).
  apply IH; [|done]. intros i Hi. apply (Hnone (S i)). lia.
Qed.

(** What [human_tap] does to an element whose geometry can be read. *)
Lemma human_tap_run env element w loc size :
  el_location element = Returns loc → el_size element = Returns size →
  ∃ w' x y d s,
    human_tap env element w = (Ok (), w') ∧
    trace w' = EvSleep s :: presses env (calls w) x y d ++ trace w ∧
    jitter_range size.1 (x - loc.1) ∧ jitter_range size.2 (y - loc.2) ∧
    counters w' = counters w ∧ clock w ≤ clock w'.
Proof.
  intros Hloc Hsize.
  pose proof (Z.mod_pos_bound (rnd env (draws w)) (Z.max 6 (size.1 - 10) - 5 + 1)) as Hx.
  pose proof (Z.mod_pos_bound (rnd env (S (draws w))) (Z.max 6 (size.2 - 10) - 5 + 1)) as Hy.
  pose proof (post_human_tap_any env (λ _, True) (λ _ _, I) element) as Hpost.
  unfold human_tap, jitter in *. rewrite Hloc, Hsize in *.
  rewrite (bind_step _ _ _ _ _ (eq_refl : read (Returns loc) w = (Ok loc, w))).
  rewrite (bind_step _ _ _ _ _ (eq_refl : read (Returns size) w = (Ok size, w))).
  rewrite (bind_step _ _ _ _ _ (randint_eq env 5 (Z.max 6 (size.1 - 10)) w ltac:(lia))).
  rewrite (bind_step _ _ _ _ _ (randint_eq env 5 (Z.max 6 (size.2 - 10)) _ ltac:(lia))).
  cbn [counters clock calls draws trace].
  set (x := loc.1 + (5 + rnd env (draws w) `mod` (Z.max 6 (size.1 - 10) - 5 + 1))).
  set (y := loc.2 + (5 + rnd env (S (draws w)) `mod` (Z.max 6 (size.2 - 10) - 5 + 1))).
  remember (mkWorld (counters w) (clock w) (calls w) (S (S (draws w))) (trace w)) as w2 eqn:Ew2.
  assert (Hpress : post (λ _, True) (@any_value unit)
            (try_except
               (duration ← uniform_ms env HUMAN_SLEEP_VARIANCE.tap.1 HUMAN_SLEEP_VARIANCE.tap.2;
                driver_call env (EvTap x y duration))
               (λ _, try_except (driver_call env (EvTouchTap x y)) (λ _, mret ())))).
  { apply post_try.
    - eapply post_bind; [by apply post_uniform_ms|]. intros d _. by apply post_driver_call.
    - intros _. apply post_try; [by apply post_driver_call | intros _; by apply post_ret]. }
  destruct (press_eq env x y w2) as (w3 & d & Epress & Etr3 & Hc3 & Hd).
  destruct (Hpress _ _ _ Epress) as (_ & Hk3 & _).
  rewrite (bind_step _ _ _ _ _ Epress), random_sleep_eq.
  destruct (slept_facts env 350 1500 w3) as (Hc4 & Hk4 & _ & Etr4).
  pose proof (sleep_length_range env 350 1500 w3 ltac:(lia)) as Hs.
  exists (slept env 350 1500 w3), x, y, d, (sleep_length env 350 1500 w3).
  split; [reflexivity|]. split; [rewrite Etr4, Etr3, Ew2; done|].
  unfold jitter_range, x, y. cbn [fst snd HUMAN_SLEEP_VARIANCE.tap].
  rewrite Hc4, Hc3, Hk4, Ew2. rewrite Ew2 in Hk3. cbn [counters clock] in *.
  repeat split; lia.
Qed.

(** [human_tap] on an element whose geometry cannot be read. *)
Lemma human_tap_raises env element w ex :
  el_location element = Throws ex ∨
  (∃ loc, el_location element = Returns loc) ∧ el_size element = Throws ex →
  human_tap env element w = (Raise ex, w).
Proof.
  unfold human_tap, read. intros [Hloc|[[loc Hloc] Hsize]].
  - by rewrite Hloc.
  - by rewrite Hloc, Hsize.
Qed.

(** The search up to the turn in which the first candidate appears. *)
Lemma await_until_candidate env fuel w k c0 rest :
  (51 ≤ fuel)%nat → first_candidate_at env w k c0 rest →
  ∃ w1 new,
    await_dismissal env fuel w = (human_tap env c0;; mret true) w1 ∧
    counters w1 = counters w ∧
    calls w1 = (calls w + 8 * (k + 1))%nat ∧
    trace w1 = new ++ trace w ∧ Forall no_press new.
Proof.
  intros Hfuel (Hnone & Hfound & Hlt).
  destruct (after_empty_polls_facts env k w) as (Hc & Hk & Hn & n1 & Etr1 & Hall1).
  destruct (matcher_world env (after_empty_polls env k w)) as (Hc2 & _ & Hn2 & n2 & Etr2 & Hall2).
  assert (Hkf : (k < 50)%nat) by (unfold DISMISS_TIMEOUT in Hlt; lia).
  exists (after_queries env MATCHER_QUERIES (after_empty_polls env k w)), (n2 ++ n1).
  split.
  - rewrite await_dismissal_eq.
    replace fuel with (k + S (fuel - k - 1))%nat by lia.
    rewrite (poll_skip env k _ _ w Hnone Hlt).
    pose proof (find_all_eq env (after_empty_polls env k w)) as Hfind.
    rewrite Hfound in Hfind.
    by rewrite (poll_turn_found env _ _ _ _ c0 rest Hlt Hfind).
  - split; [congruence|]. split; [lia|].
    split; [by rewrite Etr2, Etr1, app_assoc | by apply Forall_app].
Qed.



Lemma late_env_first_candidate : first_candidate_at late_env world0 2 close_btn [].
Proof.
  split; [|split].
  - intros i Hi. destruct i as [|[|i]]; [vm_compute; reflexivity..|lia].
  - vm_compute. reflexivity.
  - vm_compute. reflexivity.
Qed.

Lemma stale_only_first_candidate : first_candidate_at stale_only_env world0 0 stale [].
Proof.
  split; [|split].
  - intros i Hi. lia.
  - vm_compute. reflexivity.
  - vm_compute. reflexivity.
Qed.


Example late_candidate_is_pressed :
  (dismiss_and_cooldown late_env 51 "proxy_1" world0).1 = Ok (Viewed true) ∧
  List.filter (λ ev, match ev with EvTap _ _ _ | EvTouchTap _ _ => true | _ => false end)
    (trace (dismiss_and_cooldown late_env 51 "proxy_1" world0).2) = [EvTap 905 45 350].
Proof. vm_compute. split; reflexivity. Qed.
